(** * Badminton 8somes: scheduling, statistics and payouts

    A shallow embedding of [src/utils/scheduler.ts] and of the state
    operations of [App.tsx]: the two schedule generators, the player and team
    statistics folds, the payout tables, the side-bet totals, the score and
    side-bet lists and the custom pairing form, followed by the properties
    the design document states about them and further properties of the
    code.

    Conventions of the embedding.
    - A JavaScript [number] holding a score, a fee, a prize or a counter is a
      [Z]; the stake of a side bet, which the form reads with [parseFloat],
      is a binary64 [float], added and subtracted as IEEE 754 does; game
      identifiers and round numbers, which are only ever counted upwards
      from 1, are [nat].
    - An optional field ([team1Score?: number]) is an [option]; [None] is
      [undefined].
    - A thrown exception is the left injection of a sum.
    - [Math.random()] is an oracle [random : nat -> Q], where [random k] is
      the value of the k-th call; its contract [0 <= random k < 1] is a
      hypothesis wherever a proof needs it.  The product
      [Math.random() * (i + 1)] is taken exactly.
    - A plain object used as a dictionary and a [Map] are association lists
      of own properties in creation order, see [Js].  A plain object also
      inherits the properties of [Object.prototype]: [Js.read] is the lookup
      [o[k]] that finds them, [Js.assign] the assignment [o[k] = v] that
      [__proto__] swallows.  [Js.entries] is the order in which
      [Object.entries] and [Object.keys] list a returned object. *)

From Stdlib Require Import ZArith QArith Qround String Ascii Lia.
From Stdlib Require Import Uint63 PrimFloat.
From stdpp Require Import base list strings sorting.

Local Open Scope string_scope.
Local Open Scope list_scope.
Local Open Scope nat_scope.

(** ** The JavaScript data structures the scheduler relies on *)

Module Js.

(** [[a[i], a[j]] = [a[j], a[i]]]: both elements are read, then [a[i]] and
    [a[j]] are written in this order.  The shuffle only calls it with both
    indices inside the array (lemma [shuffle_stays_inside] below), so the
    array never grows; outside the array the model leaves it unchanged. *)
Definition swap {A} (a : list A) (i j : nat) : list A :=
  match a !! i, a !! j with
  | Some x, Some y => <[j := x]> (<[i := y]> a)
  | _, _ => a
  end.

(** [Array.prototype.sort(compare)]: since ES2019 the sort is stable, and
    for a consistent comparator its result is the unique stable
    arrangement; a stable insertion sort computes it.  [compare x y <= 0]
    keeps [x] in front of [y]. *)
Fixpoint insert {A} (compare : A -> A -> Z) (x : A) (l : list A) : list A :=
  match l with
  | [] => [x]
  | y :: l' =>
      if (compare x y <=? 0)%Z then x :: y :: l'
      else y :: insert compare x l'
  end.

Fixpoint sort {A} (compare : A -> A -> Z) (l : list A) : list A :=
  match l with
  | [] => []
  | x :: l' => insert compare x (sort compare l')
  end.

(** The default comparator of [sort()] on strings.  [String.compare] orders
    by bytes; on UTF-8 text that is the order of the code points, which is
    the order of the UTF-16 code units that [sort()] compares whenever no
    character lies outside the Basic Multilingual Plane. *)
Definition compare_strings (x y : string) : Z :=
  match String.compare x y with
  | Lt => (-1)%Z
  | Eq => 0%Z
  | Gt => 1%Z
  end.

(** Own properties of an object, or entries of a [Map], in creation
    order. *)
Abbreviation props V := (list (string * V)).

Fixpoint get {V} (o : props V) (k : string) : option V :=
  match o with
  | [] => None
  | (k', v) :: o' => if decide (k' = k) then Some v else get o' k
  end.

(** [o[k] = v] and [m.set(k, v)]: an existing key keeps its position, a
    new key goes last. *)
Fixpoint set {V} (o : props V) (k : string) (v : V) : props V :=
  match o with
  | [] => [(k, v)]
  | (k', v') :: o' =>
      if decide (k' = k) then (k, v) :: o' else (k', v') :: set o' k v
  end.

(** Mutation through a reference obtained with [m.get(k)!]. *)
Definition update {V} (o : props V) (k : string) (f : V -> V) : props V :=
  match get o k with
  | Some v => set o k (f v)
  | None => o
  end.

(** The properties of [Object.prototype].  A plain object inherits them:
    [o[k]] finds the member of [Object.prototype] when [o] has no own
    property [k].  A [Map] does not. *)
Definition Object_prototype : list string :=
  ["constructor"; "__defineGetter__"; "__defineSetter__"; "hasOwnProperty";
   "__lookupGetter__"; "__lookupSetter__"; "isPrototypeOf";
   "propertyIsEnumerable"; "toString"; "valueOf"; "__proto__";
   "toLocaleString"].

(** What [o[k]] finds in a plain object: an own property, a member of
    [Object.prototype] (a function, or [Object.prototype] itself for
    [__proto__]: truthy in every case), or nothing. *)
Inductive found (V : Type) := Own (v : V) | Inherited | Undefined.
Arguments Own {V} v.
Arguments Inherited {V}.
Arguments Undefined {V}.

Definition read {V} (o : props V) (k : string) : found V :=
  match get o k with
  | Some v => Own v
  | None => if decide (k ∈ Object_prototype) then Inherited else Undefined
  end.

(** [o[k] = v] on a plain object for a number or a string [v]: the setter of
    [__proto__] ignores a value that is not an object, every other name gets
    an own property. *)
Definition assign {V} (o : props V) (k : string) (v : V) : props V :=
  if decide (k = "__proto__") then o else set o k v.

(** [x || 0] for a number [x]: 0, -0 and NaN are falsy. *)
Definition or_zero (x : float) : float :=
  if (PrimFloat.eqb x 0 || PrimFloat.is_nan x)%bool then 0%float else x.

(** What a property of an object of amounts can hold.  The annotation says
    [number]; a string gets there when [+] meets a member of
    [Object.prototype]: [Text member appended] is the text of the object that
    [o[member]] inherits (the source text of a function, or
    [[object Object]]) followed by the decimal forms of the numbers
    [appended].  Such a string is not empty, so truthy, and not a numeral,
    so NaN as a number. *)
Inductive value := Number (x : float) | Text (member : string) (appended : list float).

(** [(o[k] || 0) + amount], where [current] is what [o[k]] finds. *)
Definition or_zero_plus (k : string) (current : found value) (amount : float)
  : value :=
  match current with
  | Own (Number x) => Number (or_zero x + amount)
  | Own (Text member appended) => Text member (appended ++ [amount])
  | Inherited => Text k [amount]
  | Undefined => Number (0 + amount)
  end.

(** [(o[k] || 0) - amount]. *)
Definition or_zero_minus (current : found value) (amount : float) : value :=
  match current with
  | Own (Number x) => Number (or_zero x - amount)
  | Own (Text _ _) | Inherited => Number (nan - amount)
  | Undefined => Number (0 - amount)
  end.

Definition keys {V} (o : props V) : list string := o.*1.

(** [Array.from(m.values())]: a [Map] iterates in insertion order. *)
Definition values {V} (o : props V) : list V := o.*2.

(** Array indices: the canonical decimal numerals of the integers from 0 to
    2^32 - 2. *)
Definition digit (c : ascii) : option N :=
  let n := N_of_ascii c in
  if ((48 <=? n) && (n <=? 57))%N then Some (n - 48)%N else None.

Fixpoint numeral (s : string) (acc : N) : option N :=
  match s with
  | EmptyString => Some acc
  | String c s' =>
      match digit c with
      | Some d => numeral s' (10 * acc + d)%N
      | None => None
      end
  end.

Definition array_index (s : string) : option N :=
  match s with
  | EmptyString => None
  | String "0"%char EmptyString => Some 0%N
  | String "0"%char _ => None
  | _ =>
      match numeral s 0%N with
      | Some n => if (n <? 4294967295)%N then Some n else None
      | None => None
      end
  end.

Definition index_of {V} (kv : string * V) : Z :=
  match array_index kv.1 with
  | Some n => Z.of_N n
  | None => 0%Z
  end.

(** [Object.entries(o)]: the own enumerable string-keyed properties in the
    order of OrdinaryOwnPropertyKeys, that is the array-index keys in
    ascending numeric order, then every other key in creation order. *)
Definition entries {V} (o : props V) : list (string * V) :=
  sort (fun x y => (index_of x - index_of y)%Z)
       (filter (fun kv => is_Some (array_index kv.1)) o)
  ++ filter (fun kv => array_index kv.1 = None) o.

End Js.

(** ** The data model *)

Record Game := {
  id : nat;
  team1 : string * string;
  team2 : string * string;
  team1Score : option Z;
  team2Score : option Z
}.

Record Round := {
  roundNumber : nat;
  games : list Game
}.

Module SideBet.
Inductive side := One | Two.

Record t := {
  id : nat;
  team1 : string * string;
  team2 : string * string;
  amount : float;
  winner : option side
}.
End SideBet.

Module TeamStats.
Record t := {
  teamName : string;
  players : string * string;
  wins : Z;
  losses : Z;
  pointsScored : Z;
  pointsConceded : Z;
  pointDifferential : Z;
  pointsLost : Z;
  gameScores : list Z
}.
End TeamStats.

Record PlayerStats := {
  totalPoints : Z;
  pointsLost : Z;
  gamesPlayed : Z;
  wins : Z;
  losses : Z;
  gameScores : list Z
}.

(** What a call can throw: an [Error] made by the scheduler with its
    message, or a [TypeError] raised by the engine, whose message is the
    engine's own. *)
Inductive exn := Error (message : string) | TypeError.

Definition and_then {A B} (r : exn + A) (k : A -> exn + B) : exn + B :=
  match r with
  | inl e => inl e
  | inr a => k a
  end.

(** [xs.forEach(body)] with a body that may throw: the state after the last
    element, or the first exception. *)
Fixpoint forEach {S A} (body : S -> A -> exn + S) (s : S) (xs : list A)
  : exn + S :=
  match xs with
  | [] => inr s
  | x :: xs' => and_then (body s x) (fun s' => forEach body s' xs')
  end.

(** The two members of a side, in the order [forEach] visits them. *)
Definition members (team : string * string) : list string := [team.1; team.2].

(** ** Shuffle *)

Section Shuffle.
Context {A : Type}.
Variable random : nat -> Q.

(** [Math.floor(Math.random() * (i + 1))] at the k-th call. *)
Definition draw (k i : nat) : nat :=
  Z.to_nat (Qfloor (random k * inject_Z (Z.of_nat (i + 1)))).

(** The loop [for (let i = shuffled.length - 1; i > 0; i--)]; [k] counts
    the calls of [Math.random] made so far. *)
Fixpoint shuffle_loop (k i : nat) (shuffled : list A) : list A :=
  match i with
  | 0 => shuffled
  | S i' => shuffle_loop (S k) i' (Js.swap shuffled i (draw k i))
  end.

Definition shuffleArray (array : list A) : list A :=
  shuffle_loop 0 (length array - 1) array.
End Shuffle.

(** ** Schedule generators *)

(** [xs.map(x => f(gameId++, x))]: the list built and the counter left. *)
Fixpoint map_counting {A B} (f : nat -> A -> B) (gameId : nat) (xs : list A)
  : list B * nat :=
  match xs with
  | [] => ([], gameId)
  | x :: xs' =>
      let '(ys, gameId') := map_counting f (S gameId) xs' in
      (f gameId x :: ys, gameId')
  end.

Definition schedule : list (list (list nat)) :=
  [ [[0; 1; 2; 3]; [4; 5; 6; 7]];
    [[0; 2; 4; 6]; [1; 3; 5; 7]];
    [[0; 3; 5; 6]; [1; 2; 4; 7]];
    [[0; 4; 3; 7]; [1; 5; 2; 6]];
    [[0; 5; 1; 4]; [2; 7; 3; 6]];
    [[0; 6; 1; 7]; [2; 4; 3; 5]];
    [[0; 7; 1; 6]; [2; 5; 3; 4]] ].

Definition game_of_indices (shuffledPlayers : list string)
    (gameId : nat) (gameIndices : list nat) : Game :=
  {| id := gameId;
     team1 := (shuffledPlayers !!! (gameIndices !!! 0),
               shuffledPlayers !!! (gameIndices !!! 1));
     team2 := (shuffledPlayers !!! (gameIndices !!! 2),
               shuffledPlayers !!! (gameIndices !!! 3));
     team1Score := None;
     team2Score := None |}.

(** [schedule.forEach((roundGames, roundIndex) => ...)] with the running
    [gameId]. *)
Fixpoint rounds_of_schedule (shuffledPlayers : list string)
    (roundIndex gameId : nat) (sched : list (list (list nat))) : list Round :=
  match sched with
  | [] => []
  | roundGames :: rest =>
      let '(gs, gameId') :=
        map_counting (game_of_indices shuffledPlayers) gameId roundGames in
      {| roundNumber := roundIndex + 1; games := gs |}
      :: rounds_of_schedule shuffledPlayers (S roundIndex) gameId' rest
  end.

Definition generateRoundRobinSchedule (random : nat -> Q)
    (players : list string) : exn + list Round :=
  if decide (length players ≠ 8) then
    inl (Error "Exactly 8 players are required")
  else
    let shuffledPlayers := shuffleArray random players in
    inr (rounds_of_schedule shuffledPlayers 0 1 schedule).

(** [for (let i = 0; i < 12; i += 2) teams.push([s[i], s[i + 1]])]. *)
Definition pair_up (shuffledPlayers : list string) : list (string * string) :=
  (fun i => (shuffledPlayers !!! i, shuffledPlayers !!! (i + 1)))
    <$> [0; 2; 4; 6; 8; 10].

(** [rotatingTeams.unshift(rotatingTeams.pop()!)]; the list always has five
    entries here. *)
Definition rotate (rotatingTeams : list nat) : list nat :=
  match reverse rotatingTeams with
  | x :: r => x :: reverse r
  | [] => []
  end.

Definition game_of_teams (teams : list (string * string))
    (gameId team1Idx team2Idx : nat) : Game :=
  {| id := gameId;
     team1 := teams !!! team1Idx;
     team2 := teams !!! team2Idx;
     team1Score := None;
     team2Score := None |}.

(** One pass of the body of [for (let round = 0; round < 5; round++)]: the
    game of team 0, then the inner loop over [i = 1, 2]. *)
Definition round_of_rotation (teams : list (string * string))
    (rotatingTeams : list nat) (round gameId : nat) : Round * nat :=
  let first := game_of_teams teams gameId 0 (rotatingTeams !!! 0) in
  let '(rest, gameId') :=
    map_counting
      (fun g i =>
         game_of_teams teams g (rotatingTeams !!! i) (rotatingTeams !!! (5 - i)))
      (S gameId) [1; 2] in
  ({| roundNumber := round + 1; games := first :: rest |}, gameId').

Fixpoint rounds_of_rotation (teams : list (string * string))
    (todo round gameId : nat) (rotatingTeams : list nat) : list Round :=
  match todo with
  | 0 => []
  | S todo' =>
      let '(r, gameId') :=
        round_of_rotation teams rotatingTeams round gameId in
      r :: rounds_of_rotation teams todo' (S round) gameId'
             (rotate rotatingTeams)
  end.

Definition generate12PlayerSchedule (random : nat -> Q)
    (players : list string) (customTeams : option (list (string * string)))
  : exn + list Round :=
  if decide (length players ≠ 12) then
    inl (Error "Exactly 12 players are required")
  else
    let teams :=
      match customTeams with
      | Some custom =>
          if decide (length custom = 6) then custom
          else pair_up (shuffleArray random players)
      | None => pair_up (shuffleArray random players)
      end in
    inr (rounds_of_rotation teams 5 0 1 [1; 2; 3; 4; 5]).

(** ** Player statistics *)

Definition MAX_POINTS_PER_GAME : Z := 21.

Definition fresh_stats : PlayerStats :=
  {| totalPoints := 0; pointsLost := 0; gamesPlayed := 0;
     wins := 0; losses := 0; gameScores := [] |}.

(** The six updates of a record for one game. *)
Definition add_game (score : Z) (won : bool) (s : PlayerStats) : PlayerStats :=
  {| totalPoints := totalPoints s + score;
     pointsLost := pointsLost s + (MAX_POINTS_PER_GAME - score);
     gameScores := gameScores s ++ [score];
     gamesPlayed := gamesPlayed s + 1;
     wins := if won then wins s + 1 else wins s;
     losses := if won then losses s else losses s + 1 |}%Z.

(** The body of [game.team1.forEach((player) => ...)]; for the second side
    [won] is [!team1Won].  [stats] is a plain object: for a name that it
    inherits from [Object.prototype], [stats[player]] is that member, so no
    record is made, [totalPoints] and [pointsLost] of the member become NaN,
    and [stats[player].gameScores.push] throws a TypeError, [gameScores]
    being undefined there.  (The NaN left on the member is falsy: no lookup
    of this file tells it from an absent property.) *)
Definition record_player (score : Z) (won : bool)
    (stats : Js.props PlayerStats) (player : string)
  : exn + Js.props PlayerStats :=
  match Js.read stats player with
  | Js.Own s => inr (Js.set stats player (add_game score won s))
  | Js.Undefined => inr (Js.set stats player (add_game score won fresh_stats))
  | Js.Inherited => inl TypeError
  end.

Definition record_game (stats : Js.props PlayerStats) (game : Game)
  : exn + Js.props PlayerStats :=
  match team1Score game, team2Score game with
  | Some team1Score, Some team2Score =>
      let team1Won := (team1Score >? team2Score)%Z in
      and_then (forEach (record_player team1Score team1Won)
                        stats (members (team1 game)))
               (fun stats =>
                  forEach (record_player team2Score (negb team1Won))
                          stats (members (team2 game)))
  | _, _ => inr stats
  end.

Definition calculatePlayerStats (rounds : list Round)
  : exn + Js.props PlayerStats :=
  forEach (fun stats round => forEach record_game stats (games round))
          [] rounds.

(** ** Payouts *)

Definition prizes : list Z := [8; 6; 2]%Z.

Definition sortedPlayers (stats : Js.props PlayerStats)
  : list (string * PlayerStats) :=
  Js.sort (fun a b => (pointsLost a.2 - pointsLost b.2)%Z) (Js.entries stats).

(** [payouts[player] += prizes[index]] for [index < prizes.length]; the
    player was given an entry by the loop before. *)
Definition add_prize (payouts : Js.props Z) (index : nat) (player : string)
  : Js.props Z :=
  match prizes !! index with
  | Some prize => Js.update payouts player (fun v => (v + prize)%Z)
  | None => payouts
  end.

Definition calculatePayouts (rounds : list Round) (entryFee : Z)
  : exn + Js.props Z :=
  and_then (calculatePlayerStats rounds)
    (fun stats =>
       let sorted := sortedPlayers stats in
       let payouts :=
         foldl (fun payouts e => Js.assign payouts e.1 (- entryFee)%Z)
               [] sorted in
       inr (foldl (fun payouts ie => add_prize payouts ie.1 ie.2.1)
                  payouts (imap pair sorted))).

(** ** Side bets *)

(** [totals[player] = (totals[player] || 0) + sideBet.amount]. *)
Definition add_stake (amount : float) (totals : Js.props Js.value)
    (player : string) : Js.props Js.value :=
  Js.assign totals player
    (Js.or_zero_plus player (Js.read totals player) amount).

(** [totals[player] = (totals[player] || 0) - sideBet.amount]. *)
Definition subtract_stake (amount : float) (totals : Js.props Js.value)
    (player : string) : Js.props Js.value :=
  Js.assign totals player (Js.or_zero_minus (Js.read totals player) amount).

Definition settle (totals : Js.props Js.value) (sideBet : SideBet.t)
  : Js.props Js.value :=
  match SideBet.winner sideBet with
  | Some SideBet.One =>
      let totals := foldl (add_stake (SideBet.amount sideBet))
                          totals (members (SideBet.team1 sideBet)) in
      foldl (subtract_stake (SideBet.amount sideBet))
            totals (members (SideBet.team2 sideBet))
  | Some SideBet.Two =>
      let totals := foldl (add_stake (SideBet.amount sideBet))
                          totals (members (SideBet.team2 sideBet)) in
      foldl (subtract_stake (SideBet.amount sideBet))
            totals (members (SideBet.team1 sideBet))
  | None => totals
  end.

Definition calculateSideBetTotals (sideBets : list SideBet.t)
  : Js.props Js.value :=
  foldl settle [] sideBets.

(** ** Team statistics *)

Definition MAX_POINTS : Z := 21.

(** [[...team].sort().join(' & ')]. *)
Definition team_key (team : string * string) : string :=
  String.concat " & " (Js.sort Js.compare_strings (members team)).

Definition fresh_team (key : string) (team : string * string) : TeamStats.t :=
  {| TeamStats.teamName := key;
     TeamStats.players := team;
     TeamStats.wins := 0;
     TeamStats.losses := 0;
     TeamStats.pointsScored := 0;
     TeamStats.pointsConceded := 0;
     TeamStats.pointDifferential := 0;
     TeamStats.pointsLost := 0;
     TeamStats.gameScores := [] |}.

(** [if (!teamMap.has(key)) teamMap.set(key, {...})]. *)
Definition init_team (teamMap : Js.props TeamStats.t)
    (key : string) (team : string * string) : Js.props TeamStats.t :=
  match Js.get teamMap key with
  | Some _ => teamMap
  | None => Js.set teamMap key (fresh_team key team)
  end.

(** The four assignments [pointsScored += own], [pointsConceded += other],
    [pointsLost += MAX_POINTS - own], [gameScores.push(own)]. *)
Definition add_points (own other : Z) (s : TeamStats.t) : TeamStats.t :=
  {| TeamStats.teamName := TeamStats.teamName s;
     TeamStats.players := TeamStats.players s;
     TeamStats.wins := TeamStats.wins s;
     TeamStats.losses := TeamStats.losses s;
     TeamStats.pointsScored := TeamStats.pointsScored s + own;
     TeamStats.pointsConceded := TeamStats.pointsConceded s + other;
     TeamStats.pointDifferential := TeamStats.pointDifferential s;
     TeamStats.pointsLost := TeamStats.pointsLost s + (MAX_POINTS - own);
     TeamStats.gameScores := TeamStats.gameScores s ++ [own] |}%Z.

Definition add_win (s : TeamStats.t) : TeamStats.t :=
  {| TeamStats.teamName := TeamStats.teamName s;
     TeamStats.players := TeamStats.players s;
     TeamStats.wins := TeamStats.wins s + 1;
     TeamStats.losses := TeamStats.losses s;
     TeamStats.pointsScored := TeamStats.pointsScored s;
     TeamStats.pointsConceded := TeamStats.pointsConceded s;
     TeamStats.pointDifferential := TeamStats.pointDifferential s;
     TeamStats.pointsLost := TeamStats.pointsLost s;
     TeamStats.gameScores := TeamStats.gameScores s |}%Z.

Definition add_loss (s : TeamStats.t) : TeamStats.t :=
  {| TeamStats.teamName := TeamStats.teamName s;
     TeamStats.players := TeamStats.players s;
     TeamStats.wins := TeamStats.wins s;
     TeamStats.losses := TeamStats.losses s + 1;
     TeamStats.pointsScored := TeamStats.pointsScored s;
     TeamStats.pointsConceded := TeamStats.pointsConceded s;
     TeamStats.pointDifferential := TeamStats.pointDifferential s;
     TeamStats.pointsLost := TeamStats.pointsLost s;
     TeamStats.gameScores := TeamStats.gameScores s |}%Z.

(** [s.pointDifferential = s.pointsScored - s.pointsConceded]. *)
Definition set_differential (s : TeamStats.t) : TeamStats.t :=
  {| TeamStats.teamName := TeamStats.teamName s;
     TeamStats.players := TeamStats.players s;
     TeamStats.wins := TeamStats.wins s;
     TeamStats.losses := TeamStats.losses s;
     TeamStats.pointsScored := TeamStats.pointsScored s;
     TeamStats.pointsConceded := TeamStats.pointsConceded s;
     TeamStats.pointDifferential :=
       TeamStats.pointsScored s - TeamStats.pointsConceded s;
     TeamStats.pointsLost := TeamStats.pointsLost s;
     TeamStats.gameScores := TeamStats.gameScores s |}%Z.

(** The records [team1Stats] and [team2Stats] are references into the map:
    each assignment is an update at the team's key, in source order, so a
    game whose two sides have the same key updates one record six times. *)
Definition record_team_game (teamMap : Js.props TeamStats.t) (game : Game)
  : Js.props TeamStats.t :=
  match team1Score game, team2Score game with
  | Some team1Score, Some team2Score =>
      let team1Key := team_key (team1 game) in
      let team2Key := team_key (team2 game) in
      let m := init_team teamMap team1Key (team1 game) in
      let m := init_team m team2Key (team2 game) in
      let m := Js.update m team1Key (add_points team1Score team2Score) in
      let m := Js.update m team2Key (add_points team2Score team1Score) in
      let m :=
        if (team1Score >? team2Score)%Z then
          Js.update (Js.update m team1Key add_win) team2Key add_loss
        else if (team2Score >? team1Score)%Z then
          Js.update (Js.update m team2Key add_win) team1Key add_loss
        else m in
      let m := Js.update m team1Key set_differential in
      Js.update m team2Key set_differential
  | _, _ => teamMap
  end.

Definition teamMap_of (rounds : list Round) : Js.props TeamStats.t :=
  foldl (fun m round => foldl record_team_game m (games round)) [] rounds.

Definition compare_teams (a b : TeamStats.t) : Z :=
  if decide (TeamStats.wins b ≠ TeamStats.wins a)
  then (TeamStats.wins b - TeamStats.wins a)%Z
  else (TeamStats.pointDifferential b - TeamStats.pointDifferential a)%Z.

Definition calculateTeamStats (rounds : list Round) : list TeamStats.t :=
  Js.sort compare_teams (Js.values (teamMap_of rounds)).

(** ** Payouts of the 12-player mode *)

Definition teamPrizes : list Z := [6; 4; 2]%Z.

(** [payouts[player] += teamPrizes[index]] for a team among the first three.
    The player was given an entry by the loop before, unless the name is
    [__proto__]: there the sum is a string, [payouts[player]] being
    [Object.prototype], and assigning it changes nothing. *)
Definition add_team_prize (index : nat) (payouts : Js.props Z) (player : string)
  : Js.props Z :=
  match teamPrizes !! index with
  | Some prize => Js.update payouts player (fun v => (v + prize)%Z)
  | None => payouts
  end.

Definition calculate12PlayerPayouts (rounds : list Round) (entryFee : Z)
  : Js.props Z :=
  let teamStats := calculateTeamStats rounds in
  let payouts :=
    foldl (fun payouts team =>
             foldl (fun payouts player =>
                      Js.assign payouts player (- entryFee)%Z)
                   payouts (members (TeamStats.players team)))
          [] teamStats in
  foldl (fun payouts it =>
           foldl (add_team_prize it.1) payouts (members (TeamStats.players it.2)))
        payouts (imap pair (take 3 teamStats)).

(** ** The tournament state of the application *)

(** [setGameScore]: the rounds with both scores written into every game
    whose id is [gameId]. *)
Definition setGameScore (gameId : nat) (team1Score team2Score : Z)
    (prevRounds : list Round) : list Round :=
  (fun round =>
     {| roundNumber := roundNumber round;
        games :=
          (fun game =>
             if decide (id game = gameId) then
               {| id := id game; team1 := team1 game; team2 := team2 game;
                  team1Score := Some team1Score;
                  team2Score := Some team2Score |}
             else game) <$> games round |}) <$> prevRounds.

Definition allGamesCompleted (rounds : list Round) : bool :=
  forallb (fun round =>
             forallb (fun game =>
                        bool_decide (team1Score game ≠ None)
                        && bool_decide (team2Score game ≠ None))
                     (games round))
          rounds.

(** [goToNextRound] and [goToPreviousRound] on the index of the round
    shown. *)
Definition goToNextRound (rounds : list Round) (currentRound : Z) : Z :=
  if (currentRound <? Z.of_nat (length rounds) - 1)%Z
  then (currentRound + 1)%Z else currentRound.

Definition goToPreviousRound (currentRound : Z) : Z :=
  if (currentRound >? 0)%Z then (currentRound - 1)%Z else currentRound.

Definition addSideBet (sideBets : list SideBet.t) (sideBet : SideBet.t)
  : list SideBet.t :=
  sideBets ++ [sideBet].

Definition updateSideBet (sideBets : list SideBet.t) (id : nat)
    (winner : SideBet.side) : list SideBet.t :=
  (fun bet =>
     if decide (SideBet.id bet = id) then
       {| SideBet.id := SideBet.id bet;
          SideBet.team1 := SideBet.team1 bet;
          SideBet.team2 := SideBet.team2 bet;
          SideBet.amount := SideBet.amount bet;
          SideBet.winner := Some winner |}
     else bet) <$> sideBets.

Definition deleteSideBet (sideBets : list SideBet.t) (id : nat)
  : list SideBet.t :=
  filter (fun bet => SideBet.id bet ≠ id) sideBets.

(** ** The custom pairing form (App.tsx, [CustomPairingInterface])

    [playerIndex] is [0 | 1] in the source. *)

Inductive seat := Seat0 | Seat1.

Definition set_seat (team : string * string) (playerIndex : seat)
    (value : string) : string * string :=
  match playerIndex with
  | Seat0 => (value, team.2)
  | Seat1 => (team.1, value)
  end.

Definition seat_of (team : string * string) (playerIndex : seat) : string :=
  match playerIndex with
  | Seat0 => team.1
  | Seat1 => team.2
  end.

(** [newTeams[teamIndex]] is replaced by a copy with one seat changed; at
    [teamIndex = customTeams.length] the assignment appends a team whose
    other seat is empty.  Beyond the length the assignment leaves holes in
    the array, which a list does not hold: the result is [None] there (the
    form only passes indices of teams it shows). *)
Definition handleTeamChange (customTeams : list (string * string))
    (teamIndex : nat) (playerIndex : seat) (value : string)
  : option (list (string * string)) :=
  match customTeams !! teamIndex with
  | Some team =>
      Some (<[teamIndex := set_seat team playerIndex value]> customTeams)
  | None =>
      if decide (teamIndex = length customTeams)
      then Some (customTeams ++ [set_seat ("", "") playerIndex value])
      else None
  end.

Definition addTeam (customTeams : list (string * string))
  : list (string * string) :=
  if decide (length customTeams < 6) then customTeams ++ [("", "")]
  else customTeams.

Definition removeTeam (customTeams : list (string * string)) (teamIndex : nat)
  : list (string * string) :=
  (imap pair customTeams ≫=
     λ it, if decide (it.1 ≠ teamIndex) then [it.2] else []).

(** A string is truthy when it is not empty. *)
Definition truthy (s : string) : Prop := s ≠ "".

#[global] Instance truthy_dec s : Decision (truthy s).
Proof. unfold truthy. apply _. Defined.

(** The elements of the set [assignedPlayers], in the order in which they
    are added. *)
Definition assignedPlayers (customTeams : list (string * string))
    (teamIndex : nat) (playerIndex : seat) : list string :=
  mjoin (imap (λ idx team,
                 if decide (idx ≠ teamIndex)
                 then filter truthy [team.1; team.2]
                 else match playerIndex with
                      | Seat0 => filter truthy [team.2]
                      | Seat1 => filter truthy [team.1]
                      end)
              customTeams).

Definition getAvailablePlayers (playerNames : list string)
    (customTeams : list (string * string)) (teamIndex : nat)
    (playerIndex : seat) : list string :=
  filter (λ name, name ∉ assignedPlayers customTeams teamIndex playerIndex)
         playerNames.

(** The values of the options that the select of one seat shows: the empty
    placeholder, the available players, and the seat's own player where the
    available players do not list it. *)
Definition options (playerNames : list string)
    (customTeams : list (string * string)) (teamIndex : nat)
    (playerIndex : seat) : list string :=
  let available :=
    getAvailablePlayers playerNames customTeams teamIndex playerIndex in
  "" :: available
     ++ match customTeams !! teamIndex with
        | Some team =>
            if decide (truthy (seat_of team playerIndex)
                       ∧ seat_of team playerIndex ∉ available)
            then [seat_of team playerIndex]
            else []
        | None => []
        end.

(** * Vocabulary of the properties *)

Definition sumZ (l : list Z) : Z := foldr Z.add 0%Z l.

(** The games of a schedule in the order the folds visit them. *)
Definition all_games (rounds : list Round) : list Game := rounds ≫= games.

(** ** Names

    A name is ordinary when it is not the name of a property of
    [Object.prototype]. *)
Definition ordinary (name : string) : Prop := name ∉ Js.Object_prototype.

#[global] Instance ordinary_dec name : Decision (ordinary name).
Proof. unfold ordinary. apply _. Defined.

(** ** The statistics on own properties

    The folds of [calculatePlayerStats] and [calculatePayouts] as they run
    when every lookup finds an own property or nothing.  The lemmas
    [calculatePlayerStats_booked] and [calculatePayouts_booked] show that the
    source functions return these values whenever no player of a scored game
    has a name of [Object.prototype], and throw otherwise. *)

Definition book_player (score : Z) (won : bool)
    (stats : Js.props PlayerStats) (player : string) : Js.props PlayerStats :=
  let s := default fresh_stats (Js.get stats player) in
  Js.set stats player
    {| totalPoints := totalPoints s + score;
       pointsLost := pointsLost s + (MAX_POINTS_PER_GAME - score);
       gameScores := gameScores s ++ [score];
       gamesPlayed := gamesPlayed s + 1;
       wins := if won then wins s + 1 else wins s;
       losses := if won then losses s else losses s + 1 |}%Z.

Definition book_game (stats : Js.props PlayerStats) (game : Game)
  : Js.props PlayerStats :=
  match team1Score game, team2Score game with
  | Some team1Score, Some team2Score =>
      let team1Won := (team1Score >? team2Score)%Z in
      let stats := foldl (book_player team1Score team1Won)
                         stats (members (team1 game)) in
      foldl (book_player team2Score (negb team1Won))
            stats (members (team2 game))
  | _, _ => stats
  end.

Definition booked_stats (rounds : list Round) : Js.props PlayerStats :=
  foldl (fun stats round => foldl book_game stats (games round)) [] rounds.

Definition booked_ranking (rounds : list Round) : list (string * PlayerStats) :=
  Js.sort (fun a b => (pointsLost a.2 - pointsLost b.2)%Z)
          (Js.entries (booked_stats rounds)).

Definition booked_payouts (rounds : list Round) (entryFee : Z)
  : Js.props Z :=
  let sorted := booked_ranking rounds in
  let payouts :=
    foldl (fun payouts e => Js.set payouts e.1 (- entryFee)%Z) [] sorted in
  foldl (fun payouts ie => add_prize payouts ie.1 ie.2.1)
        payouts (imap pair sorted).

(** A game is scored when both recorded scores are present. *)
Definition scored (g : Game) : Prop :=
  is_Some (team1Score g) ∧ is_Some (team2Score g).

#[global] Instance scored_dec g : Decision (scored g).
Proof. unfold scored. apply _. Defined.

(** How many of the two places of a side a player fills. *)
Definition places (p : string) (team : string * string) : Z :=
  Z.of_nat (length (filter (λ q, q = p) (members team))).

(** A player takes part in a scored game. *)
Definition plays_scored (p : string) (g : Game) : Prop :=
  scored g ∧ (p ∈ members (team1 g) ∨ p ∈ members (team2 g)).

#[global] Instance plays_scored_dec p g : Decision (plays_scored p g).
Proof. unfold plays_scored. apply _. Defined.

(** The points a game makes a player lose: the ceiling of 21 minus the score
    of the side, for each place the player fills on that side. *)
Definition points_lost_in (p : string) (g : Game) : Z :=
  match team1Score g, team2Score g with
  | Some s1, Some s2 =>
      (places p (team1 g) * (21 - s1) + places p (team2 g) * (21 - s2))%Z
  | _, _ => 0%Z
  end.

(** The four places of a scored game, in the order the statistics visit
    them. *)
Definition places_of (g : Game) : list string :=
  if decide (scored g) then (members (team1 g) ++ members (team2 g))%list
  else [].

(** Every player of every scored game has an ordinary name. *)
Definition ordinary_names (rounds : list Round) : Prop :=
  Forall (λ g, Forall ordinary (places_of g)) (all_games rounds).

#[global] Instance ordinary_names_dec rounds : Decision (ordinary_names rounds).
Proof. unfold ordinary_names. apply _. Defined.

(** No own property has a name of [Object.prototype]. *)
Definition own_ordinary {V} (o : Js.props V) : Prop :=
  Forall ordinary (Js.keys o).

(** The elements of a list in the order of their first occurrence. *)
Definition seen_then (seen : list string) (x : string) : list string :=
  if decide (x ∈ seen) then seen else (seen ++ [x])%list.

Definition first_seen (l : list string) : list string := foldl seen_then [] l.

(** The points lost recorded for a player, 0 without an entry. *)
Definition lost_of (stats : Js.props PlayerStats) (p : string) : Z :=
  from_option pointsLost 0%Z (Js.get stats p).

(** Every entry of the statistics has at least one game behind it. *)
Definition played_somewhere (stats : Js.props PlayerStats) : Prop :=
  ∀ p s, Js.get stats p = Some s → (1 <= gamesPlayed s)%Z.

(** The schedule with its unscored games left out. *)
Definition scored_only (rounds : list Round) : list Round :=
  (λ r, {| roundNumber := roundNumber r;
           games := filter scored (games r) |}) <$> rounds.

(** ** Sample inputs *)

Definition played (n : nat) (t1 t2 : string * string) (s1 s2 : Z) : Game :=
  {| id := n; team1 := t1; team2 := t2;
     team1Score := Some s1; team2Score := Some s2 |}.

Definition unplayed (n : nat) (t1 t2 : string * string) : Game :=
  {| id := n; team1 := t1; team2 := t2;
     team1Score := None; team2Score := None |}.

(** One game that ended 20 all. *)
Definition tied_rounds : list Round :=
  [ {| roundNumber := 1;
       games := [played 1 ("Alice", "Bob") ("Charlie", "David") 20 20] |} ].

(** The two rounds of the test suite's statistics example, followed by a game
    that went to extra points and a game not yet played. *)
Definition sample_rounds : list Round :=
  [ {| roundNumber := 1;
       games := [played 1 ("Alice", "Bob") ("Charlie", "David") 21 15;
                 played 2 ("Eve", "Frank") ("Grace", "Henry") 18 21] |};
    {| roundNumber := 2;
       games := [played 3 ("Alice", "Charlie") ("Bob", "David") 19 17;
                 played 4 ("Eve", "Grace") ("Frank", "Henry") 21 14] |};
    {| roundNumber := 3;
       games := [played 5 ("Alice", "David") ("Bob", "Charlie") 25 23;
                 unplayed 6 ("Eve", "Henry") ("Frank", "Ivy")] |} ].

(** ** Side bets *)

(** One step of a player's total: a stake gained or a stake lost. *)
Inductive booking := Gain (stake : float) | Loss (stake : float).

(** The places a player fills on a side. *)
Definition seats (p : string) (team : string * string) : list string :=
  filter (λ q, q = p) (members team).

(** The steps one bet makes for a player, in the order the code makes them:
    the stake is gained for each place on the winning side, then lost for
    each place on the losing side. *)
Definition bookings_of (p : string) (b : SideBet.t) : list booking :=
  match SideBet.winner b with
  | Some SideBet.One =>
      ((λ _, Gain (SideBet.amount b)) <$> seats p (SideBet.team1 b))
      ++ ((λ _, Loss (SideBet.amount b)) <$> seats p (SideBet.team2 b))
  | Some SideBet.Two =>
      ((λ _, Gain (SideBet.amount b)) <$> seats p (SideBet.team2 b))
      ++ ((λ _, Loss (SideBet.amount b)) <$> seats p (SideBet.team1 b))
  | None => []
  end.

(** The running total of a player in double arithmetic: it starts from 0
    when there is none yet, or when it is 0 or NaN. *)
Definition book (total : option float) (e : booking) : option float :=
  let start := from_option Js.or_zero 0%float total in
  Some (match e with
        | Gain stake => start + stake
        | Loss stake => start - stake
        end)%float.

(** The entry of any name after one step. *)
Definition entry_after (p : string) (current : option Js.value) (e : booking)
  : option Js.value :=
  if decide (p = "__proto__") then current
  else
    let found :=
      match current with
      | Some v => Js.Own v
      | None => if decide (p ∈ Js.Object_prototype) then Js.Inherited
                else Js.Undefined
      end in
    Some (match e with
          | Gain stake => Js.or_zero_plus p found stake
          | Loss stake => Js.or_zero_minus found stake
          end).

Definition settled (b : SideBet.t) : Prop := is_Some (SideBet.winner b).

#[global] Instance settled_dec b : Decision (settled b).
Proof. unfold settled. apply _. Defined.

(** The double nearest to [n / 10]. *)
Definition tenths (n : Z) : float :=
  (PrimFloat.of_uint63 (Uint63.of_Z n) / 10)%float.

Definition bet (n : nat) (t1 t2 : string * string) (stake : float)
    (w : option SideBet.side) : SideBet.t :=
  {| SideBet.id := n; SideBet.team1 := t1; SideBet.team2 := t2;
     SideBet.amount := stake; SideBet.winner := w |}.

Definition sample_bets : list SideBet.t :=
  [ bet 1 ("A", "B") ("C", "D") 5%float (Some SideBet.One);
    bet 2 ("A", "C") ("E", "F") 3%float (Some SideBet.Two);
    bet 3 ("A", "G") ("B", "H") 7%float None ].

(** Three bets that "A" wins, with stakes of 0.1, 0.2 and 0.3. *)
Definition small_bets : list SideBet.t :=
  [ bet 1 ("A", "B") ("C", "D") (tenths 1) (Some SideBet.One);
    bet 2 ("A", "B") ("C", "D") (tenths 2) (Some SideBet.One);
    bet 3 ("A", "B") ("C", "D") (tenths 3) (Some SideBet.One) ].

(** "A" wins 2^53, wins 1 and loses 2^53. *)
Definition large_bets : list SideBet.t :=
  [ bet 1 ("A", "B") ("C", "D") 9007199254740992%float (Some SideBet.One);
    bet 2 ("A", "B") ("C", "D") 1%float (Some SideBet.One);
    bet 3 ("A", "B") ("C", "D") 9007199254740992%float (Some SideBet.Two) ].

(** A bet on a player called "constructor". *)
Definition inherited_bets : list SideBet.t :=
  [ bet 1 ("constructor", "B") ("C", "D") 5%float (Some SideBet.One) ].

(** ** Team ranking *)

(** The keys a game hands to the team map, in the order it does. *)
Definition team_keys_of (g : Game) : list string :=
  if decide (scored g) then [team_key (team1 g); team_key (team2 g)] else [].

(** [a] ranks at least as high as [b]: more wins, or as many wins and at
    least the point differential. *)
Definition ranks_before (a b : TeamStats.t) : Prop :=
  (TeamStats.wins b < TeamStats.wins a)%Z ∨
  (TeamStats.wins a = TeamStats.wins b ∧
   (TeamStats.pointDifferential b <= TeamStats.pointDifferential a)%Z).

(** Two teams are level on both ranking keys. *)
Definition level (w d : Z) (t : TeamStats.t) : Prop :=
  TeamStats.wins t = w ∧ TeamStats.pointDifferential t = d.

#[global] Instance level_dec w d t : Decision (level w d t).
Proof. unfold level. apply _. Defined.

Definition differential_ok (t : TeamStats.t) : Prop :=
  TeamStats.pointDifferential t =
  (TeamStats.pointsScored t - TeamStats.pointsConceded t)%Z.

(** Invariants of the team map while it is folded. *)
Definition differentials_ok (m : Js.props TeamStats.t) : Prop :=
  ∀ k t, Js.get m k = Some t → differential_ok t.

Definition named_by_key (m : Js.props TeamStats.t) : Prop :=
  ∀ k t, Js.get m k = Some t → TeamStats.teamName t = k.

(** ** Payouts *)

(** The prize of the rank with index [i] (0 is first place), 0 from the
    fourth place on. *)
Definition prize_at (i : nat) : Z := default 0%Z (prizes !! i).

(** A game between players whose names are numerals, level at 21 all. *)
Definition numbered_rounds : list Round :=
  [ {| roundNumber := 1;
       games := [played 1 ("2", "1") ("b", "a") 21 21] |} ].

(** A schedule on which nothing has been played yet. *)
Definition unplayed_rounds : list Round :=
  [ {| roundNumber := 1;
       games := [unplayed 1 ("Alice", "Bob") ("Charlie", "David");
                 unplayed 2 ("Eve", "Frank") ("Grace", "Henry")] |} ].

(** ** Generators *)

(** A source of random numbers that always answers one half. *)
Definition halves : nat → Q := λ _, 1 # 2.

Definition eight_names : list string :=
  ["Ann"; "Ben"; "Cat"; "Dan"; "Eli"; "Fay"; "Gus"; "Hal"].

Definition twelve_names : list string :=
  ["Ann"; "Ben"; "Cat"; "Dan"; "Eli"; "Fay";
   "Gus"; "Hal"; "Ida"; "Jon"; "Kim"; "Lou"].

(** Six teams that pair the twelve names from the outside in. *)
Definition six_teams : list (string * string) :=
  [("Ann", "Lou"); ("Ben", "Kim"); ("Cat", "Jon");
   ("Dan", "Ida"); ("Eli", "Hal"); ("Fay", "Gus")].

(** ** Designs *)

(** The properties of a schedule are stated on the sides of its games, for
    players or teams of any type, so that they can be checked on the
    positions of a template and carried over to the names put there. *)
Section Design.
Context {A : Type}.

(** Two pairs with the same two members, in either order. *)
Definition same_pair (a b : A * A) : Prop := a = b ∨ a = (b.2, b.1).

(** [p] and [q] are partners on one of the two sides. *)
Definition partners_in (p q : A) (sd : (A * A) * (A * A)) : Prop :=
  same_pair sd.1 (p, q) ∨ same_pair sd.2 (p, q).

(** [p] fills one of the four places. *)
Definition plays_in (p : A) (sd : (A * A) * (A * A)) : Prop :=
  p = sd.1.1 ∨ p = sd.1.2 ∨ p = sd.2.1 ∨ p = sd.2.2.

(** For teams identified up to [R]: the team [t] is one of the two
    opponents, and the teams [t] and [u] are the two opponents. *)
Definition involves_by (R : A → A → Prop) (t : A) (m : A * A) : Prop :=
  R m.1 t ∨ R m.2 t.

Definition meets_by (R : A → A → Prop) (t u : A) (m : A * A) : Prop :=
  (R m.1 t ∧ R m.2 u) ∨ (R m.1 u ∧ R m.2 t).

Definition rename {B} (f : A → B) (sd : (A * A) * (A * A))
  : (B * B) * (B * B) :=
  ((f sd.1.1, f sd.1.2), (f sd.2.1, f sd.2.2)).

Context `{EqDecision A}.

#[global] Instance same_pair_dec : RelDecision same_pair.
Proof. intros a b. unfold same_pair. apply _. Defined.

#[global] Instance partners_in_dec p q sd : Decision (partners_in p q sd).
Proof. unfold partners_in. apply _. Defined.

#[global] Instance plays_in_dec p sd : Decision (plays_in p sd).
Proof. unfold plays_in. apply _. Defined.

#[global] Instance involves_by_dec R `{!RelDecision R} t m :
  Decision (involves_by R t m).
Proof. unfold involves_by. apply _. Defined.

#[global] Instance meets_by_dec R `{!RelDecision R} t u m :
  Decision (meets_by R t u m).
Proof. unfold meets_by. apply _. Defined.
End Design.

Definition sides (g : Game) : (string * string) * (string * string) :=
  (team1 g, team2 g).

(** The sides of the games, round by round. *)
Definition sides_by_round (rounds : list Round)
  : list (list ((string * string) * (string * string))) :=
  (λ r, sides <$> games r) <$> rounds.

(** 8-player mode: [p] and [q] are partners in the game; [p] plays in it. *)
Definition partnered (p q : string) (g : Game) : Prop :=
  partners_in p q (sides g).

Definition plays (p : string) (g : Game) : Prop := plays_in p (sides g).

#[global] Instance partnered_dec p q g : Decision (partnered p q g).
Proof. unfold partnered. apply _. Defined.

#[global] Instance plays_dec p g : Decision (plays p g).
Proof. unfold plays. apply _. Defined.

(** 12-player mode: a team is its unordered pair of players. *)
Definition same_team (t u : string * string) : Prop := same_pair t u.

Definition involves (t : string * string) (g : Game) : Prop :=
  involves_by same_team t (sides g).

Definition meets (t u : string * string) (g : Game) : Prop :=
  meets_by same_team t u (sides g).

#[global] Instance same_team_dec : RelDecision same_team.
Proof. unfold same_team. apply _. Defined.

#[global] Instance involves_dec t g : Decision (involves t g).
Proof. unfold involves. apply _. Defined.

#[global] Instance meets_dec t u g : Decision (meets t u g).
Proof. unfold meets. apply _. Defined.

(** The positions a template entry puts on the two sides. *)
Definition index_sides (gameIndices : list nat) : (nat * nat) * (nat * nat) :=
  ((gameIndices !!! 0, gameIndices !!! 1),
   (gameIndices !!! 2, gameIndices !!! 3)).

(** The template as sides of positions, round by round. *)
Definition schedule_sides : list (list ((nat * nat) * (nat * nat))) :=
  (λ roundGames : list (list nat), index_sides <$> roundGames) <$> schedule.

(** The team positions the rotation opposes, round by round, as
    [rotation_sides] below reads them off the generator. *)
Definition rotation : list (list (nat * nat)) :=
  [ [(0, 1); (2, 5); (3, 4)];
    [(0, 5); (1, 4); (2, 3)];
    [(0, 4); (5, 3); (1, 2)];
    [(0, 3); (4, 2); (5, 1)];
    [(0, 2); (3, 1); (4, 5)] ].

(** The four positions of a template entry, resp. the two of an opposition,
    are below [n]. *)
Definition within (n : nat) (sd : (nat * nat) * (nat * nat)) : Prop :=
  sd.1.1 < n ∧ sd.1.2 < n ∧ sd.2.1 < n ∧ sd.2.2 < n.

Definition opposed_within (n : nat) (m : nat * nat) : Prop := m.1 < n ∧ m.2 < n.

#[global] Instance within_dec n sd : Decision (within n sd).
Proof. unfold within. apply _. Defined.

#[global] Instance opposed_within_dec n m : Decision (opposed_within n m).
Proof. unfold opposed_within. apply _. Defined.

(** The wins and losses recorded for a player, 0 without an entry, and what
    one game adds to them: the first side wins when its score is strictly
    greater, the second side wins otherwise. *)
Definition wins_of (stats : Js.props PlayerStats) (p : string) : Z :=
  from_option wins 0%Z (Js.get stats p).

Definition losses_of (stats : Js.props PlayerStats) (p : string) : Z :=
  from_option losses 0%Z (Js.get stats p).

Definition wins_in (p : string) (g : Game) : Z :=
  match team1Score g, team2Score g with
  | Some s1, Some s2 =>
      if (s1 >? s2)%Z then places p (team1 g) else places p (team2 g)
  | _, _ => 0%Z
  end.

Definition losses_in (p : string) (g : Game) : Z :=
  match team1Score g, team2Score g with
  | Some s1, Some s2 =>
      if (s1 >? s2)%Z then places p (team2 g) else places p (team1 g)
  | _, _ => 0%Z
  end.

(** ** Shuffle *)

(** The loop of the shuffle with its array accesses checked: [None] as soon
    as an index falls outside the array. *)
Fixpoint shuffle_checked {A} (random : nat → Q) (k i : nat) (shuffled : list A)
  : option (list A) :=
  match i with
  | 0 => Some shuffled
  | S i' =>
      if decide (i < length shuffled ∧ draw random k i < length shuffled)
      then shuffle_checked random (S k) i' (Js.swap shuffled i (draw random k i))
      else None
  end.

(** ** Consistency of the statistics records *)

(** What the fields of a player's record say about each other. *)
Definition consistent (s : PlayerStats) : Prop :=
  totalPoints s = sumZ (gameScores s) ∧
  gamesPlayed s = Z.of_nat (length (gameScores s)) ∧
  (wins s + losses s)%Z = gamesPlayed s ∧
  pointsLost s = (MAX_POINTS_PER_GAME * gamesPlayed s - totalPoints s)%Z ∧
  (0 <= wins s)%Z ∧ (0 <= losses s)%Z.

Definition all_consistent (stats : Js.props PlayerStats) : Prop :=
  ∀ p s, Js.get stats p = Some s → consistent s.

(** The scores a game adds to the history of a player: the score of a side
    for each place the player fills on it, the first side first. *)
Definition scores_in (p : string) (g : Game) : list Z :=
  match team1Score g, team2Score g with
  | Some s1, Some s2 =>
      ((λ _, s1) <$> filter (λ q, q = p) (members (team1 g)))
      ++ ((λ _, s2) <$> filter (λ q, q = p) (members (team2 g)))
  | _, _ => []
  end.

Definition scores_of (stats : Js.props PlayerStats) (p : string) : list Z :=
  from_option gameScores [] (Js.get stats p).

(** What the fields of a team's record say about each other; a level game
    is neither a win nor a loss, so wins and losses may fall short of the
    games played. *)
Definition team_consistent (t : TeamStats.t) : Prop :=
  TeamStats.pointsScored t = sumZ (TeamStats.gameScores t) ∧
  TeamStats.pointsLost t
    = (MAX_POINTS * Z.of_nat (length (TeamStats.gameScores t))
       - TeamStats.pointsScored t)%Z ∧
  (0 <= TeamStats.wins t)%Z ∧ (0 <= TeamStats.losses t)%Z ∧
  (TeamStats.wins t + TeamStats.losses t
     <= Z.of_nat (length (TeamStats.gameScores t)))%Z.

Definition all_team_consistent (m : Js.props TeamStats.t) : Prop :=
  ∀ k t, Js.get m k = Some t → team_consistent t.

(** A field summed over all teams. *)
Definition total (field : TeamStats.t → Z) (m : Js.props TeamStats.t) : Z :=
  sumZ (field <$> Js.values m).

Definition balanced (m : Js.props TeamStats.t) : Prop :=
  total TeamStats.wins m = total TeamStats.losses m ∧
  total TeamStats.pointsScored m = total TeamStats.pointsConceded m.

(** ** Payouts of the 12-player mode *)

(** The prize of each player of the team at rank index [i], 0 from the
    fourth team on. *)
Definition team_prize_at (i : nat) : Z := default 0%Z (teamPrizes !! i).

(** The players of the ranked teams, each with the rank index of the team,
    in the order the payout loops visit them. *)
Definition ranked_members (teamStats : list TeamStats.t) : list (string * nat) :=
  concat (imap (λ i team, (λ player, (player, i))
                            <$> members (TeamStats.players team)) teamStats).

(** One round of the 12-player mode, played by [six_teams]. *)
Definition sample_team_rounds : list Round :=
  [ {| roundNumber := 1;
       games := [played 1 ("Ann", "Lou") ("Ben", "Kim") 21 12;
                 played 2 ("Cat", "Jon") ("Fay", "Gus") 21 19;
                 played 3 ("Dan", "Ida") ("Eli", "Hal") 15 21] |} ].

(** ** Recording scores *)

(** What [setGameScore] does to one game. *)
Definition score_game (gameId : nat) (s1 s2 : Z) (game : Game) : Game :=
  if decide (id game = gameId) then
    {| id := id game; team1 := team1 game; team2 := team2 game;
       team1Score := Some s1; team2Score := Some s2 |}
  else game.

(** A sequence of score entries [(gameId, team1Score, team2Score)], applied
    in order. *)
Definition record_scores (entries : list (nat * Z * Z)) (rounds : list Round)
  : list Round :=
  foldl (λ rounds e, setGameScore e.1.1 e.1.2 e.2 rounds) rounds entries.

(** The fixture of a schedule: round numbers, and ids and sides of the games
    of each round. *)
Definition fixture (rounds : list Round)
  : list (nat * list (nat * ((string * string) * (string * string)))) :=
  (λ r, (roundNumber r, (λ g, (id g, sides g)) <$> games r)) <$> rounds.

(** ** A whole tournament *)

(** How many of the four places of a game [p] fills. *)
Definition places_in {A} `{EqDecision A} (p : A) (sd : (A * A) * (A * A)) : nat :=
  length (filter (λ q, q = p) [sd.1.1; sd.1.2; sd.2.1; sd.2.2]).

(** The schedule generated for [eight_names] with the random source
    [halves], and a score for each of its 14 games. *)
Definition eight_rounds : list Round :=
  match generateRoundRobinSchedule halves eight_names with
  | inr rounds => rounds
  | inl _ => []
  end.

Definition fourteen_scores : list (nat * Z * Z) :=
  (λ n, (n, 21%Z, Z.of_nat n)) <$> seq 1 14.

(** ** Team keys *)

(** The name contains no ampersand. *)
Fixpoint no_ampersand (s : string) : Prop :=
  match s with
  | EmptyString => True
  | String c s' => c ≠ "&"%char ∧ no_ampersand s'
  end.

#[global] Instance no_ampersand_dec s : Decision (no_ampersand s).
Proof. induction s; simpl; apply _. Defined.

Definition plain_team (t : string * string) : Prop :=
  no_ampersand t.1 ∧ no_ampersand t.2.

(** Every record of the team map holds a side from [T] that has the key of
    the record. *)
Definition holds_teams (T : list (string * string))
    (m : Js.props TeamStats.t) : Prop :=
  ∀ k t, Js.get m k = Some t →
         team_key (TeamStats.players t) = k ∧ TeamStats.players t ∈ T.

(** The schedule generated for [twelve_names] paired as [six_teams], and a
    score for each of its 15 games. *)
Definition twelve_rounds : list Round :=
  match generate12PlayerSchedule halves twelve_names (Some six_teams) with
  | inr rounds => rounds
  | inl _ => []
  end.

Definition fifteen_scores : list (nat * Z * Z) :=
  (λ n, (n, 21%Z, Z.of_nat n)) <$> seq 1 15.

(** ** Moving between rounds *)

Inductive move := Next | Previous.

Definition go (rounds : list Round) (currentRound : Z) (m : move) : Z :=
  match m with
  | Next => goToNextRound rounds currentRound
  | Previous => goToPreviousRound currentRound
  end.

(** The third of the [sample_bets], not settled yet. *)
Definition open_bet : SideBet.t :=
  {| SideBet.id := 3; SideBet.team1 := ("A", "G"); SideBet.team2 := ("B", "H");
     SideBet.amount := 7%float; SideBet.winner := None |}.

(** ** The states of the custom pairing form *)

(** The names that sit on some seat. *)
Definition seated (customTeams : list (string * string)) : list string :=
  customTeams ≫= λ team, filter truthy [team.1; team.2].

(** The lists of teams that the form can hold: it starts with no team; a
    select of a shown team takes one of its options, a team is added, or a
    shown team is removed. *)
Inductive form_reaches (playerNames : list string)
  : list (string * string) → Prop :=
| form_start : form_reaches playerNames []
| form_select customTeams teamIndex playerIndex value newTeams :
    form_reaches playerNames customTeams →
    teamIndex < length customTeams →
    value ∈ options playerNames customTeams teamIndex playerIndex →
    handleTeamChange customTeams teamIndex playerIndex value = Some newTeams →
    form_reaches playerNames newTeams
| form_add customTeams :
    form_reaches playerNames customTeams →
    form_reaches playerNames (addTeam customTeams)
| form_remove customTeams teamIndex :
    form_reaches playerNames customTeams →
    teamIndex < length customTeams →
    form_reaches playerNames (removeTeam customTeams teamIndex).

(** * Properties *)

(** ** The association lists behind objects and maps *)

Section JsProps.
Context {V : Type}.
Implicit Types (o : Js.props V) (k : string) (v : V).

Lemma get_set_eq o k v : Js.get (Js.set o k v) k = Some v.
Proof.
  induction o as [|[k' v'] o IH]; simpl.
  - by rewrite decide_True.
  - destruct (decide (k' = k)) as [->|Hne]; simpl.
    + by rewrite decide_True.
    + by rewrite decide_False.
Qed.

Lemma get_set_ne o k k' v : k ≠ k' → Js.get (Js.set o k v) k' = Js.get o k'.
Proof.
  intros Hne. induction o as [|[k0 v0] o IH]; simpl.
  - by rewrite decide_False.
  - destruct (decide (k0 = k)) as [->|Hne0]; simpl.
    + by rewrite !decide_False.
    + by rewrite IH.
Qed.

Lemma get_None_keys o k : Js.get o k = None ↔ k ∉ Js.keys o.
Proof.
  unfold Js.keys. induction o as [|[k' v'] o IH]; simpl.
  - split; [intros _; apply not_elem_of_nil | done].
  - rewrite not_elem_of_cons. destruct (decide (k' = k)) as [->|Hne].
    + split; [done | by intros [? _]].
    + rewrite IH. intuition congruence.
Qed.

Lemma get_Some_elem o k v : Js.get o k = Some v → (k, v) ∈ o.
Proof.
  induction o as [|[k' v'] o IH]; simpl; [done|].
  destruct (decide (k' = k)) as [->|Hne].
  - intros [= ->]. apply list_elem_of_here.
  - intros H. apply list_elem_of_further. auto.
Qed.

Lemma elem_get_Some o k v :
  NoDup (Js.keys o) → (k, v) ∈ o → Js.get o k = Some v.
Proof.
  unfold Js.keys. induction o as [|[k' v'] o IH]; simpl.
  - intros _ H. by apply elem_of_nil in H.
  - rewrite NoDup_cons. intros [Hnin Hnd] [Heq|Hin]%elem_of_cons.
    + injection Heq as -> ->. by rewrite decide_True.
    + rewrite decide_False; [by apply IH|].
      intros ->. apply Hnin. apply list_elem_of_fmap. by exists (k, v).
Qed.

(** Writing a property keeps the position of an existing key and appends a
    new one. *)
Lemma keys_set o k v :
  Js.keys (Js.set o k v) =
    if decide (k ∈ Js.keys o) then Js.keys o else (Js.keys o ++ [k])%list.
Proof.
  unfold Js.keys. induction o as [|[k' v'] o IH].
  - destruct (decide (k ∈ [].*1)) as [Hin|_]; [|done].
    by apply elem_of_nil in Hin.
  - cbn [Js.set]. destruct (decide (k' = k)) as [->|Hne].
    + destruct (decide (k ∈ ((k, v') :: o).*1)) as [_|Hnin]; [done|].
      exfalso. apply Hnin, list_elem_of_here.
    + rewrite fmap_cons, IH. cbn [fst].
      destruct (decide (k ∈ o.*1)) as [Hin|Hnin];
        destruct (decide (k ∈ ((k', v') :: o).*1)) as [Hin'|Hnin'];
        try done.
      * exfalso. apply Hnin'. by apply list_elem_of_further.
      * rewrite fmap_cons in Hin'. apply elem_of_cons in Hin'.
        cbn [fst] in Hin'. destruct Hin' as [->|?]; [by destruct Hne | done].
Qed.

Lemma keys_set_NoDup o k v : NoDup (Js.keys o) → NoDup (Js.keys (Js.set o k v)).
Proof.
  intros Hnd. rewrite keys_set. case_decide; [done|].
  apply NoDup_app. split_and!; [done | | apply NoDup_singleton].
  intros x Hx Hk%list_elem_of_singleton. by subst.
Qed.

Lemma keys_update o k f : Js.keys (Js.update o k f) = Js.keys o.
Proof.
  unfold Js.update. destruct (Js.get o k) as [v|] eqn:Hget; [|done].
  rewrite keys_set. case_decide as Hin; [done|].
  apply get_None_keys in Hin. congruence.
Qed.

Lemma get_update o k k' f :
  Js.get (Js.update o k f) k' =
    if decide (k = k') then f <$> Js.get o k' else Js.get o k'.
Proof.
  unfold Js.update. destruct (decide (k = k')) as [->|Hne].
  - destruct (Js.get o k') as [v|] eqn:Hget; simpl.
    + apply get_set_eq.
    + done.
  - destruct (Js.get o k) as [v|]; [by apply get_set_ne | done].
Qed.
End JsProps.

(** ** The stable sort *)

Section Sort.
Context {A : Type} (compare : A → A → Z).
Implicit Types (x y : A) (l : list A).

Lemma insert_perm x l : Js.insert compare x l ≡ₚ x :: l.
Proof.
  induction l as [|y l IH]; simpl; [done|].
  destruct (compare x y <=? 0)%Z; [done|].
  rewrite IH. apply Permutation_swap.
Qed.

Lemma sort_perm l : Js.sort compare l ≡ₚ l.
Proof.
  induction l as [|x l IH]; simpl; [done|].
  by rewrite insert_perm, IH.
Qed.

Lemma sort_length l : length (Js.sort compare l) = length l.
Proof. by rewrite sort_perm. Qed.

(** Stability: elements that the comparator does not separate keep their
    relative order. *)
Lemma insert_filter (P : A → Prop) `{!∀ x, Decision (P x)} x l :
  (∀ y, P x → P y → (compare x y <= 0)%Z) →
  filter P (Js.insert compare x l) = filter P (x :: l).
Proof.
  intros Hle. induction l as [|y l IH]; simpl; [done|].
  destruct (compare x y <=? 0)%Z eqn:Hc; [done|].
  apply Z.leb_gt in Hc.
  rewrite !filter_cons in *.
  destruct (decide (P y)) as [Hy|Hy]; destruct (decide (P x)) as [Hx|Hx];
    try (specialize (Hle y Hx Hy); lia); by rewrite IH.
Qed.

Lemma sort_filter (P : A → Prop) `{!∀ x, Decision (P x)} l :
  (∀ x y, P x → P y → (compare x y <= 0)%Z) →
  filter P (Js.sort compare l) = filter P l.
Proof.
  intros Hle. induction l as [|x l IH]; simpl; [done|].
  rewrite insert_filter by eauto.
  by rewrite !filter_cons, IH.
Qed.

(** Sortedness, for a comparator that is total and transitive. *)
Hypothesis compare_total : ∀ x y, (compare x y <= 0 ∨ compare y x <= 0)%Z.
Hypothesis compare_trans :
  ∀ x y z, (compare x y <= 0 → compare y z <= 0 → compare x z <= 0)%Z.

Lemma insert_sorted x l :
  StronglySorted (λ a b, (compare a b <= 0)%Z) l →
  StronglySorted (λ a b, (compare a b <= 0)%Z) (Js.insert compare x l).
Proof.
  induction 1 as [|y l Hs IH Hy]; simpl.
  - repeat constructor.
  - destruct (compare x y <=? 0)%Z eqn:Hc.
    + apply Z.leb_le in Hc. constructor; [by constructor|].
      constructor; [done|].
      eapply Forall_impl; [exact Hy|]. intros z Hz. eauto.
    + apply Z.leb_gt in Hc. constructor; [done|].
      rewrite insert_perm. constructor; [|done].
      destruct (compare_total x y); [lia | done].
Qed.

Lemma sort_sorted l :
  StronglySorted (λ a b, (compare a b <= 0)%Z) (Js.sort compare l).
Proof.
  induction l as [|x l IH]; simpl; [constructor|]. by apply insert_sorted.
Qed.
End Sort.

(** ** Shuffle *)

Section ShuffleProps.
Context {A : Type}.
Variable random : nat → Q.
Implicit Types (a : list A).

(** Under the contract of [Math.random] the drawn index lies in [0, i]:
    every swap of the shuffle is inside the array. *)
Lemma draw_le k i :
  (0 <= random k ∧ random k < 1)%Q → (draw random k i ≤ i)%nat.
Proof.
  intros [Hge Hlt]. unfold draw.
  set (n := Z.of_nat (i + 1)).
  assert (Hn : (0 < inject_Z n)%Q).
  { change 0%Q with (inject_Z 0). rewrite <- Zlt_Qlt. lia. }
  assert (Qfloor (random k * inject_Z n) < n)%Z as Hfl.
  { rewrite Zlt_Qlt. eapply Qle_lt_trans; [apply Qfloor_le|].
    rewrite <- (Qmult_1_l (inject_Z n)) at 2.
    by apply Qmult_lt_compat_r. }
  lia.
Qed.

Lemma swap_perm a i j : Js.swap a i j ≡ₚ a.
Proof.
  unfold Js.swap.
  destruct (a !! i) as [x|] eqn:Hi; [|done].
  destruct (a !! j) as [y|] eqn:Hj; [|done].
  destruct (decide (i = j)) as [->|Hne].
  - assert (x = y) as -> by congruence.
    by rewrite !list_insert_id by
      (done || by rewrite list_insert_id).
  - symmetry. apply Permutation_inj. split.
    { by rewrite !length_insert. }
    exists (λ n, if decide (n = i) then j else if decide (n = j) then i else n).
    split.
    + intros n m. repeat case_decide; congruence.
    + intros n. repeat case_decide; subst.
      * rewrite list_lookup_insert_eq; [done|].
        rewrite length_insert. by eapply lookup_lt_Some.
      * rewrite list_lookup_insert_ne, list_lookup_insert_eq by done || by eapply lookup_lt_Some.
        done.
      * by rewrite !list_lookup_insert_ne.
Qed.

Lemma shuffle_loop_perm k i a : shuffle_loop random k i a ≡ₚ a.
Proof.
  revert k a. induction i as [|i IH]; intros k a; simpl; [done|].
  by rewrite IH, swap_perm.
Qed.

Lemma shuffleArray_perm a : shuffleArray random a ≡ₚ a.
Proof. apply shuffle_loop_perm. Qed.

(** Under the contract of [Math.random] no access of the shuffle leaves the
    array. *)
Lemma shuffle_stays_inside k i a :
  (∀ k, (0 <= random k ∧ random k < 1)%Q) → i < length a →
  shuffle_checked random k i a = Some (shuffle_loop random k i a).
Proof.
  intros Hrandom. revert k a.
  induction i as [|i IH]; intros k a Hi; simpl; [done|].
  pose proof (draw_le k (S i) (Hrandom k)).
  rewrite decide_True by lia.
  apply IH. rewrite swap_perm. lia.
Qed.

Lemma shuffleArray_length a : length (shuffleArray random a) = length a.
Proof. by rewrite shuffleArray_perm. Qed.

Lemma shuffleArray_NoDup a : NoDup a → NoDup (shuffleArray random a).
Proof. by rewrite shuffleArray_perm. Qed.
End ShuffleProps.

(** ** Sums *)

Lemma sumZ_cons x l : sumZ (x :: l) = (x + sumZ l)%Z.
Proof. reflexivity. Qed.

Lemma sumZ_app l k : sumZ (l ++ k) = (sumZ l + sumZ k)%Z.
Proof.
  induction l as [|x l IH]; [done|].
  rewrite <- app_comm_cons, !sumZ_cons, IH. lia.
Qed.

Lemma sumZ_perm l k : l ≡ₚ k → sumZ l = sumZ k.
Proof.
  induction 1 as [|x l k _ IH|x y l|l k m _ IH1 _ IH2];
    rewrite ?sumZ_cons; lia.
Qed.

(** ** Player statistics *)

Lemma booked_stats_fold rounds :
  booked_stats rounds = foldl book_game [] (all_games rounds).
Proof.
  unfold booked_stats, all_games.
  generalize (@nil (string * PlayerStats)).
  induction rounds as [|r rounds IH]; intros stats; simpl; [done|].
  by rewrite foldl_app, IH.
Qed.

Lemma book_game_unscored stats g : ¬ scored g → book_game stats g = stats.
Proof.
  unfold book_game, scored.
  destruct (team1Score g), (team2Score g); try done.
  intros []. split; by eexists.
Qed.

Lemma foldl_book_game_scored stats gs :
  foldl book_game stats (filter scored gs) = foldl book_game stats gs.
Proof.
  revert stats. induction gs as [|g gs IH]; intros stats; [done|].
  rewrite filter_cons. destruct (decide (scored g)) as [Hs|Hs]; simpl.
  - apply IH.
  - by rewrite IH, book_game_unscored.
Qed.

(** Presence of an entry. *)
Lemma get_book_player_None score won stats q p :
  Js.get (book_player score won stats q) p = None ↔
  Js.get stats p = None ∧ q ≠ p.
Proof.
  unfold book_player. destruct (decide (q = p)) as [->|Hne].
  - rewrite get_set_eq. intuition congruence.
  - rewrite get_set_ne by done. tauto.
Qed.

Lemma get_book_game_None stats g p :
  Js.get (book_game stats g) p = None ↔
  Js.get stats p = None ∧ ¬ plays_scored p g.
Proof.
  unfold book_game, plays_scored, scored, members.
  destruct (team1Score g) as [s1|], (team2Score g) as [s2|]; simpl;
    rewrite ?get_book_player_None, ?is_Some_alt;
    rewrite ?elem_of_cons, ?elem_of_nil; intuition congruence.
Qed.

Lemma get_foldl_book_game_None stats gs p :
  Js.get (foldl book_game stats gs) p = None ↔
  Js.get stats p = None ∧ Forall (λ g, ¬ plays_scored p g) gs.
Proof.
  revert stats. induction gs as [|g gs IH]; intros stats; simpl.
  - split; [by intros ? | by intros [? _]].
  - rewrite IH, get_book_game_None, Forall_cons. tauto.
Qed.

(** Points lost. *)
Lemma lost_of_book_player score won stats q p :
  lost_of (book_player score won stats q) p =
  (lost_of stats p + if decide (q = p) then 21 - score else 0)%Z.
Proof.
  unfold lost_of, book_player. destruct (decide (q = p)) as [->|Hne].
  - rewrite get_set_eq. simpl. by destruct (Js.get stats p).
  - rewrite get_set_ne by done. lia.
Qed.

Lemma lost_of_book_game stats g p :
  lost_of (book_game stats g) p = (lost_of stats p + points_lost_in p g)%Z.
Proof.
  unfold book_game, points_lost_in, places, members.
  destruct (team1Score g) as [s1|], (team2Score g) as [s2|]; try lia.
  simpl. rewrite !lost_of_book_player, !filter_cons, !filter_nil.
  repeat case_decide; simpl; lia.
Qed.

Lemma lost_of_foldl_book_game stats gs p :
  lost_of (foldl book_game stats gs) p =
  (lost_of stats p + sumZ (points_lost_in p <$> gs))%Z.
Proof.
  revert stats. induction gs as [|g gs IH]; intros stats.
  - simpl. lia.
  - cbn [foldl]. rewrite IH, lost_of_book_game, fmap_cons, sumZ_cons. lia.
Qed.

(** Wins and losses. *)
Lemma wins_losses_of_book_player score won stats q p :
  wins_of (book_player score won stats q) p =
    (wins_of stats p + if decide (q = p) then (if won then 1 else 0) else 0)%Z ∧
  losses_of (book_player score won stats q) p =
    (losses_of stats p + if decide (q = p) then (if won then 0 else 1) else 0)%Z.
Proof.
  unfold wins_of, losses_of, book_player.
  destruct (decide (q = p)) as [->|Hne].
  - rewrite get_set_eq. simpl. destruct (Js.get stats p), won; simpl; lia.
  - rewrite get_set_ne by done. lia.
Qed.

Lemma wins_losses_of_book_game stats g p :
  wins_of (book_game stats g) p = (wins_of stats p + wins_in p g)%Z ∧
  losses_of (book_game stats g) p = (losses_of stats p + losses_in p g)%Z.
Proof.
  unfold book_game, wins_in, losses_in, places, members.
  destruct (team1Score g) as [s1|], (team2Score g) as [s2|]; try lia.
  cbn [foldl].
  repeat match goal with
  | |- context [book_player ?s ?w ?st ?q] =>
      destruct (wins_losses_of_book_player s w st q p) as [-> ->]
  end.
  rewrite !filter_cons, !filter_nil.
  destruct (s1 >? s2)%Z; repeat case_decide; simpl; lia.
Qed.

(** What the fold books as wins and losses: a level game is a loss for the
    first side and a win for the second. *)
Lemma wins_and_losses_as_booked rounds p :
  wins_of (booked_stats rounds) p
    = sumZ (wins_in p <$> all_games rounds) ∧
  losses_of (booked_stats rounds) p
    = sumZ (losses_in p <$> all_games rounds).
Proof.
  rewrite booked_stats_fold.
  assert (∀ stats,
            wins_of (foldl book_game stats (all_games rounds)) p
              = (wins_of stats p + sumZ (wins_in p <$> all_games rounds))%Z ∧
            losses_of (foldl book_game stats (all_games rounds)) p
              = (losses_of stats p + sumZ (losses_in p <$> all_games rounds))%Z)
    as Hgen.
  { induction (all_games rounds) as [|g gs IH]; intros stats.
    - simpl. lia.
    - cbn [foldl]. destruct (IH (book_game stats g)) as [-> ->].
      destruct (wins_losses_of_book_game stats g p) as [-> ->].
      rewrite !fmap_cons, !sumZ_cons. lia. }
  destruct (Hgen []) as [-> ->]. unfold wins_of, losses_of. simpl. lia.
Qed.

(** Every entry has at least one game behind it. *)
Lemma played_book_player score won stats q :
  played_somewhere stats → played_somewhere (book_player score won stats q).
Proof.
  intros Hinv p s. unfold book_player.
  destruct (decide (q = p)) as [->|Hne].
  - rewrite get_set_eq. intros [= <-]. simpl.
    destruct (Js.get stats p) as [s0|] eqn:Hs0; simpl; [|lia].
    specialize (Hinv _ _ Hs0). lia.
  - rewrite get_set_ne by done. apply Hinv.
Qed.

Lemma played_book_game stats g :
  played_somewhere stats → played_somewhere (book_game stats g).
Proof.
  intros Hinv. unfold book_game.
  destruct (team1Score g), (team2Score g); try done.
  simpl. by repeat apply played_book_player.
Qed.

Lemma played_foldl_book_game stats gs :
  played_somewhere stats → played_somewhere (foldl book_game stats gs).
Proof.
  revert stats. induction gs as [|g gs IH]; intros stats Hinv; simpl; [done|].
  by apply IH, played_book_game.
Qed.

Lemma all_games_scored_only rounds :
  all_games (scored_only rounds) = filter scored (all_games rounds).
Proof.
  unfold all_games, scored_only.
  induction rounds as [|r rounds IH]; [done|].
  by rewrite fmap_cons, !bind_cons, filter_app, IH.
Qed.

(** *** The folds of the source and the folds on own properties *)

Section Guarded.
Context {S A : Type}.
Variable body : S → A → exn + S.
Variable pure : S → A → S.
Variable ok : A → Prop.
Context `{!∀ x, Decision (ok x)}.
Variable inv : S → Prop.
Variable e : exn.
Hypothesis body_ok : ∀ s x, inv s → ok x → body s x = inr (pure s x).
Hypothesis inv_ok : ∀ s x, inv s → ok x → inv (pure s x).
Hypothesis body_throws : ∀ s x, inv s → ¬ ok x → body s x = inl e.

(** A loop whose body either does a pure step or throws runs to its end
    exactly when no element makes it throw. *)
Lemma forEach_guarded s l :
  inv s →
  forEach body s l
  = if decide (Forall ok l) then inr (foldl pure s l) else inl e.
Proof.
  revert s. induction l as [|x l IH]; intros s Hs.
  - cbn [forEach foldl].
    destruct (decide (Forall ok [])) as [|Hn]; [done|]. destruct Hn. constructor.
  - cbn [forEach foldl]. destruct (decide (ok x)) as [Hx|Hx].
    + rewrite body_ok by done. cbn [and_then]. rewrite IH by auto.
      destruct (decide (Forall ok l)) as [Hl|Hl].
      * by rewrite decide_True by (by constructor).
      * rewrite decide_False; [done|]. by intros [? ?]%Forall_cons.
    + rewrite body_throws by done. cbn [and_then].
      rewrite decide_False; [done|]. by intros [? ?]%Forall_cons.
Qed.

Lemma foldl_guarded s l : inv s → Forall ok l → inv (foldl pure s l).
Proof.
  revert s. induction l as [|x l IH]; intros s Hs Hl; [done|].
  apply Forall_cons in Hl as [Hx Hl]. cbn [foldl]. auto.
Qed.
End Guarded.

Lemma record_player_ordinary score won stats player :
  ordinary player →
  record_player score won stats player
  = inr (book_player score won stats player).
Proof.
  intros Hp. unfold record_player, book_player, Js.read, add_game.
  destruct (Js.get stats player) as [s|]; [done|].
  by rewrite decide_False.
Qed.

Lemma own_ordinary_book_player score won (stats : Js.props PlayerStats) player :
  own_ordinary stats → ordinary player →
  own_ordinary (book_player score won stats player).
Proof.
  unfold own_ordinary, book_player. intros Hs Hp. rewrite keys_set.
  case_decide; [done|]. apply Forall_app. split; [done|]. by constructor.
Qed.

Lemma record_player_inherited score won (stats : Js.props PlayerStats) player :
  own_ordinary stats → ¬ ordinary player →
  record_player score won stats player = inl TypeError.
Proof.
  intros Hs Hp. unfold record_player, Js.read.
  assert (Js.get stats player = None) as ->.
  { apply get_None_keys. intros Hin.
    unfold own_ordinary in Hs. rewrite Forall_forall in Hs. auto. }
  destruct (decide (player ∈ Js.Object_prototype)) as [|Hout]; [done|].
  by destruct Hp.
Qed.

Lemma forEach_record_player score won (stats : Js.props PlayerStats) l :
  own_ordinary stats →
  forEach (record_player score won) stats l
  = if decide (Forall ordinary l)
    then inr (foldl (book_player score won) stats l) else inl TypeError.
Proof.
  apply (forEach_guarded _ _ ordinary own_ordinary).
  - intros. by apply record_player_ordinary.
  - intros. by apply own_ordinary_book_player.
  - intros. by apply record_player_inherited.
Qed.

Lemma own_ordinary_book_players score won (stats : Js.props PlayerStats) l :
  own_ordinary stats → Forall ordinary l →
  own_ordinary (foldl (book_player score won) stats l).
Proof.
  apply (foldl_guarded _ ordinary own_ordinary).
  intros. by apply own_ordinary_book_player.
Qed.

Lemma record_game_spec (stats : Js.props PlayerStats) g :
  own_ordinary stats →
  record_game stats g
  = if decide (Forall ordinary (places_of g))
    then inr (book_game stats g) else inl TypeError.
Proof.
  intros Hs. unfold record_game, book_game, places_of.
  destruct (decide (scored g)) as [[[s1 H1] [s2 H2]]|Hns].
  - rewrite H1, H2. rewrite forEach_record_player by done.
    destruct (decide (Forall ordinary (members (team1 g)))) as [Ht1|Ht1].
    + cbn [and_then].
      rewrite forEach_record_player by (by apply own_ordinary_book_players).
      destruct (decide (Forall ordinary (members (team2 g)))) as [Ht2|Ht2].
      * by rewrite decide_True by (by apply Forall_app).
      * rewrite decide_False; [done|]. by intros [? ?]%Forall_app.
    + cbn [and_then]. rewrite decide_False; [done|].
      by intros [? ?]%Forall_app.
  - destruct (decide (Forall ordinary [])) as [|Hn];
      [|destruct Hn; constructor].
    destruct (team1Score g) eqn:H1, (team2Score g) eqn:H2; try done.
    destruct Hns. split; by eexists.
Qed.

Lemma own_ordinary_book_game (stats : Js.props PlayerStats) g :
  own_ordinary stats → Forall ordinary (places_of g) →
  own_ordinary (book_game stats g).
Proof.
  intros Hs. unfold book_game, places_of.
  destruct (decide (scored g)) as [[[s1 H1] [s2 H2]]|Hns].
  - rewrite H1, H2. intros [? ?]%Forall_app.
    by repeat apply own_ordinary_book_players.
  - intros _. destruct (team1Score g) eqn:H1, (team2Score g) eqn:H2; try done.
    destruct Hns. split; by eexists.
Qed.

Lemma forEach_record_game (stats : Js.props PlayerStats) gs :
  own_ordinary stats →
  forEach record_game stats gs
  = if decide (Forall (λ g, Forall ordinary (places_of g)) gs)
    then inr (foldl book_game stats gs) else inl TypeError.
Proof.
  apply (forEach_guarded _ _ (λ g, Forall ordinary (places_of g)) own_ordinary).
  - intros s g Hs Hg. by rewrite record_game_spec, decide_True.
  - intros. by apply own_ordinary_book_game.
  - intros s g Hs Hg. by rewrite record_game_spec, decide_False.
Qed.

Lemma own_ordinary_book_games (stats : Js.props PlayerStats) gs :
  own_ordinary stats → Forall (λ g, Forall ordinary (places_of g)) gs →
  own_ordinary (foldl book_game stats gs).
Proof.
  apply (foldl_guarded _ (λ g, Forall ordinary (places_of g)) own_ordinary).
  intros. by apply own_ordinary_book_game.
Qed.

(** [calculatePlayerStats] returns the statistics booked on own properties
    when every player of a scored game has an ordinary name, and throws a
    TypeError when one has not. *)
Lemma calculatePlayerStats_spec rounds :
  calculatePlayerStats rounds
  = if decide (ordinary_names rounds)
    then inr (booked_stats rounds) else inl TypeError.
Proof.
  unfold calculatePlayerStats, booked_stats, ordinary_names, all_games.
  rewrite (forEach_guarded _ (λ stats round, foldl book_game stats (games round))
             (λ round, Forall (λ g, Forall ordinary (places_of g)) (games round))
             own_ordinary TypeError).
  - apply decide_ext. by rewrite Forall_bind.
  - intros s r Hs Hr. by rewrite forEach_record_game, decide_True.
  - intros. by apply own_ordinary_book_games.
  - intros s r Hs Hr. by rewrite forEach_record_game, decide_False.
  - constructor.
Qed.

Lemma calculatePlayerStats_booked rounds :
  ordinary_names rounds → calculatePlayerStats rounds = inr (booked_stats rounds).
Proof. intros. by rewrite calculatePlayerStats_spec, decide_True. Qed.

Lemma calculatePlayerStats_throws rounds :
  ¬ ordinary_names rounds → calculatePlayerStats rounds = inl TypeError.
Proof. intros. by rewrite calculatePlayerStats_spec, decide_False. Qed.

(** Whatever [calculatePlayerStats] returns is what the folds on own
    properties book. *)
Lemma calculatePlayerStats_returns rounds stats :
  calculatePlayerStats rounds = inr stats →
  ordinary_names rounds ∧ stats = booked_stats rounds.
Proof.
  rewrite calculatePlayerStats_spec. case_decide; [|done].
  intros [= <-]. done.
Qed.

Lemma own_ordinary_booked_stats rounds :
  ordinary_names rounds → own_ordinary (booked_stats rounds).
Proof.
  intros Hr. rewrite booked_stats_fold.
  apply own_ordinary_book_games; [constructor|done].
Qed.

(** C1, as the code has it: a game that ends level is booked as a win for
    every player of the second side and as a loss for every player of the
    first side, because the second side's branch tests [!team1Won]. *)
Theorem tie_is_booked_as_win_for_second_side :
  ∃ stats, calculatePlayerStats tied_rounds = inr stats ∧
  (λ s, (wins s, losses s)) <$> Js.get stats "Alice" = Some (0, 1)%Z ∧
  (λ s, (wins s, losses s)) <$> Js.get stats "Bob" = Some (0, 1)%Z ∧
  (λ s, (wins s, losses s)) <$> Js.get stats "Charlie" = Some (1, 0)%Z ∧
  (λ s, (wins s, losses s)) <$> Js.get stats "David" = Some (1, 0)%Z.
Proof. eexists. split; [vm_compute; reflexivity|]. vm_compute. done. Qed.

(** The team-mode fold compares strictly in both directions: the same game
    gives neither side a win or a loss. *)
Lemma tie_is_neither_in_team_mode :
  (λ t, (TeamStats.teamName t, TeamStats.wins t, TeamStats.losses t))
    <$> calculateTeamStats tied_rounds
  = [("Alice & Bob", 0, 0)%Z; ("Charlie & David", 0, 0)%Z].
Proof. vm_compute. done. Qed.

(** C6: whenever [calculatePlayerStats] returns, the points lost recorded
    for a player are the sum, over the games of the schedule, of 21 minus
    the score of the player's side (unscored games count 0); nothing is
    clamped, so the 25 points of an extended game count as -4.  It returns
    when every player of a scored game has an ordinary name; otherwise it
    throws a TypeError and records nothing. *)
Theorem points_lost_is_unclamped_sum rounds :
  (ordinary_names rounds →
   ∃ stats, calculatePlayerStats rounds = inr stats ∧
     ∀ p s, Js.get stats p = Some s →
            pointsLost s = sumZ (points_lost_in p <$> all_games rounds)) ∧
  (¬ ordinary_names rounds → calculatePlayerStats rounds = inl TypeError) ∧
  points_lost_in "Alice" (played 5 ("Alice", "David") ("Bob", "Charlie") 25 23)
    = (-4)%Z.
Proof.
  split_and!; [|apply calculatePlayerStats_throws|done].
  intros Hnames. exists (booked_stats rounds).
  split; [by apply calculatePlayerStats_booked|].
  intros p s Hget.
  pose proof (lost_of_foldl_book_game [] (all_games rounds) p) as H.
  rewrite <- booked_stats_fold in H.
  unfold lost_of in H. rewrite Hget in H. simpl in H. lia.
Qed.

Lemma points_lost_is_unclamped_sum_witness :
  ∃ stats s, calculatePlayerStats sample_rounds = inr stats ∧
             Js.get stats "Alice" = Some s ∧
             pointsLost s = (0 + 2 + -4)%Z.
Proof.
  destruct (proj1 (points_lost_is_unclamped_sum sample_rounds))
    as (stats & Hstats & Hlost).
  { apply (bool_decide_unpack _). vm_compute. exact I. }
  destruct (Js.get stats "Alice") as [s|] eqn:Hs.
  - exists stats, s. split_and!; [done..|]. by rewrite (Hlost "Alice" s Hs).
  - exfalso. vm_compute in Hstats. injection Hstats as <-.
    vm_compute in Hs. discriminate.
Defined.

Lemma ordinary_names_scored_only rounds :
  ordinary_names (scored_only rounds) ↔ ordinary_names rounds.
Proof.
  unfold ordinary_names. rewrite all_games_scored_only.
  induction (all_games rounds) as [|g gs IH]; [done|].
  rewrite filter_cons, Forall_cons. destruct (decide (scored g)) as [Hs|Hs].
  - rewrite Forall_cons. tauto.
  - unfold places_of at 2. rewrite decide_False by done.
    rewrite IH. intuition constructor.
Qed.

(** C9: games without both scores change nothing; whenever
    [calculatePlayerStats] returns, a player has an entry exactly when the
    player takes part in a scored game, and an entry never has zero games.
    It returns when every player of a scored game has an ordinary name, and
    throws a TypeError, returning no mapping, otherwise. *)
Theorem unscored_games_and_absent_players rounds :
  calculatePlayerStats rounds = calculatePlayerStats (scored_only rounds) ∧
  (∀ stats g, ¬ scored g → record_game stats g = inr stats) ∧
  (ordinary_names rounds →
   ∃ stats, calculatePlayerStats rounds = inr stats ∧
     (∀ p, Js.get stats p = None ↔
           Forall (λ g, ¬ plays_scored p g) (all_games rounds)) ∧
     (∀ p s, Js.get stats p = Some s → (1 <= gamesPlayed s)%Z)) ∧
  (¬ ordinary_names rounds → calculatePlayerStats rounds = inl TypeError).
Proof.
  split_and!.
  - rewrite !calculatePlayerStats_spec.
    rewrite (decide_ext _ _ _ _ (ordinary_names_scored_only rounds)).
    by rewrite !booked_stats_fold, all_games_scored_only,
      foldl_book_game_scored.
  - intros stats g Hg. unfold record_game.
    destruct (team1Score g) eqn:H1, (team2Score g) eqn:H2; try done.
    destruct Hg. split; by eexists.
  - intros Hnames. exists (booked_stats rounds).
    split_and!; [by apply calculatePlayerStats_booked| |].
    + intros p. rewrite booked_stats_fold, get_foldl_book_game_None.
      simpl. tauto.
    + rewrite booked_stats_fold.
      apply played_foldl_book_game. intros p s. done.
  - apply calculatePlayerStats_throws.
Qed.

Lemma unscored_games_and_absent_players_witness :
  ∃ stats, calculatePlayerStats sample_rounds = inr stats ∧
           Js.get stats "Ivy" = None ∧
           Js.keys stats =
             ["Alice"; "Bob"; "Charlie"; "David";
              "Eve"; "Frank"; "Grace"; "Henry"].
Proof.
  destruct (proj1 (proj2 (proj2
              (unscored_games_and_absent_players sample_rounds))))
    as (stats & Hstats & Habsent & _).
  { apply (bool_decide_unpack _). vm_compute. exact I. }
  exists stats. split_and!; [done| |].
  - apply Habsent. apply (bool_decide_unpack _). vm_compute. exact I.
  - vm_compute in Hstats. injection Hstats as <-. vm_compute. reflexivity.
Defined.

(** ** Side bets *)

Lemma ordinary_not_proto k : ordinary k → k ≠ "__proto__".
Proof.
  intros Hk ->. apply Hk. apply (bool_decide_unpack _). vm_compute. exact I.
Qed.

Lemma get_assign {V} (o : Js.props V) k v p :
  Js.get (Js.assign o k v) p
  = if decide (k = p ∧ p ≠ "__proto__") then Some v else Js.get o p.
Proof.
  unfold Js.assign. destruct (decide (k = "__proto__")) as [->|Hk].
  - rewrite decide_False; [done|]. intros [<- ?]. done.
  - destruct (decide (k = p)) as [->|Hne].
    + by rewrite get_set_eq, decide_True.
    + rewrite get_set_ne by done. rewrite decide_False; [done|]. by intros [? _].
Qed.

(** What a step on one name does to the entry of any name. *)
Lemma get_add_stake amount totals q p :
  Js.get (add_stake amount totals q) p
  = if decide (q = p) then entry_after p (Js.get totals p) (Gain amount)
    else Js.get totals p.
Proof.
  unfold add_stake, entry_after, Js.read. rewrite get_assign.
  destruct (decide (q = p)) as [->|Hne].
  - destruct (decide (p = "__proto__")) as [Hp|Hp].
    + rewrite decide_False; [done|]. by intros [_ ?].
    + rewrite decide_True by done. by destruct (Js.get totals p).
  - rewrite decide_False; [done|]. by intros [? _].
Qed.

Lemma get_subtract_stake amount totals q p :
  Js.get (subtract_stake amount totals q) p
  = if decide (q = p) then entry_after p (Js.get totals p) (Loss amount)
    else Js.get totals p.
Proof.
  unfold subtract_stake, entry_after, Js.read. rewrite get_assign.
  destruct (decide (q = p)) as [->|Hne].
  - destruct (decide (p = "__proto__")) as [Hp|Hp].
    + rewrite decide_False; [done|]. by intros [_ ?].
    + rewrite decide_True by done. by destruct (Js.get totals p).
  - rewrite decide_False; [done|]. by intros [? _].
Qed.

Lemma get_add_stakes amount totals team p :
  Js.get (foldl (add_stake amount) totals (members team)) p
  = foldl (entry_after p) (Js.get totals p)
          ((λ _, Gain amount) <$> seats p team).
Proof.
  unfold seats, members. cbn [foldl].
  rewrite !get_add_stake, !filter_cons, filter_nil.
  repeat case_decide; done.
Qed.

Lemma get_subtract_stakes amount totals team p :
  Js.get (foldl (subtract_stake amount) totals (members team)) p
  = foldl (entry_after p) (Js.get totals p)
          ((λ _, Loss amount) <$> seats p team).
Proof.
  unfold seats, members. cbn [foldl].
  rewrite !get_subtract_stake, !filter_cons, filter_nil.
  repeat case_decide; done.
Qed.

Lemma get_settle totals b p :
  Js.get (settle totals b) p
  = foldl (entry_after p) (Js.get totals p) (bookings_of p b).
Proof.
  unfold settle, bookings_of.
  destruct (SideBet.winner b) as [[]|]; [| |done];
    by rewrite get_subtract_stakes, get_add_stakes, foldl_app.
Qed.

(** The entry of a name depends on the bets through the steps they make for
    that name only. *)
Lemma get_foldl_settle totals bets p :
  Js.get (foldl settle totals bets) p
  = foldl (entry_after p) (Js.get totals p) (bets ≫= bookings_of p).
Proof.
  revert totals. induction bets as [|b bets IH]; intros totals; [done|].
  cbn [foldl]. by rewrite IH, bind_cons, foldl_app, get_settle.
Qed.

(** For an ordinary name the entries are numbers, and the steps are those of
    the running total. *)
Lemma entry_after_ordinary p total e :
  ordinary p →
  entry_after p (Js.Number <$> total) e = Js.Number <$> book total e.
Proof.
  intros Hp. unfold entry_after, book.
  rewrite decide_False.
  - destruct total as [x|]; simpl.
    + by destruct e.
    + rewrite decide_False by done. by destruct e.
  - by apply ordinary_not_proto.
Qed.

Lemma entries_after_ordinary p total l :
  ordinary p →
  foldl (entry_after p) (Js.Number <$> total) l
  = Js.Number <$> foldl book total l.
Proof.
  intros Hp. revert total. induction l as [|e l IH]; intros total; [done|].
  cbn [foldl]. by rewrite entry_after_ordinary, IH.
Qed.

Lemma bookings_of_outside p b :
  p ∉ members (SideBet.team1 b) → p ∉ members (SideBet.team2 b) →
  bookings_of p b = [].
Proof.
  intros H1 H2. unfold bookings_of, seats.
  assert (∀ team, p ∉ members team → filter (λ q, q = p) (members team) = [])
    as Hnone.
  { intros team Hp. unfold members in *.
    rewrite !not_elem_of_cons in Hp. destruct Hp as (? & ? & _).
    rewrite !filter_cons, filter_nil. by rewrite !decide_False by done. }
  rewrite !Hnone by done. by destruct (SideBet.winner b) as [[]|].
Qed.

Lemma settle_unsettled totals b : SideBet.winner b = None → settle totals b = totals.
Proof. unfold settle. by intros ->. Qed.

Lemma foldl_settle_settled totals bets :
  foldl settle totals (filter settled bets) = foldl settle totals bets.
Proof.
  revert totals. induction bets as [|b bets IH]; intros totals; [done|].
  rewrite filter_cons. destruct (decide (settled b)) as [Hs|Hs]; simpl.
  - apply IH.
  - rewrite IH, settle_unsettled; [done|].
    unfold settled in Hs. by destruct (SideBet.winner b); [destruct Hs|].
Qed.

(** C8, as the code has it: for a player with an ordinary name the total is
    the running total of the steps that the settled bets make for the
    player, in the order of the list: it starts from 0, each place on a
    winning side adds the stake and each place on a losing side subtracts
    it, in double arithmetic, a running total of 0 or NaN counting as 0; a
    player without a step has no entry; the schedule is not an input; an
    unsettled bet leaves the totals as they are. *)
Theorem side_bet_totals sideBets p :
  ordinary p →
  Js.get (calculateSideBetTotals sideBets) p
  = Js.Number <$> foldl book None (sideBets ≫= bookings_of p) ∧
  (∀ totals b, SideBet.winner b = None → settle totals b = totals) ∧
  calculateSideBetTotals sideBets = calculateSideBetTotals (filter settled sideBets).
Proof.
  intros Hp. unfold calculateSideBetTotals. split_and!.
  - rewrite get_foldl_settle.
    exact (entries_after_ordinary p None _ Hp).
  - apply settle_unsettled.
  - by rewrite foldl_settle_settled.
Qed.

Lemma side_bet_totals_witness :
  calculateSideBetTotals sample_bets
  = [("A", Js.Number 2); ("B", Js.Number 5); ("C", Js.Number (-8));
     ("D", Js.Number (-5)); ("E", Js.Number 3); ("F", Js.Number 3)] ∧
  Js.get (calculateSideBetTotals sample_bets) "A"
  = Some (Js.Number (0 + 5 - 3)).
Proof.
  split; [vm_compute; reflexivity|].
  rewrite (proj1 (side_bet_totals sample_bets "A"
                    ltac:(apply (bool_decide_unpack _); vm_compute; exact I))).
  vm_compute. reflexivity.
Defined.

(** The total is not the sum of the stakes gained and lost.  A sum does not
    depend on the order of its terms, but three bets of 0.1, 0.2 and 0.3 that
    a player wins give another total when their order is reversed; and a
    player who wins 2^53, wins 1 and loses 2^53 is left with a total of 0,
    where the sum is 1. *)
Lemma side_bet_totals_counterexample :
  (reverse small_bets ≡ₚ small_bets ∧
   Js.get (calculateSideBetTotals small_bets) "A"
   ≠ Js.get (calculateSideBetTotals (reverse small_bets)) "A") ∧
  (SideBet.amount <$> large_bets
   = (λ n, PrimFloat.of_uint63 (Uint63.of_Z n))
       <$> [9007199254740992; 1; 9007199254740992]%Z ∧
   (9007199254740992 + 1 - 9007199254740992 = 1)%Z ∧
   Js.get (calculateSideBetTotals large_bets) "A" = Some (Js.Number 0) ∧
   Js.Number 0 ≠ Js.Number (PrimFloat.of_uint63 (Uint63.of_Z 1))).
Proof.
  split_and!.
  - apply reverse_Permutation.
  - vm_compute. by intros [=].
  - vm_compute. reflexivity.
  - reflexivity.
  - vm_compute. reflexivity.
  - vm_compute. by intros [=].
Qed.

(** ** Encounter order *)

Lemma keys_set_seen {V} (o : Js.props V) k v :
  Js.keys (Js.set o k v) = seen_then (Js.keys o) k.
Proof. apply keys_set. Qed.

Lemma seen_then_NoDup seen x : NoDup seen → NoDup (seen_then seen x).
Proof.
  intros Hnd. unfold seen_then. case_decide; [done|].
  apply NoDup_app. split_and!; [done | | apply NoDup_singleton].
  intros y Hy Hx%list_elem_of_singleton. by subst.
Qed.

Lemma foldl_seen_then_NoDup seen l : NoDup seen → NoDup (foldl seen_then seen l).
Proof.
  revert seen. induction l as [|x l IH]; intros seen Hnd; simpl; [done|].
  by apply IH, seen_then_NoDup.
Qed.

Lemma first_seen_NoDup l : NoDup (first_seen l).
Proof. apply foldl_seen_then_NoDup, NoDup_nil_2. Qed.

(** ** Team statistics *)

Lemma keys_init_team m key team :
  Js.keys (init_team m key team) = seen_then (Js.keys m) key.
Proof.
  unfold init_team, seen_then.
  destruct (Js.get m key) as [t|] eqn:Hget.
  - case_decide as Hin; [done|]. apply get_None_keys in Hin. congruence.
  - rewrite keys_set. done.
Qed.

Lemma get_init_team_ne m key team k :
  key ≠ k → Js.get (init_team m key team) k = Js.get m k.
Proof.
  intros Hne. unfold init_team.
  destruct (Js.get m key); [done | by apply get_set_ne].
Qed.

Lemma keys_record_team_game m g :
  Js.keys (record_team_game m g) = foldl seen_then (Js.keys m) (team_keys_of g).
Proof.
  unfold record_team_game, team_keys_of.
  destruct (decide (scored g)) as [[[s1 H1] [s2 H2]]|Hns].
  - rewrite H1, H2.
    destruct (s1 >? s2)%Z, (s2 >? s1)%Z;
      by rewrite !keys_update, !keys_init_team.
  - destruct (team1Score g) eqn:H1, (team2Score g) eqn:H2; try done.
    destruct Hns. split; by eexists.
Qed.

Lemma keys_teamMap_of rounds :
  Js.keys (teamMap_of rounds) = first_seen (all_games rounds ≫= team_keys_of).
Proof.
  unfold teamMap_of, first_seen, all_games.
  change (@nil string) with (Js.keys (@nil (string * TeamStats.t))).
  generalize (@nil (string * TeamStats.t)).
  induction rounds as [|r rounds IH]; intros m; [done|].
  cbn [foldl]. rewrite IH, !bind_cons, bind_app, foldl_app. f_equal.
  clear IH. generalize (games r) m. clear.
  induction l as [|g gs IH]; intros m; [done|].
  cbn [foldl]. by rewrite IH, bind_cons, foldl_app, keys_record_team_game.
Qed.

Lemma named_update m key f :
  (∀ t, TeamStats.teamName (f t) = TeamStats.teamName t) →
  named_by_key m → named_by_key (Js.update m key f).
Proof.
  intros Hf Hinv k t. rewrite get_update. case_decide; [|apply Hinv].
  destruct (Js.get m k) as [t'|] eqn:Hget; simpl; [|done].
  intros [= <-]. rewrite Hf. by apply Hinv.
Qed.

Lemma named_init_team m key team :
  named_by_key m → named_by_key (init_team m key team).
Proof.
  intros Hinv k t. unfold init_team.
  destruct (Js.get m key) eqn:Hget; [apply Hinv|].
  destruct (decide (key = k)) as [->|Hne].
  - rewrite get_set_eq. by intros [= <-].
  - rewrite get_set_ne by done. apply Hinv.
Qed.

Lemma named_record_team_game m g :
  named_by_key m → named_by_key (record_team_game m g).
Proof.
  intros Hinv. unfold record_team_game.
  destruct (team1Score g) as [s1|], (team2Score g) as [s2|]; try done.
  destruct (s1 >? s2)%Z, (s2 >? s1)%Z;
    repeat (apply named_update; [done|]); by repeat apply named_init_team.
Qed.

Lemma differentials_record_team_game m g :
  differentials_ok m → differentials_ok (record_team_game m g).
Proof.
  intros Hinv k t. unfold record_team_game.
  destruct (team1Score g) as [s1|], (team2Score g) as [s2|]; try apply Hinv.
  destruct (decide (team_key (team2 g) = k)) as [H2|H2];
    [|destruct (decide (team_key (team1 g) = k)) as [H1|H1]].
  - rewrite get_update, decide_True by done.
    match goal with |- _ <$> ?o = _ → _ => destruct o end; [|done].
    by intros [= <-].
  - rewrite get_update, decide_False by done.
    rewrite get_update, decide_True by done.
    match goal with |- _ <$> ?o = _ → _ => destruct o end; [|done].
    by intros [= <-].
  - destruct (s1 >? s2)%Z, (s2 >? s1)%Z;
      rewrite !get_update, !decide_False, !get_init_team_ne by done;
      apply Hinv.
Qed.

Section TeamFold.
Variable P : Js.props TeamStats.t → Prop.
Hypothesis P_step : ∀ m g, P m → P (record_team_game m g).

Lemma teamMap_of_invariant rounds : P [] → P (teamMap_of rounds).
Proof.
  unfold teamMap_of. generalize (@nil (string * TeamStats.t)).
  induction rounds as [|r rounds IH]; intros m Hm; [done|].
  cbn [foldl]. apply IH. clear IH. revert m Hm.
  induction (games r) as [|g gs IH]; intros m Hm; [done|].
  cbn [foldl]. by apply IH, P_step.
Qed.
End TeamFold.

Lemma compare_teams_le a b : (compare_teams a b <= 0)%Z ↔ ranks_before a b.
Proof. unfold compare_teams, ranks_before. case_decide; lia. Qed.

Lemma StronglySorted_iff {A} (R S : A → A → Prop) l :
  (∀ x y, R x y ↔ S x y) → StronglySorted R l → StronglySorted S l.
Proof.
  intros HRS. induction 1 as [|x l _ IH Hx]; constructor; [done|].
  eapply Forall_impl; [exact Hx|]. intros y. apply HRS.
Qed.

(** C7: the result is the teams of the map, in an order in which every team
    ranks before the teams behind it (more wins, or as many wins and at least
    the point differential); teams level on both keys keep the order in
    which the map first met them, which is the order of their first scored
    game; and every record's differential is its points scored minus its
    points conceded. *)
Theorem team_stats_ranking rounds :
  let encountered := Js.values (teamMap_of rounds) in
  let ranked := calculateTeamStats rounds in
  TeamStats.teamName <$> encountered
    = first_seen (all_games rounds ≫= team_keys_of) ∧
  ranked ≡ₚ encountered ∧
  StronglySorted ranks_before ranked ∧
  (∀ w d, filter (level w d) ranked = filter (level w d) encountered) ∧
  Forall differential_ok ranked.
Proof.
  intros encountered ranked. subst encountered ranked.
  unfold calculateTeamStats.
  pose proof (teamMap_of_invariant _ named_record_team_game rounds) as Hnamed.
  pose proof (teamMap_of_invariant _ differentials_record_team_game rounds)
    as Hdiff.
  pose proof (keys_teamMap_of rounds) as Hkeys.
  assert (NoDup (Js.keys (teamMap_of rounds))) as Hnd
    by (rewrite Hkeys; apply first_seen_NoDup).
  assert (∀ k t, (k, t) ∈ teamMap_of rounds →
                 TeamStats.teamName t = k ∧ differential_ok t) as Hall.
  { intros k t Hin. apply (elem_get_Some _ _ _ Hnd) in Hin.
    split; [eapply Hnamed | eapply Hdiff]; done. }
  split_and!.
  - rewrite <- Hkeys. unfold Js.values, Js.keys.
    rewrite <- list_fmap_compose. apply list_fmap_ext.
    intros i [k t] Hi. apply (Hall k t). by eapply list_elem_of_lookup_2.
  - apply sort_perm.
  - eapply StronglySorted_iff; [apply compare_teams_le|].
    apply sort_sorted.
    + intros x y. rewrite !compare_teams_le. unfold ranks_before. lia.
    + intros x y z. rewrite !compare_teams_le. unfold ranks_before. lia.
  - intros w d. apply sort_filter.
    intros x y [? ?] [? ?]. apply compare_teams_le. unfold ranks_before. lia.
  - rewrite sort_perm. apply Forall_forall. intros t Hin.
    apply list_elem_of_fmap in Hin as [[k t'] [-> Hin]].
    by apply (Hall k t').
Qed.

(** ** Enumeration order of an object *)

Example array_index_examples :
  Js.array_index <$> ["0"; "7"; "10"; "4294967294"]
    = [Some 0; Some 7; Some 10; Some 4294967294]%N ∧
  Js.array_index <$> [""; "01"; "1a"; "-1"; "4294967295"; "Alice"]
    = [None; None; None; None; None; None].
Proof. split; reflexivity. Qed.

Example entries_example :
  Js.entries [("b", 1); ("10", 2); ("a", 3); ("9", 4)]
    = [("9", 4); ("10", 2); ("b", 1); ("a", 3)].
Proof. reflexivity. Qed.

Section Entries.
Context {V : Type}.
Implicit Types (o : Js.props V).

Lemma entries_perm o : Js.entries o ≡ₚ o.
Proof.
  unfold Js.entries. rewrite sort_perm.
  induction o as [|[k v] o IH]; [done|].
  rewrite !filter_cons. cbn [fst].
  destruct (Js.array_index k) as [n|] eqn:Hk.
  - rewrite decide_True, decide_False by (done || by eexists).
    cbn [app]. by rewrite IH.
  - rewrite decide_False, decide_True by (done || by intros [? ?]).
    by rewrite <- Permutation_middle, IH.
Qed.

(** Without numeral keys the enumeration is the creation order. *)
Lemma entries_plain o :
  Forall (λ k, Js.array_index k = None) (Js.keys o) → Js.entries o = o.
Proof.
  unfold Js.entries, Js.keys. intros Hplain.
  assert (filter (λ kv : string * V, is_Some (Js.array_index kv.1)) o = []
          ∧ filter (λ kv : string * V, Js.array_index kv.1 = None) o = o)
    as [-> ->]; [|done].
  induction o as [|[k v] o IH]; [done|].
  rewrite fmap_cons in Hplain. apply Forall_cons in Hplain as [Hk Ho].
  cbn [fst] in Hk. destruct (IH Ho) as [IH1 IH2].
  rewrite !filter_cons. cbn [fst].
  rewrite decide_False, decide_True by (done || rewrite Hk; by intros [? ?]).
  by rewrite IH1, IH2.
Qed.
End Entries.

(** ** Payouts *)

Lemma keys_book_game stats g :
  Js.keys (book_game stats g) = foldl seen_then (Js.keys stats) (places_of g).
Proof.
  unfold book_game, places_of.
  destruct (decide (scored g)) as [[[s1 H1] [s2 H2]]|Hns].
  - rewrite H1, H2. unfold members, book_player. cbn [foldl app].
    by rewrite !keys_set_seen.
  - destruct (team1Score g) eqn:H1, (team2Score g) eqn:H2; try done.
    destruct Hns. split; by eexists.
Qed.

Lemma keys_booked_stats rounds :
  Js.keys (booked_stats rounds)
  = first_seen (all_games rounds ≫= places_of).
Proof.
  rewrite booked_stats_fold. unfold first_seen.
  change (@nil string) with (Js.keys (@nil (string * PlayerStats))).
  generalize (@nil (string * PlayerStats)).
  induction (all_games rounds) as [|g gs IH]; intros stats; [done|].
  cbn [foldl]. by rewrite IH, bind_cons, foldl_app, keys_book_game.
Qed.

Section Payout.
Context {V : Type}.
Implicit Types (o : Js.props V) (k : string).

Lemma get_app_new (o o' : Js.props V) k :
  k ∉ Js.keys o → Js.get (o ++ o') k = Js.get o' k.
Proof.
  unfold Js.keys. induction o as [|[k' v'] o IH]; [done|].
  rewrite fmap_cons, not_elem_of_cons. cbn [fst]. intros [Hne Hnin].
  simpl. rewrite decide_False by done. auto.
Qed.

Lemma set_app_new (o o' : Js.props V) k v :
  k ∉ Js.keys o → Js.set (o ++ o') k v = o ++ Js.set o' k v.
Proof.
  unfold Js.keys. induction o as [|[k' v'] o IH]; [done|].
  rewrite fmap_cons, not_elem_of_cons. cbn [fst]. intros [Hne Hnin].
  simpl. rewrite decide_False by done. by rewrite IH.
Qed.

Lemma set_new o k v : k ∉ Js.keys o → Js.set o k v = o ++ [(k, v)].
Proof.
  intros Hnin. rewrite <- (app_nil_r o) at 1. by rewrite set_app_new.
Qed.

Lemma update_app_new (o o' : Js.props V) k v f :
  k ∉ Js.keys o →
  Js.update (o ++ (k, v) :: o') k f = o ++ (k, f v) :: o'.
Proof.
  intros Hnin. unfold Js.update.
  rewrite get_app_new by done. simpl. rewrite decide_True by done.
  rewrite set_app_new by done. simpl. by rewrite decide_True.
Qed.
End Payout.

(** The first loop of [calculatePayouts]: one entry per ranked player, in
    rank order. *)
Lemma fees_loop {V} (fee : Z) (sorted : list (string * V)) (payouts : Js.props Z) :
  NoDup (Js.keys payouts ++ sorted.*1) →
  foldl (λ payouts e, Js.set payouts e.1 fee) payouts sorted
  = payouts ++ ((λ e, (e.1, fee)) <$> sorted).
Proof.
  revert payouts. induction sorted as [|[k v] sorted IH]; intros payouts Hnd.
  - by rewrite app_nil_r.
  - cbn [foldl fst]. rewrite fmap_cons in Hnd. cbn [fst] in Hnd.
    assert (k ∉ Js.keys payouts) as Hk.
    { apply NoDup_app in Hnd as (_ & Hdis & _). intros Hin.
      apply (Hdis _ Hin). apply list_elem_of_here. }
    rewrite (set_new payouts) by done. rewrite IH.
    + by rewrite <- app_assoc.
    + unfold Js.keys in *. by rewrite fmap_app, <- app_assoc.
Qed.

(** The second loop: the prize of each rank is added to the entry of the
    player at that rank. *)
Lemma prizes_loop {V} (fee : Z) (sorted : list (string * V)) (paid : Js.props Z) :
  NoDup (Js.keys paid ++ sorted.*1) →
  foldl (λ payouts ie, add_prize payouts ie.1 ie.2.1)
        (paid ++ ((λ e, (e.1, fee)) <$> sorted))
        (imap (λ j e, (length paid + j, e)) sorted)
  = paid ++ imap (λ j e, (e.1, fee + prize_at (length paid + j))%Z) sorted.
Proof.
  revert paid. induction sorted as [|[k v] sorted IH]; intros paid Hnd; [done|].
  rewrite fmap_cons in Hnd. cbn [fst] in Hnd.
  assert (k ∉ Js.keys paid) as Hk.
  { apply NoDup_app in Hnd as (_ & Hdis & _). intros Hin.
    apply (Hdis _ Hin). apply list_elem_of_here. }
  rewrite fmap_cons, !imap_cons. cbn [foldl fst snd].
  assert (add_prize (paid ++ (k, fee) :: ((λ e, (e.1, fee)) <$> sorted))
            (length paid + 0) k
          = (paid ++ [(k, (fee + prize_at (length paid + 0))%Z)])
              ++ ((λ e, (e.1, fee)) <$> sorted)) as ->.
  { unfold add_prize, prize_at.
    destruct (prizes !! (length paid + 0)) as [prize|]; simpl.
    - rewrite update_app_new by done. by rewrite <- app_assoc.
    - rewrite Z.add_0_r. by rewrite <- app_assoc. }
  specialize (IH (paid ++ [(k, (fee + prize_at (length paid + 0))%Z)])).
  rewrite length_app in IH. cbn [length] in IH.
  rewrite <- app_assoc. cbn [app].
  rewrite <- (app_assoc paid [_]) in IH. cbn [app] in IH.
  rewrite (imap_ext (_ ∘ S) (λ j e, (length paid + 1 + j, e)))
    by (intros; simpl; f_equal; lia).
  rewrite (imap_ext (_ ∘ S)
             (λ j e, (e.1, (fee + prize_at (length paid + 1 + j))%Z)))
    by (intros; simpl; do 3 f_equal; lia).
  rewrite IH.
  - by rewrite <- app_assoc.
  - unfold Js.keys in *. rewrite fmap_app, <- app_assoc. exact Hnd.
Qed.

Lemma booked_ranking_perm rounds :
  booked_ranking rounds ≡ₚ booked_stats rounds.
Proof. unfold booked_ranking. by rewrite sort_perm, entries_perm. Qed.

Lemma booked_ranking_NoDup rounds : NoDup (booked_ranking rounds).*1.
Proof.
  rewrite booked_ranking_perm.
  change (NoDup (Js.keys (booked_stats rounds))).
  rewrite keys_booked_stats. apply first_seen_NoDup.
Qed.

(** Both loops together: the player at rank index [i] nets the prize of that
    rank minus the fee. *)
Lemma booked_payouts_ranked rounds entryFee :
  booked_payouts rounds entryFee
  = imap (λ i e, (e.1, (- entryFee + prize_at i)%Z)) (booked_ranking rounds).
Proof.
  unfold booked_payouts.
  pose proof (booked_ranking_NoDup rounds) as Hnd.
  rewrite (fees_loop _ _ []) by done.
  exact (prizes_loop (- entryFee)%Z (booked_ranking rounds) [] Hnd).
Qed.

Lemma prize_sum_S n :
  sumZ (take (S n) prizes) = (sumZ (take n prizes) + prize_at n)%Z.
Proof.
  destruct n as [|[|[|n]]]; try reflexivity.
  unfold prizes, prize_at. simpl. by rewrite take_nil.
Qed.

Lemma sum_of_ranked {V} (c : Z) (l : list (string * V)) :
  sumZ (Js.values (imap (λ i e, (e.1, (c + prize_at i)%Z)) l))
  = (sumZ (take (length l) prizes) + Z.of_nat (length l) * c)%Z.
Proof.
  unfold Js.values. induction l as [|x l IH] using rev_ind; [done|].
  rewrite imap_app, fmap_app, sumZ_app, IH, length_app. simpl.
  rewrite Nat.add_0_r, Nat.add_1_r, prize_sum_S. lia.
Qed.

(** Assigning to names none of which is [__proto__] is setting them. *)
Lemma assign_loop {V} (fee : Z) (sorted : list (string * V)) (payouts : Js.props Z) :
  Forall (λ k, k ≠ "__proto__") sorted.*1 →
  foldl (λ payouts e, Js.assign payouts e.1 fee) payouts sorted
  = foldl (λ payouts e, Js.set payouts e.1 fee) payouts sorted.
Proof.
  revert payouts. induction sorted as [|[k v] sorted IH]; intros payouts Hk;
    [done|].
  rewrite fmap_cons in Hk. apply Forall_cons in Hk as [Hk Hsorted].
  cbn [foldl fst]. unfold Js.assign at 2. rewrite decide_False by done.
  by apply IH.
Qed.

(** [calculatePayouts] returns the payouts booked on own properties when
    every player of a scored game has an ordinary name, and throws the
    TypeError of the statistics otherwise. *)
Lemma calculatePayouts_booked rounds entryFee :
  ordinary_names rounds →
  calculatePayouts rounds entryFee = inr (booked_payouts rounds entryFee).
Proof.
  intros Hnames. unfold calculatePayouts, booked_payouts.
  rewrite calculatePlayerStats_booked by done. cbn [and_then].
  change (sortedPlayers (booked_stats rounds)) with (booked_ranking rounds).
  cbn zeta. rewrite assign_loop; [done|].
  rewrite booked_ranking_perm.
  eapply Forall_impl; [by apply own_ordinary_booked_stats|].
  apply ordinary_not_proto.
Qed.

Lemma calculatePayouts_throws rounds entryFee :
  ¬ ordinary_names rounds → calculatePayouts rounds entryFee = inl TypeError.
Proof.
  intros Hnames. unfold calculatePayouts.
  by rewrite calculatePlayerStats_throws.
Qed.

(** C4, as the code has it: when every player of a scored game has an
    ordinary name, the statistics and the payouts are returned; the players
    are ranked by points lost, fewest first, players level on points lost
    staying in the order in which [Object.entries] lists the statistics (the
    order of first appearance in a scored game when no name is an array
    index); the player at rank index [i] nets the prize of that rank minus
    the fee; and the nets add up to the prizes of the ranks that are filled
    minus one fee per ranked player, which is 16 minus the fees from three
    players on and 0 for eight players at a fee of 2. *)
Theorem payouts_by_points_lost rounds entryFee :
  ordinary_names rounds →
  ∃ stats payouts,
    calculatePlayerStats rounds = inr stats ∧
    calculatePayouts rounds entryFee = inr payouts ∧
    let ranked := sortedPlayers stats in
    let n := length ranked in
    (Js.keys stats = first_seen (all_games rounds ≫= places_of) ∧
     Js.entries stats ≡ₚ stats ∧
     (Forall (λ p, Js.array_index p = None) (Js.keys stats) →
      Js.entries stats = stats)) ∧
    (ranked ≡ₚ Js.entries stats ∧
     StronglySorted (λ a b, (pointsLost a.2 <= pointsLost b.2)%Z) ranked ∧
     ∀ v, filter (λ e, pointsLost e.2 = v) ranked
          = filter (λ e, pointsLost e.2 = v) (Js.entries stats)) ∧
    payouts = imap (λ i e, (e.1, (- entryFee + prize_at i)%Z)) ranked ∧
    (sumZ (Js.values payouts)
       = (sumZ (take n prizes) - Z.of_nat n * entryFee)%Z ∧
     (3 ≤ n →
      sumZ (Js.values payouts) = (8 + 6 + 2 - Z.of_nat n * entryFee)%Z) ∧
     (n = 8 → entryFee = 2%Z → sumZ (Js.values payouts) = 0%Z)).
Proof.
  intros Hnames.
  exists (booked_stats rounds), (booked_payouts rounds entryFee).
  split; [by apply calculatePlayerStats_booked|].
  split; [by apply calculatePayouts_booked|].
  change (sortedPlayers (booked_stats rounds)) with (booked_ranking rounds).
  cbn zeta.
  assert (sumZ (Js.values (booked_payouts rounds entryFee))
          = (sumZ (take (length (booked_ranking rounds)) prizes)
             - Z.of_nat (length (booked_ranking rounds)) * entryFee)%Z) as Hsum.
  { rewrite booked_payouts_ranked, sum_of_ranked. lia. }
  split_and!.
  - apply keys_booked_stats.
  - apply entries_perm.
  - apply entries_plain.
  - apply sort_perm.
  - eapply StronglySorted_iff; [|apply sort_sorted].
    + intros x y. simpl. lia.
    + intros x y. simpl. lia.
    + intros x y z. simpl. lia.
  - intros v. apply sort_filter. intros x y Hx Hy. simpl in *. lia.
  - apply booked_payouts_ranked.
  - exact Hsum.
  - intros Hn. rewrite Hsum, take_ge by (unfold prizes; simpl; lia). done.
  - intros Hn ->. rewrite Hsum, Hn. done.
Qed.

Lemma payouts_by_points_lost_witness :
  ∃ stats payouts,
    calculatePlayerStats sample_rounds = inr stats ∧
    calculatePayouts sample_rounds 2 = inr payouts ∧
    Js.entries stats = stats ∧
    payouts
    = [("Alice", 6); ("Grace", 4); ("Bob", 0); ("Eve", -2);
       ("Charlie", -2); ("David", -2); ("Henry", -2); ("Frank", -2)]%Z ∧
    sumZ (Js.values payouts) = 0%Z.
Proof.
  destruct (payouts_by_points_lost sample_rounds 2)
    as (stats & payouts & Hstats & Hpayouts
        & (_ & _ & Hplain) & _ & _ & _ & _ & Hzero).
  { apply (bool_decide_unpack _). vm_compute. exact I. }
  exists stats, payouts. split_and!; [done..| | |].
  - apply Hplain. vm_compute in Hstats. injection Hstats as <-.
    apply (bool_decide_unpack _). vm_compute. exact I.
  - vm_compute in Hpayouts. by injection Hpayouts as <-.
  - apply Hzero; [|reflexivity].
    vm_compute in Hstats. injection Hstats as <-. vm_compute. reflexivity.
Defined.

(** The sum of 16 minus the fees is not reached while fewer than three
    players have a scored game: on a schedule without scores nobody is ranked
    and the nets add up to 0.  And players level on points lost are not
    always ranked in the order of their first game: the names "2" and "1"
    are array indices, which [Object.entries] lists in ascending numeric
    order, so that "1" takes first place and "2", met first, nets the second
    prize. *)
Lemma payouts_counterexample :
  (∃ stats payouts,
     calculatePlayerStats unplayed_rounds = inr stats ∧
     calculatePayouts unplayed_rounds 2 = inr payouts ∧
     length (sortedPlayers stats) = 0 ∧
     sumZ (Js.values payouts) ≠ (8 + 6 + 2 - 0 * 2)%Z) ∧
  (∃ stats payouts,
     calculatePlayerStats numbered_rounds = inr stats ∧
     calculatePayouts numbered_rounds 2 = inr payouts ∧
     first_seen (all_games numbered_rounds ≫= places_of) = ["2"; "1"; "b"; "a"] ∧
     Forall (λ e, pointsLost e.2 = 0%Z) (sortedPlayers stats) ∧
     (sortedPlayers stats).*1 = ["1"; "2"; "b"; "a"] ∧
     Js.get payouts "2" = Some (6 - 2)%Z ∧
     Js.get payouts "2" ≠ Some (8 - 2)%Z).
Proof.
  split.
  - do 2 eexists. split; [vm_compute; reflexivity|].
    split; [vm_compute; reflexivity|].
    split; [reflexivity | by vm_compute].
  - do 2 eexists. split; [vm_compute; reflexivity|].
    split; [vm_compute; reflexivity|].
    split_and!; try (vm_compute; reflexivity).
    + apply (bool_decide_unpack _). vm_compute. exact I.
    + by vm_compute.
Qed.

(** ** Generators: the player count *)

(** C5: each generator throws its player-count error, the condition the
    design document calls InvalidPlayerCount, exactly when the list has not
    the required length (8, respectively 12), and returns a schedule
    otherwise, whatever the random source and the custom teams. *)
Theorem generators_reject_exactly_wrong_counts
    (random : nat → Q) (players : list string)
    (customTeams : option (list (string * string))) :
  (generateRoundRobinSchedule random players
     = inl (Error "Exactly 8 players are required") ↔ length players ≠ 8) ∧
  (generate12PlayerSchedule random players customTeams
     = inl (Error "Exactly 12 players are required") ↔ length players ≠ 12) ∧
  (length players = 8 →
     ∃ rounds, generateRoundRobinSchedule random players = inr rounds) ∧
  (length players = 12 →
     ∃ rounds,
       generate12PlayerSchedule random players customTeams = inr rounds).
Proof.
  unfold generateRoundRobinSchedule, generate12PlayerSchedule.
  split_and!.
  - case_decide; split; done.
  - case_decide; split; done.
  - intros Hlen. rewrite decide_False by (by intros []). by eexists.
  - intros Hlen. rewrite decide_False by (by intros []). by eexists.
Qed.

Lemma generators_reject_exactly_wrong_counts_witness :
  generateRoundRobinSchedule halves twelve_names
    = inl (Error "Exactly 8 players are required") ∧
  generate12PlayerSchedule halves eight_names None
    = inl (Error "Exactly 12 players are required") ∧
  (∃ rounds, generateRoundRobinSchedule halves eight_names = inr rounds) ∧
  (∃ rounds, generate12PlayerSchedule halves twelve_names None = inr rounds).
Proof.
  split_and!.
  - apply (generators_reject_exactly_wrong_counts halves twelve_names None).
    vm_compute. discriminate.
  - apply (generators_reject_exactly_wrong_counts halves eight_names None).
    vm_compute. discriminate.
  - apply (generators_reject_exactly_wrong_counts halves eight_names None).
    reflexivity.
  - apply (generators_reject_exactly_wrong_counts halves twelve_names None).
    reflexivity.
Defined.

Lemma pair_up_lookup (shuffledPlayers : list string) i :
  i < 6 →
  pair_up shuffledPlayers !! i
  = Some (shuffledPlayers !!! (2 * i), shuffledPlayers !!! (2 * i + 1)).
Proof.
  intros Hi. unfold pair_up.
  do 6 (destruct i as [|i]; [reflexivity|]). lia.
Qed.

(** C10: custom teams whose number is not 6 are dropped without an error:
    the schedule is the one built from the six consecutive pairs of the
    shuffled player list, the same as without custom teams. *)
Theorem malformed_custom_teams_are_ignored
    (random : nat → Q) (players : list string)
    (custom : list (string * string)) :
  length players = 12 → length custom ≠ 6 →
  let shuffledPlayers := shuffleArray random players in
  generate12PlayerSchedule random players (Some custom)
    = inr (rounds_of_rotation (pair_up shuffledPlayers) 5 0 1 [1; 2; 3; 4; 5]) ∧
  generate12PlayerSchedule random players (Some custom)
    = generate12PlayerSchedule random players None ∧
  shuffledPlayers ≡ₚ players ∧
  length (pair_up shuffledPlayers) = 6 ∧
  ∀ i, i < 6 →
    pair_up shuffledPlayers !! i
    = Some (shuffledPlayers !!! (2 * i), shuffledPlayers !!! (2 * i + 1)).
Proof.
  intros Hlen Hcustom shuffledPlayers.
  unfold generate12PlayerSchedule.
  rewrite !(decide_False (P := length players ≠ 12)) by (by intros []).
  rewrite decide_False by done.
  split_and!; try done.
  - apply shuffleArray_perm.
  - intros i. apply pair_up_lookup.
Qed.

Lemma malformed_custom_teams_are_ignored_witness :
  generate12PlayerSchedule halves twelve_names (Some (take 5 six_teams))
  = generate12PlayerSchedule halves twelve_names None.
Proof.
  refine (proj1 (proj2
    (malformed_custom_teams_are_ignored halves twelve_names (take 5 six_teams)
       _ _))).
  - reflexivity.
  - vm_compute. discriminate.
Defined.

(** ** Counting through a renaming *)

Lemma length_filter_fmap_iff {A B} (f : A → B) (P : B → Prop) (Q : A → Prop)
    `{!∀ x, Decision (P x)} `{!∀ x, Decision (Q x)} (l : list A) :
  Forall (λ x, P (f x) ↔ Q x) l →
  length (filter P (f <$> l)) = length (filter Q l).
Proof.
  induction 1 as [|x l Hx _ IH]; [done|].
  rewrite fmap_cons, !filter_cons.
  destruct (decide (P (f x))), (decide (Q x)); simpl; tauto || lia.
Qed.

Lemma length_filter_all_games (P : Game → Prop) `{!∀ g, Decision (P g)}
    (rounds : list Round) (n : nat) :
  Forall (λ r, length (filter P (games r)) = n) rounds →
  length (filter P (all_games rounds)) = length rounds * n.
Proof.
  unfold all_games. induction 1 as [|r rounds Hr _ IH]; [done|].
  rewrite bind_cons, filter_app, length_app, IH, Hr. simpl. lia.
Qed.

Lemma fmap_concat {A B} (f : A → B) (ls : list (list A)) :
  concat ((λ l : list A, f <$> l) <$> ls) = f <$> concat ls.
Proof.
  induction ls as [|l ls IH]; [done|].
  by rewrite fmap_cons, !concat_cons, fmap_app, IH.
Qed.

Lemma sides_all_games rounds :
  sides <$> all_games rounds = concat (sides_by_round rounds).
Proof.
  unfold all_games, sides_by_round.
  induction rounds as [|r rounds IH]; [done|].
  by rewrite bind_cons, fmap_app, IH.
Qed.

(** Positions below [n] named by an injective [f]. *)
Section Renaming.
Context {B : Type} `{EqDecision B} (f : nat → B) (n : nat).
Hypothesis f_inj : ∀ x y, x < n → y < n → f x = f y → x = y.

Lemma partners_in_rename i j sd :
  i < n → j < n → within n sd →
  partners_in (f i) (f j) (rename f sd) ↔ partners_in i j sd.
Proof.
  destruct sd as [[a b] [c d]]. unfold within, partners_in, same_pair, rename.
  simpl. intros Hi Hj (Ha & Hb & Hc & Hd).
  split; intros [[H|H]|[H|H]]; injection H as H1 H2;
    try (apply f_inj in H1; [|done..]; apply f_inj in H2; [|done..]);
    subst; tauto.
Qed.

Lemma plays_in_rename i sd :
  i < n → within n sd → plays_in (f i) (rename f sd) ↔ plays_in i sd.
Proof.
  destruct sd as [[a b] [c d]]. unfold within, plays_in, rename.
  simpl. intros Hi (Ha & Hb & Hc & Hd).
  split; intros [H|[H|[H|H]]];
    try (apply f_inj in H; [|done..]); subst; tauto.
Qed.

Lemma count_partners_rename i j l :
  i < n → j < n → Forall (within n) l →
  length (filter (partners_in (f i) (f j)) (rename f <$> l))
  = length (filter (partners_in i j) l).
Proof.
  intros Hi Hj Hl. apply length_filter_fmap_iff.
  eapply Forall_impl; [exact Hl|]. intros sd. by apply partners_in_rename.
Qed.

Lemma count_plays_rename i l :
  i < n → Forall (within n) l →
  length (filter (plays_in (f i)) (rename f <$> l))
  = length (filter (plays_in i) l).
Proof.
  intros Hi Hl. apply length_filter_fmap_iff.
  eapply Forall_impl; [exact Hl|]. intros sd. by apply plays_in_rename.
Qed.
End Renaming.

(** ** The 8-player template *)

Lemma schedule_within : Forall (Forall (within 8)) schedule_sides.
Proof. apply (bool_decide_unpack _). vm_compute. exact I. Qed.

(** Every two positions are partners exactly once. *)
Lemma schedule_partners_once i j :
  i < 8 → j < 8 → i ≠ j →
  length (filter (partners_in i j) (concat schedule_sides)) = 1.
Proof.
  intros Hi Hj Hne.
  do 8 (destruct i as [|i];
    [do 8 (destruct j as [|j]; [done || reflexivity|]); lia|]).
  lia.
Qed.

(** Every position plays exactly once in every round. *)
Lemma schedule_plays_once_a_round i :
  i < 8 →
  Forall (λ l, length (filter (plays_in i) l) = 1)
         schedule_sides.
Proof.
  intros Hi.
  do 8 (destruct i as [|i];
    [apply (bool_decide_unpack _); vm_compute; exact I|]).
  lia.
Qed.

(** The sides the generator builds are the template with the shuffled
    players put at its positions. *)
Lemma round_robin_sides (shuffledPlayers : list string) :
  sides_by_round (rounds_of_schedule shuffledPlayers 0 1 schedule)
  = (λ l : list _, rename (shuffledPlayers !!!.) <$> l) <$> schedule_sides.
Proof. reflexivity. Qed.

Lemma lookup_total_inj (s : list string) x y :
  NoDup s → x < length s → y < length s → s !!! x = s !!! y → x = y.
Proof.
  intros Hnd Hx Hy Heq.
  apply (NoDup_lookup s x y (s !!! x)); [done|..].
  - by apply list_lookup_lookup_total_lt.
  - rewrite Heq. by apply list_lookup_lookup_total_lt.
Qed.

Lemma elem_of_lookup_total (s : list string) p :
  p ∈ s → ∃ i, i < length s ∧ p = s !!! i.
Proof.
  intros [i Hi]%list_elem_of_lookup_1. exists i. split.
  - by eapply lookup_lt_Some.
  - symmetry. by apply list_lookup_total_correct.
Qed.

Section EightPlayers.
Variable shuffledPlayers : list string.
Hypothesis shuffled_length : length shuffledPlayers = 8.
Hypothesis shuffled_NoDup : NoDup shuffledPlayers.

Let rounds := rounds_of_schedule shuffledPlayers 0 1 schedule.

Lemma shuffled_inj x y :
  x < 8 → y < 8 → shuffledPlayers !!! x = shuffledPlayers !!! y → x = y.
Proof.
  intros Hx Hy. apply lookup_total_inj; by rewrite ?shuffled_length.
Qed.

Lemma count_partnered p q :
  length (filter (partnered p q) (all_games rounds))
  = length (filter (partners_in p q)
              (rename (shuffledPlayers !!!.) <$> concat schedule_sides)).
Proof.
  transitivity (length (filter (partners_in p q) (sides <$> all_games rounds))).
  { symmetry. apply length_filter_fmap_iff, Forall_forall. done. }
  rewrite sides_all_games. unfold rounds.
  by rewrite round_robin_sides, fmap_concat.
Qed.

Lemma eight_partnered_once p q :
  p ∈ shuffledPlayers → q ∈ shuffledPlayers → p ≠ q →
  length (filter (partnered p q) (all_games rounds)) = 1.
Proof.
  intros (i & Hi & ->)%elem_of_lookup_total (j & Hj & ->)%elem_of_lookup_total Hne.
  rewrite shuffled_length in Hi, Hj.
  rewrite count_partnered.
  etransitivity;
    [apply (count_partners_rename (shuffledPlayers !!!.) 8 shuffled_inj i j);
     [done..|apply Forall_concat; exact schedule_within]|].
  apply schedule_partners_once; [done..|]. by intros ->.
Qed.

Lemma eight_plays_once_a_round p :
  p ∈ shuffledPlayers →
  Forall (λ r, length (filter (plays p) (games r)) = 1) rounds.
Proof.
  intros (i & Hi & ->)%elem_of_lookup_total.
  rewrite shuffled_length in Hi.
  assert (Forall (λ l, length (filter (plays_in (shuffledPlayers !!! i)) l) = 1)
            (sides_by_round rounds)) as Hsides.
  { unfold rounds. rewrite round_robin_sides. apply Forall_fmap.
    pose proof schedule_within as Hin.
    pose proof (schedule_plays_once_a_round i Hi) as Hone.
    induction Hone as [|l ls Hl _ IH]; [constructor|].
    apply Forall_cons in Hin as [Hin1 Hin2]. constructor; [|by apply IH].
    etransitivity;
      [apply (count_plays_rename (shuffledPlayers !!!.) 8 shuffled_inj i);
       done|done]. }
  unfold sides_by_round in Hsides. apply Forall_fmap in Hsides.
  eapply Forall_impl; [exact Hsides|]. intros r <-. simpl.
  symmetry. apply length_filter_fmap_iff, Forall_forall. done.
Qed.
End EightPlayers.

(** C2: for 8 distinct names and any outcome of the shuffle, the generator
    returns 7 rounds of 2 unscored games, numbered 1 to 14 in order; every
    two of the players are partners on one side in exactly one game; and
    every player plays in exactly one game of every round, 7 games in
    all. *)
Theorem eight_player_schedule_is_a_design
    (random : nat → Q) (players : list string) :
  (∀ k, (0 <= random k ∧ random k < 1)%Q) →
  length players = 8 → NoDup players →
  ∃ rounds,
    generateRoundRobinSchedule random players = inr rounds ∧
    length rounds = 7 ∧
    Forall (λ r, length (games r) = 2) rounds ∧
    length (all_games rounds) = 14 ∧
    roundNumber <$> rounds = seq 1 7 ∧
    id <$> all_games rounds = seq 1 14 ∧
    Forall (λ g, team1Score g = None ∧ team2Score g = None) (all_games rounds) ∧
    (∀ p q, p ∈ players → q ∈ players → p ≠ q →
       length (filter (partnered p q) (all_games rounds)) = 1) ∧
    (∀ p, p ∈ players →
       Forall (λ r, length (filter (plays p) (games r)) = 1) rounds ∧
       length (filter (plays p) (all_games rounds)) = 7).
Proof.
  intros _ Hlen Hnd.
  pose proof (shuffleArray_perm random players) as Hperm.
  set (shuffledPlayers := shuffleArray random players) in *.
  assert (length shuffledPlayers = 8) as Hlen' by (by rewrite Hperm).
  assert (NoDup shuffledPlayers) as Hnd' by (by rewrite Hperm).
  exists (rounds_of_schedule shuffledPlayers 0 1 schedule).
  split_and!; try reflexivity.
  - unfold generateRoundRobinSchedule.
    rewrite decide_False by (by intros []). done.
  - repeat constructor.
  - repeat constructor.
  - intros p q Hp Hq. rewrite <- Hperm in Hp, Hq.
    by apply eight_partnered_once.
  - intros p Hp. rewrite <- Hperm in Hp.
    pose proof (eight_plays_once_a_round _ Hlen' Hnd' p Hp) as Hround.
    split; [done|].
    by rewrite (length_filter_all_games _ _ 1).
Qed.

Lemma eight_player_schedule_is_a_design_witness :
  ∃ rounds,
    generateRoundRobinSchedule halves eight_names = inr rounds ∧
    length (filter (partnered "Ann" "Hal") (all_games rounds)) = 1 ∧
    length (filter (plays "Cat") (all_games rounds)) = 7.
Proof.
  destruct (eight_player_schedule_is_a_design halves eight_names)
    as (rounds & Hgen & _ & _ & _ & _ & _ & _ & Hpair & Hplay).
  - intros k. unfold halves. split; [by vm_compute | reflexivity].
  - reflexivity.
  - apply (bool_decide_unpack _). vm_compute. exact I.
  - exists rounds. split_and!; [done| |].
    + apply Hpair; [apply (bool_decide_unpack _); vm_compute; exact I..|].
      discriminate.
    + apply Hplay. apply (bool_decide_unpack _). vm_compute. exact I.
Defined.

(** ** The rotation of the 12-player mode *)

(** Team positions below [n] named by [f], injective up to [R]. *)
Section RenamingTeams.
Context {B : Type} (R : B → B → Prop) `{!RelDecision R}.
Context (f : nat → B) (n : nat).
Hypothesis R_f : ∀ x y, x < n → y < n → R (f x) (f y) ↔ x = y.

Lemma meets_by_rename i j m :
  i < n → j < n → opposed_within n m →
  meets_by R (f i) (f j) (f m.1, f m.2) ↔ meets_by eq i j m.
Proof.
  intros Hi Hj [H1 H2]. unfold meets_by. simpl.
  by rewrite !R_f.
Qed.

Lemma involves_by_rename i m :
  i < n → opposed_within n m →
  involves_by R (f i) (f m.1, f m.2) ↔ involves_by eq i m.
Proof.
  intros Hi [H1 H2]. unfold involves_by. simpl.
  by rewrite !R_f.
Qed.

Lemma count_meets_rename i j l :
  i < n → j < n → Forall (opposed_within n) l →
  length (filter (meets_by R (f i) (f j)) ((λ m, (f m.1, f m.2)) <$> l))
  = length (filter (meets_by eq i j) l).
Proof.
  intros Hi Hj Hl. apply length_filter_fmap_iff.
  eapply Forall_impl; [exact Hl|]. intros m. by apply meets_by_rename.
Qed.

Lemma count_involves_rename i l :
  i < n → Forall (opposed_within n) l →
  length (filter (involves_by R (f i)) ((λ m, (f m.1, f m.2)) <$> l))
  = length (filter (involves_by eq i) l).
Proof.
  intros Hi Hl. apply length_filter_fmap_iff.
  eapply Forall_impl; [exact Hl|]. intros m. by apply involves_by_rename.
Qed.
End RenamingTeams.

Lemma rotation_within : Forall (Forall (opposed_within 6)) rotation.
Proof. apply (bool_decide_unpack _). vm_compute. exact I. Qed.

(** Every two team positions are opposed exactly once. *)
Lemma rotation_meets_once i j :
  i < 6 → j < 6 → i ≠ j →
  length (filter (meets_by eq i j) (concat rotation)) = 1.
Proof.
  intros Hi Hj Hne.
  do 6 (destruct i as [|i];
    [do 6 (destruct j as [|j]; [done || reflexivity|]); lia|]).
  lia.
Qed.

(** Every team position is in exactly one game of every round. *)
Lemma rotation_involves_once_a_round i :
  i < 6 →
  Forall (λ l, length (filter (involves_by eq i) l) = 1) rotation.
Proof.
  intros Hi.
  do 6 (destruct i as [|i];
    [apply (bool_decide_unpack _); vm_compute; exact I|]).
  lia.
Qed.

(** The oppositions the generator builds are those of [rotation], with the
    teams put at its positions. *)
Lemma rotation_sides (teams : list (string * string)) :
  sides_by_round (rounds_of_rotation teams 5 0 1 [1; 2; 3; 4; 5])
  = (λ l : list (nat * nat), (λ m, (teams !!! m.1, teams !!! m.2)) <$> l)
      <$> rotation.
Proof. reflexivity. Qed.

(** Teams that share no player are different teams. *)
Lemma teams_apart (teams : list (string * string)) x y t u :
  NoDup (teams ≫= members) →
  teams !! x = Some t → teams !! y = Some u → same_team t u → x = y.
Proof.
  intros Hnd Ht Hu Hsame.
  assert (t.1 ∈ members t) as Hin1 by apply list_elem_of_here.
  assert (t.1 ∈ members u) as Hin2.
  { destruct Hsame as [->| ->];
      [apply list_elem_of_here | apply list_elem_of_further, list_elem_of_here]. }
  clear Hsame. revert x y Hnd Ht Hu.
  induction teams as [|t0 teams IH]; intros x y Hnd Ht Hu; [done|].
  rewrite bind_cons in Hnd.
  apply NoDup_app in Hnd as (_ & Hdis & Hnd).
  destruct x as [|x], y as [|y]; simpl in Ht, Hu.
  - done.
  - injection Ht as ->. destruct (Hdis _ Hin1).
    apply list_elem_of_bind. exists u. split; [done|].
    by eapply list_elem_of_lookup_2.
  - injection Hu as ->. destruct (Hdis _ Hin2).
    apply list_elem_of_bind. exists t. split; [done|].
    by eapply list_elem_of_lookup_2.
  - f_equal. by eapply IH.
Qed.

Section TwelvePlayers.
Variable teams : list (string * string).
Hypothesis teams_length : length teams = 6.
Hypothesis teams_NoDup : NoDup (teams ≫= members).

Let rounds := rounds_of_rotation teams 5 0 1 [1; 2; 3; 4; 5].

Lemma teams_inj x y :
  x < 6 → y < 6 → same_team (teams !!! x) (teams !!! y) ↔ x = y.
Proof.
  intros Hx Hy. split.
  - apply (teams_apart teams); [done|..];
      apply list_lookup_lookup_total_lt; by rewrite teams_length.
  - intros ->. by left.
Qed.

Lemma twelve_meet_once t u :
  t ∈ teams → u ∈ teams → ¬ same_team t u →
  length (filter (meets t u) (all_games rounds)) = 1.
Proof.
  intros [i Hi]%list_elem_of_lookup_1 [j Hj]%list_elem_of_lookup_1 Hne.
  pose proof (lookup_lt_Some _ _ _ Hi) as Hi'.
  pose proof (lookup_lt_Some _ _ _ Hj) as Hj'.
  rewrite teams_length in Hi', Hj'.
  apply list_lookup_total_correct in Hi, Hj. subst t u.
  transitivity (length (filter (meets_by same_team (teams !!! i) (teams !!! j))
                          (sides <$> all_games rounds))).
  { symmetry. apply length_filter_fmap_iff, Forall_forall. done. }
  rewrite sides_all_games. unfold rounds.
  rewrite rotation_sides, fmap_concat.
  etransitivity;
    [apply (count_meets_rename same_team (teams !!!.) 6 teams_inj i j);
     [done..|apply Forall_concat; exact rotation_within]|].
  apply rotation_meets_once; [done..|].
  intros ->. apply Hne. by left.
Qed.

Lemma twelve_involved_once_a_round t :
  t ∈ teams →
  Forall (λ r, length (filter (involves t) (games r)) = 1) rounds.
Proof.
  intros [i Hi]%list_elem_of_lookup_1.
  pose proof (lookup_lt_Some _ _ _ Hi) as Hi'.
  rewrite teams_length in Hi'.
  apply list_lookup_total_correct in Hi. subst t.
  assert (Forall (λ l, length (filter (involves_by same_team (teams !!! i)) l) = 1)
            (sides_by_round rounds)) as Hsides.
  { unfold rounds. rewrite rotation_sides. apply Forall_fmap.
    pose proof rotation_within as Hin.
    pose proof (rotation_involves_once_a_round i Hi') as Hone.
    induction Hone as [|l ls Hl _ IH]; [constructor|].
    apply Forall_cons in Hin as [Hin1 Hin2]. constructor; [|by apply IH].
    etransitivity;
      [apply (count_involves_rename same_team (teams !!!.) 6 teams_inj i);
       done|done]. }
  unfold sides_by_round in Hsides. apply Forall_fmap in Hsides.
  eapply Forall_impl; [exact Hsides|]. intros r <-. simpl.
  symmetry. apply length_filter_fmap_iff, Forall_forall. done.
Qed.

Lemma twelve_sides_are_teams :
  Forall (λ g, team1 g ∈ teams ∧ team2 g ∈ teams) (all_games rounds).
Proof.
  assert (∀ i, i < 6 → teams !!! i ∈ teams) as Hin.
  { intros i Hi. eapply list_elem_of_lookup_2.
    apply list_lookup_lookup_total_lt. by rewrite teams_length. }
  unfold rounds, all_games. simpl.
  repeat (apply Forall_cons; split; [split; apply Hin; lia|]).
  apply Forall_nil_2.
Qed.
End TwelvePlayers.

Lemma pair_up_members (shuffledPlayers : list string) :
  length shuffledPlayers = 12 →
  length (pair_up shuffledPlayers) = 6 ∧
  pair_up shuffledPlayers ≫= members = shuffledPlayers.
Proof.
  intros Hlen. split; [done|].
  do 12 (destruct shuffledPlayers as [|? shuffledPlayers]; [done|]).
  by destruct shuffledPlayers.
Qed.

(** C3: for 12 distinct names, any outcome of the shuffle, and custom teams
    that, when there are six of them, partition the players, the generator
    returns 5 rounds of 3 games; the sides of the games are six teams that
    share no player; every two of the teams meet in exactly one game; and
    every team plays in exactly one game of every round, 5 games in all. *)
Theorem twelve_player_schedule_is_round_robin
    (random : nat → Q) (players : list string)
    (customTeams : option (list (string * string))) :
  (∀ k, (0 <= random k ∧ random k < 1)%Q) →
  length players = 12 → NoDup players →
  (∀ custom, customTeams = Some custom → length custom = 6 →
             custom ≫= members ≡ₚ players) →
  ∃ rounds teams,
    generate12PlayerSchedule random players customTeams = inr rounds ∧
    length rounds = 5 ∧
    Forall (λ r, length (games r) = 3) rounds ∧
    length (all_games rounds) = 15 ∧
    (length teams = 6 ∧
     teams ≫= members ≡ₚ players ∧
     (∀ x y t u, teams !! x = Some t → teams !! y = Some u →
                 same_team t u → x = y) ∧
     Forall (λ g, team1 g ∈ teams ∧ team2 g ∈ teams) (all_games rounds)) ∧
    (∀ t u, t ∈ teams → u ∈ teams → ¬ same_team t u →
       length (filter (meets t u) (all_games rounds)) = 1) ∧
    (∀ t, t ∈ teams →
       Forall (λ r, length (filter (involves t) (games r)) = 1) rounds ∧
       length (filter (involves t) (all_games rounds)) = 5).
Proof.
  intros _ Hlen Hnd Hcustom.
  pose proof (shuffleArray_perm random players) as Hperm.
  set (shuffledPlayers := shuffleArray random players) in *.
  assert (length shuffledPlayers = 12) as Hlen' by (by rewrite Hperm).
  destruct (pair_up_members shuffledPlayers Hlen') as [Hsix Hmembers].
  assert (∃ teams,
            generate12PlayerSchedule random players customTeams
              = inr (rounds_of_rotation teams 5 0 1 [1; 2; 3; 4; 5]) ∧
            length teams = 6 ∧ teams ≫= members ≡ₚ players)
    as (teams & Hgen & Hteams & Hpart).
  { unfold generate12PlayerSchedule.
    rewrite decide_False by (by intros []).
    fold shuffledPlayers.
    destruct customTeams as [custom|];
      [destruct (decide (length custom = 6)) as [Hc|Hc]|].
    - exists custom. auto.
    - exists (pair_up shuffledPlayers). by rewrite Hmembers.
    - exists (pair_up shuffledPlayers). by rewrite Hmembers. }
  assert (NoDup (teams ≫= members)) as Hnd' by (by rewrite Hpart).
  exists (rounds_of_rotation teams 5 0 1 [1; 2; 3; 4; 5]), teams.
  split_and!; try done.
  - repeat constructor.
  - intros x y t u. by apply teams_apart.
  - by apply twelve_sides_are_teams.
  - by apply twelve_meet_once.
  - intros t Ht.
    pose proof (twelve_involved_once_a_round _ Hteams Hnd' t Ht) as Hround.
    split; [done|].
    by rewrite (length_filter_all_games _ _ 1).
Qed.

Lemma twelve_player_schedule_is_round_robin_witness :
  ∃ rounds,
    generate12PlayerSchedule halves twelve_names (Some six_teams) = inr rounds ∧
    length rounds = 5.
Proof.
  destruct (twelve_player_schedule_is_round_robin halves twelve_names
              (Some six_teams))
    as (rounds & teams & Hgen & Hfive & _).
  - intros k. unfold halves. split; [by vm_compute | reflexivity].
  - reflexivity.
  - apply (bool_decide_unpack _). vm_compute. exact I.
  - intros custom [= <-] _. apply (bool_decide_unpack _). vm_compute. exact I.
  - by exists rounds.
Defined.

(** * Further properties of the scheduler and of the application state *)

(** ** The records of the player statistics *)

Lemma consistent_book_player score won stats q :
  all_consistent stats → all_consistent (book_player score won stats q).
Proof.
  intros Hinv p s. unfold book_player.
  destruct (decide (q = p)) as [->|Hne].
  - rewrite get_set_eq. intros [= <-].
    assert (consistent (default fresh_stats (Js.get stats p))) as Hs.
    { destruct (Js.get stats p) as [s0|] eqn:Hs0; simpl.
      - by eapply Hinv.
      - unfold consistent, MAX_POINTS_PER_GAME. simpl. lia. }
    destruct Hs as (H1 & H2 & H3 & H4 & H5 & H6).
    unfold consistent in *. unfold MAX_POINTS_PER_GAME in *. simpl.
    rewrite sumZ_app, length_app. simpl. destruct won; lia.
  - rewrite get_set_ne by done. apply Hinv.
Qed.

Lemma consistent_book_game stats g :
  all_consistent stats → all_consistent (book_game stats g).
Proof.
  intros Hinv. unfold book_game.
  destruct (team1Score g), (team2Score g); try done.
  simpl. by repeat apply consistent_book_player.
Qed.

Lemma scores_of_book_player score won stats q p :
  scores_of (book_player score won stats q) p
  = scores_of stats p ++ (if decide (q = p) then [score] else []).
Proof.
  unfold scores_of, book_player. destruct (decide (q = p)) as [->|Hne].
  - rewrite get_set_eq. simpl. by destruct (Js.get stats p).
  - rewrite get_set_ne by done. by rewrite app_nil_r.
Qed.

Lemma scores_of_book_game stats g p :
  scores_of (book_game stats g) p = scores_of stats p ++ scores_in p g.
Proof.
  unfold book_game, scores_in, members.
  destruct (team1Score g) as [s1|], (team2Score g) as [s2|];
    try by rewrite app_nil_r.
  cbn [foldl]. rewrite !scores_of_book_player, !filter_cons, !filter_nil.
  repeat case_decide; simpl; by rewrite <- ?app_assoc, ?app_nil_r.
Qed.

(** X3: when every player of a scored game has an ordinary name, the
    statistics are returned, and the record of a player holds the scores of
    the player's sides in the order the games are played; its other fields
    follow from that history: the total is its sum, the games played are its length, every
    game is booked as a win or as a loss, and the points lost are 21 per
    game minus the total. *)
Theorem player_record_is_its_history rounds :
  ordinary_names rounds →
  ∃ stats, calculatePlayerStats rounds = inr stats ∧
    ∀ p s, Js.get stats p = Some s →
      gameScores s = all_games rounds ≫= scores_in p ∧
      totalPoints s = sumZ (gameScores s) ∧
      gamesPlayed s = Z.of_nat (length (gameScores s)) ∧
      (wins s + losses s)%Z = gamesPlayed s ∧
      pointsLost s = (21 * gamesPlayed s - totalPoints s)%Z ∧
      (0 <= wins s)%Z ∧ (0 <= losses s)%Z.
Proof.
  intros Hnames. exists (booked_stats rounds).
  split; [by apply calculatePlayerStats_booked|].
  intros p s Hget. rewrite booked_stats_fold in Hget. split.
  - assert (∀ stats, scores_of (foldl book_game stats (all_games rounds)) p
                     = scores_of stats p ++ (all_games rounds ≫= scores_in p))
      as Hgen.
    { clear Hget. induction (all_games rounds) as [|g gs IH]; intros stats.
      - by rewrite app_nil_r.
      - cbn [foldl]. rewrite IH, scores_of_book_game, bind_cons.
        by rewrite <- app_assoc. }
    specialize (Hgen []). unfold scores_of in Hgen.
    by rewrite Hget in Hgen.
  - assert (∀ stats, all_consistent stats →
                     all_consistent (foldl book_game stats (all_games rounds)))
      as Hgen.
    { clear Hget.
      induction (all_games rounds) as [|g gs IH]; intros stats Hinv; [done|].
      cbn [foldl]. by apply IH, consistent_book_game. }
    change (consistent s). eapply (Hgen []); [|exact Hget].
    intros ? ? [=].
Qed.

Lemma player_record_is_its_history_witness :
  ∃ stats s, calculatePlayerStats sample_rounds = inr stats ∧
             Js.get stats "Alice" = Some s ∧
             gameScores s = all_games sample_rounds ≫= scores_in "Alice" ∧
             all_games sample_rounds ≫= scores_in "Alice" = [21; 19; 25]%Z.
Proof.
  destruct (player_record_is_its_history sample_rounds)
    as (stats & Hstats & Hrecord).
  { apply (bool_decide_unpack _). vm_compute. exact I. }
  destruct (Js.get stats "Alice") as [s|] eqn:Hs.
  - exists stats, s. split_and!; [done..| |reflexivity].
    apply (Hrecord "Alice" s Hs).
  - exfalso. vm_compute in Hstats. injection Hstats as <-.
    vm_compute in Hs. discriminate.
Defined.

(** ** The records of the team statistics *)

Lemma total_set field (m : Js.props TeamStats.t) k v :
  total field (Js.set m k v)
  = (total field m - from_option field 0 (Js.get m k) + field v)%Z.
Proof.
  unfold total, Js.values. induction m as [|[k' v'] m IH]; cbn [Js.set Js.get].
  - rewrite !fmap_cons, sumZ_cons. simpl. lia.
  - destruct (decide (k' = k)) as [->|Hne].
    + rewrite !fmap_cons, !sumZ_cons. simpl. lia.
    + rewrite !fmap_cons, !sumZ_cons, IH. simpl. lia.
Qed.

Lemma total_update_same field (m : Js.props TeamStats.t) k f :
  (∀ v, field (f v) = field v) →
  total field (Js.update m k f) = total field m.
Proof.
  intros Hf. unfold Js.update. destruct (Js.get m k) as [v|] eqn:Hget; [|done].
  rewrite total_set, Hget, Hf. simpl. lia.
Qed.

Lemma total_update_const field (m : Js.props TeamStats.t) k f c :
  (∀ v, field (f v) = (field v + c)%Z) → is_Some (Js.get m k) →
  total field (Js.update m k f) = (total field m + c)%Z.
Proof.
  intros Hf [v Hget]. unfold Js.update. rewrite Hget.
  rewrite total_set, Hget, Hf. simpl. lia.
Qed.

Lemma total_init_team field m key team :
  field (fresh_team key team) = 0%Z →
  total field (init_team m key team) = total field m.
Proof.
  intros Hf. unfold init_team. destruct (Js.get m key) eqn:Hget; [done|].
  rewrite total_set, Hget, Hf. simpl. lia.
Qed.

Lemma has_update (m : Js.props TeamStats.t) k f k' :
  is_Some (Js.get m k') → is_Some (Js.get (Js.update m k f) k').
Proof.
  intros [v Hv]. rewrite get_update, Hv. case_decide; by eexists.
Qed.

Lemma has_init_team m key team k' :
  is_Some (Js.get m k') ∨ key = k' →
  is_Some (Js.get (init_team m key team) k').
Proof.
  unfold init_team. intros [[v Hv]| <-].
  - destruct (Js.get m key) eqn:Hget; [by eexists|].
    destruct (decide (key = k')) as [->|Hne]; [congruence|].
    rewrite get_set_ne by done. by eexists.
  - destruct (Js.get m key) eqn:Hget; [by eexists|].
    rewrite get_set_eq. by eexists.
Qed.

Ltac total_step :=
  first
    [ rewrite total_update_same by (intros; reflexivity)
    | erewrite total_update_const;
      [| intros; simpl; reflexivity
       | repeat apply has_update;
         repeat first [ apply has_init_team; right; reflexivity
                      | apply has_init_team; left ] ] ].

Lemma balanced_record_team_game m g :
  balanced m → balanced (record_team_game m g).
Proof.
  unfold balanced, record_team_game. intros [Hw Hp].
  destruct (team1Score g) as [s1|], (team2Score g) as [s2|]; try done.
  destruct (s1 >? s2)%Z, (s2 >? s1)%Z;
    repeat total_step;
    rewrite !total_init_team by reflexivity; split; lia.
Qed.

Lemma team_consistent_record_team_game m g :
  all_team_consistent m → all_team_consistent (record_team_game m g).
Proof.
  intros Hinv k t. unfold record_team_game.
  destruct (team1Score g) as [s1|], (team2Score g) as [s2|]; try apply Hinv.
  set (m2 := init_team (init_team m _ _) _ _).
  assert (all_team_consistent m2) as Hinv2.
  { assert (∀ m key team, all_team_consistent m →
                          all_team_consistent (init_team m key team)) as Hinit.
    { clear. intros m key team Hinv k t. unfold init_team.
      destruct (Js.get m key) eqn:Hget; [apply Hinv|].
      destruct (decide (key = k)) as [->|Hne].
      - rewrite get_set_eq. intros [= <-].
        unfold team_consistent, MAX_POINTS. simpl. lia.
      - rewrite get_set_ne by done. apply Hinv. }
    by do 2 apply Hinit. }
  specialize (Hinv2 k). clearbody m2.
  pose proof (Z.gtb_spec s1 s2) as H12. pose proof (Z.gtb_spec s2 s1) as H21.
  destruct (s1 >? s2)%Z, (s2 >? s1)%Z; inversion H12; inversion H21; try lia;
    rewrite !get_update; repeat case_decide;
    destruct (Js.get m2 k) as [v|]; simpl; try done;
    intros [= <-]; destruct (Hinv2 v eq_refl) as (? & ? & ? & ? & ?);
    unfold team_consistent, MAX_POINTS in *;
    cbn [TeamStats.pointsScored TeamStats.pointsLost TeamStats.wins
         TeamStats.losses TeamStats.gameScores
         add_points add_win add_loss set_differential];
    rewrite ?length_app, ?sumZ_app; cbn [length]; rewrite ?sumZ_cons;
    change (sumZ []) with 0%Z; unfold MAX_POINTS; lia.
Qed.

(** X4: every record of the team statistics is consistent with its score
    history (points scored are its sum, points lost are 21 per game minus
    the points scored, wins and losses do not exceed the games played), and
    over all teams the wins equal the losses, the points scored equal the
    points conceded, and the point differentials add up to zero. *)
Theorem team_records_balance rounds :
  let ranked := calculateTeamStats rounds in
  Forall team_consistent ranked ∧
  sumZ (TeamStats.wins <$> ranked) = sumZ (TeamStats.losses <$> ranked) ∧
  sumZ (TeamStats.pointsScored <$> ranked)
    = sumZ (TeamStats.pointsConceded <$> ranked) ∧
  sumZ (TeamStats.pointDifferential <$> ranked) = 0%Z.
Proof.
  intros ranked. subst ranked. unfold calculateTeamStats.
  pose proof (teamMap_of_invariant _ balanced_record_team_game rounds) as Hbal.
  pose proof (teamMap_of_invariant _ team_consistent_record_team_game rounds)
    as Hcons.
  pose proof (teamMap_of_invariant _ differentials_record_team_game rounds)
    as Hdiff.
  pose proof (keys_teamMap_of rounds) as Hkeys.
  assert (NoDup (Js.keys (teamMap_of rounds))) as Hnd
    by (rewrite Hkeys; apply first_seen_NoDup).
  destruct Hbal as [Hw Hp]; [done|]. unfold total in Hw, Hp.
  assert (∀ field, sumZ (field <$> Js.sort compare_teams
                                     (Js.values (teamMap_of rounds)))
                   = sumZ (field <$> Js.values (teamMap_of rounds))) as Hsum.
  { intros field. apply sumZ_perm. by rewrite sort_perm. }
  assert (Forall (λ t, team_consistent t ∧ differential_ok t)
            (Js.values (teamMap_of rounds))) as Hall.
  { apply Forall_forall. intros t Hin.
    apply list_elem_of_fmap in Hin as [[k t'] [-> Hin]].
    apply (elem_get_Some _ _ _ Hnd) in Hin.
    split; [eapply Hcons | eapply Hdiff]; done || by intros ? ? [=]. }
  split_and!.
  - rewrite sort_perm. eapply Forall_impl; [exact Hall|]. by intros t [? _].
  - by rewrite !Hsum.
  - by rewrite !Hsum.
  - rewrite Hsum.
    assert (sumZ (TeamStats.pointDifferential <$> Js.values (teamMap_of rounds))
            = (sumZ (TeamStats.pointsScored <$> Js.values (teamMap_of rounds))
               - sumZ (TeamStats.pointsConceded <$> Js.values (teamMap_of rounds)))%Z)
      as ->; [|lia].
    clear -Hall. induction Hall as [|t l [_ Ht] _ IH]; [done|].
    rewrite !fmap_cons, !sumZ_cons, IH. unfold differential_ok in Ht. lia.
Qed.

(** ** Payouts of the 12-player mode *)

Lemma foldl_bind {A B C} (f : A → C → A) (h : B → list C) (a : A) (l : list B) :
  foldl (λ a b, foldl f a (h b)) a l = foldl f a (l ≫= h).
Proof.
  revert a. induction l as [|b l IH]; intros a; [done|].
  cbn [foldl]. by rewrite IH, bind_cons, foldl_app.
Qed.

(** Adding a bonus that depends on an index carried with each player, to
    entries that all hold the same amount. *)
Lemma bonus_loop (bonus : nat → option Z) (fee : Z)
    (l : list (string * nat)) (paid : Js.props Z) :
  NoDup (Js.keys paid ++ l.*1) →
  foldl (λ payouts e,
           match bonus e.2 with
           | Some b => Js.update payouts e.1 (λ v, (v + b)%Z)
           | None => payouts
           end)
        (paid ++ ((λ e, (e.1, fee)) <$> l)) l
  = paid ++ ((λ e, (e.1, (fee + default 0 (bonus e.2))%Z)) <$> l).
Proof.
  revert paid. induction l as [|[p i] l IH]; intros paid Hnd; [done|].
  rewrite fmap_cons in Hnd. cbn [fst] in Hnd.
  assert (p ∉ Js.keys paid) as Hp.
  { apply NoDup_app in Hnd as (_ & Hdis & _). intros Hin.
    apply (Hdis _ Hin). apply list_elem_of_here. }
  rewrite !fmap_cons. cbn [foldl fst snd].
  assert (match bonus i with
          | Some b =>
              Js.update (paid ++ (p, fee) :: ((λ e, (e.1, fee)) <$> l)) p
                (λ v, (v + b)%Z)
          | None => paid ++ (p, fee) :: ((λ e, (e.1, fee)) <$> l)
          end
          = (paid ++ [(p, (fee + default 0 (bonus i))%Z)])
              ++ ((λ e, (e.1, fee)) <$> l)) as ->.
  { destruct (bonus i) as [b|]; simpl.
    - rewrite update_app_new by done. by rewrite <- app_assoc.
    - rewrite Z.add_0_r. by rewrite <- app_assoc. }
  rewrite IH.
  - by rewrite <- app_assoc.
  - unfold Js.keys in *. rewrite fmap_app, <- app_assoc. exact Hnd.
Qed.

Lemma ranked_members_players (teamStats : list TeamStats.t) :
  (ranked_members teamStats).*1
  = teamStats ≫= (λ team, members (TeamStats.players team)).
Proof.
  unfold ranked_members.
  induction teamStats as [|t l IH] using rev_ind; [done|].
  rewrite imap_app, concat_app, fmap_app, IH, bind_app. by simpl.
Qed.

Lemma ranked_members_app (l1 l2 : list TeamStats.t) :
  ranked_members (l1 ++ l2)
  = ranked_members l1
    ++ concat (imap (λ j team, (λ player, (player, length l1 + j))
                                 <$> members (TeamStats.players team)) l2).
Proof. unfold ranked_members. by rewrite imap_app, concat_app. Qed.

Lemma team_prize_loop_flat (l : list TeamStats.t) (n : nat) (payouts : Js.props Z) :
  foldl (λ payouts it,
           foldl (add_team_prize it.1) payouts (members (TeamStats.players it.2)))
        payouts (imap (λ j team, (n + j, team)) l)
  = foldl (λ payouts e, add_team_prize e.2 payouts e.1) payouts
          (concat (imap (λ j team, (λ player, (player, n + j))
                                     <$> members (TeamStats.players team)) l)).
Proof.
  revert n payouts. induction l as [|t l IH]; intros n payouts; [done|].
  rewrite !imap_cons, concat_cons, foldl_app. cbn [foldl fst snd].
  rewrite (imap_ext (_ ∘ S) (λ j team, (S n + j, team)))
    by (intros; simpl; f_equal; lia).
  rewrite (imap_ext (_ ∘ S)
             (λ j team, (λ player, (player, S n + j))
                          <$> members (TeamStats.players team)))
    by (intros; simpl; repeat f_equal; lia).
  by rewrite IH.
Qed.

Lemma team_prizes_beyond_third (l : list (string * nat)) (payouts : Js.props Z) :
  Forall (λ e, 3 ≤ e.2) l →
  foldl (λ payouts e, add_team_prize e.2 payouts e.1) payouts l = payouts.
Proof.
  induction 1 as [|[p i] l Hi _ IH]; [done|].
  cbn [foldl fst snd]. unfold add_team_prize at 2.
  rewrite (lookup_ge_None_2 teamPrizes i) by (simpl in *; lia). exact IH.
Qed.

Lemma team_prize_loop_all (teamStats : list TeamStats.t) (payouts : Js.props Z) :
  foldl (λ payouts e, add_team_prize e.2 payouts e.1) payouts
        (ranked_members (take 3 teamStats))
  = foldl (λ payouts e, add_team_prize e.2 payouts e.1) payouts
          (ranked_members teamStats).
Proof.
  rewrite <- (take_drop 3 teamStats) at 2.
  rewrite ranked_members_app, foldl_app.
  symmetry. apply team_prizes_beyond_third.
  destruct (decide (length teamStats ≤ 3)) as [Hle|Hgt].
  - by rewrite drop_ge.
  - rewrite length_take, Nat.min_l by lia.
    apply Forall_concat, Forall_forall. intros ips Hips.
    apply elem_of_lookup_imap_1 in Hips as (j & t & -> & _).
    unfold members.
    repeat (apply Forall_cons; split; [simpl; lia|]). apply Forall_nil_2.
Qed.

Lemma calculate12PlayerPayouts_ranked rounds entryFee :
  NoDup (calculateTeamStats rounds ≫= λ team, members (TeamStats.players team)) →
  "__proto__" ∉ (calculateTeamStats rounds
                   ≫= λ team, members (TeamStats.players team)) →
  calculate12PlayerPayouts rounds entryFee
  = (λ e, (e.1, (- entryFee + team_prize_at e.2)%Z))
      <$> ranked_members (calculateTeamStats rounds).
Proof.
  intros Hnd Hproto. unfold calculate12PlayerPayouts.
  set (teamStats := calculateTeamStats rounds) in *.
  rewrite <- ranked_members_players in Hnd, Hproto.
  rewrite (foldl_bind (λ payouts player, Js.assign payouts player (- entryFee)%Z)
             (λ team, members (TeamStats.players team))).
  rewrite <- ranked_members_players.
  rewrite (foldl_fmap (λ payouts player, Js.assign payouts player (- entryFee)%Z)).
  rewrite (assign_loop (- entryFee)%Z (ranked_members teamStats) [])
    by (apply Forall_forall; by intros k Hk ->).
  rewrite (fees_loop (- entryFee)%Z (ranked_members teamStats) []) by done.
  rewrite (team_prize_loop_flat (take 3 teamStats) 0).
  change (concat (imap _ (take 3 teamStats)))
    with (ranked_members (take 3 teamStats)).
  rewrite team_prize_loop_all. cbn [app].
  exact (bonus_loop (λ i, teamPrizes !! i) (- entryFee)%Z
           (ranked_members teamStats) [] Hnd).
Qed.

Lemma team_prize_sum_S n :
  sumZ (take (S n) teamPrizes) = (sumZ (take n teamPrizes) + team_prize_at n)%Z.
Proof.
  destruct n as [|[|[|n]]]; try reflexivity.
  unfold teamPrizes, team_prize_at. simpl. by rewrite take_nil.
Qed.

Lemma sum_of_ranked_members (c : Z) (teamStats : list TeamStats.t) :
  sumZ (Js.values ((λ e, (e.1, (c + team_prize_at e.2)%Z))
                     <$> ranked_members teamStats))
  = (2 * sumZ (take (length teamStats) teamPrizes)
     + 2 * Z.of_nat (length teamStats) * c)%Z.
Proof.
  unfold Js.values. induction teamStats as [|t l IH] using rev_ind; [done|].
  rewrite ranked_members_app, !fmap_app, sumZ_app, IH, length_app.
  cbn [imap concat members fmap list_fmap app length fst snd].
  rewrite !sumZ_cons, Nat.add_0_r, Nat.add_1_r, team_prize_sum_S.
  change (sumZ []) with 0%Z. lia.
Qed.

(** An object never gets an own property [__proto__] from these loops. *)
Lemma calculate12PlayerPayouts_no_proto rounds entryFee :
  Js.get (calculate12PlayerPayouts rounds entryFee) "__proto__" = None.
Proof.
  unfold calculate12PlayerPayouts.
  set (P := λ o : Js.props Z, Js.get o "__proto__" = None).
  assert (∀ {A} (f : Js.props Z → A → Js.props Z) l o,
            (∀ o x, P o → P (f o x)) → P o → P (foldl f o l)) as Hfold.
  { intros A f l. induction l as [|x l IH]; intros o Hf Ho; [done|].
    cbn [foldl]. apply IH; auto. }
  change (P (foldl (λ payouts it,
                      foldl (add_team_prize it.1) payouts
                            (members (TeamStats.players it.2)))
                   (foldl (λ payouts team,
                             foldl (λ payouts player,
                                      Js.assign payouts player (- entryFee)%Z)
                                   payouts (members (TeamStats.players team)))
                          [] (calculateTeamStats rounds))
                   (imap pair (take 3 (calculateTeamStats rounds))))).
  apply Hfold; [|apply Hfold; [|done]].
  - intros o it Ho. apply Hfold; [|done]. intros o' player Ho'.
    unfold P, add_team_prize in *.
    destruct (teamPrizes !! it.1); [|done].
    rewrite get_update, Ho'. by case_decide.
  - intros o team Ho. apply Hfold; [|done]. intros o' player Ho'.
    unfold P in *. rewrite get_assign, decide_False; [done|]. by intros [_ ?].
Qed.

Lemma elem_of_concat_2 {A} (x : A) (l : list A) (ls : list (list A)) :
  l ∈ ls → x ∈ l → x ∈ concat ls.
Proof.
  induction ls as [|l' ls IH]; [by intros ?%elem_of_nil|].
  intros [->|Hl]%elem_of_cons Hx; simpl; apply elem_of_app; auto.
Qed.

Lemma elem_of_ranked_members (teamStats : list TeamStats.t) i team p :
  teamStats !! i = Some team → p ∈ members (TeamStats.players team) →
  (p, i) ∈ ranked_members teamStats.
Proof.
  intros Hteam Hp. unfold ranked_members.
  apply (elem_of_concat_2 _
           ((λ player, (player, i)) <$> members (TeamStats.players team))).
  - apply elem_of_lookup_imap. by exists i, team.
  - by apply (list_elem_of_fmap_2 (λ player, (player, i))).
Qed.

(** X5: a name [__proto__] never gets an entry.  When no player is on two
    of the ranked teams and none is called [__proto__], the 12-player
    payouts give both players of the team at rank index [i] the team prize
    of that rank (6, 4, 2, then nothing) minus the fee; the returned object
    lists exactly the players of the teams, in rank order when no name is an
    array index; the nets add up to twice the prizes of the ranks that are
    filled minus one fee per player, which is 24 minus the fees from three
    teams on and 0 for six teams at a fee of 2. *)
Theorem twelve_player_payouts_by_rank rounds entryFee :
  let ranked := calculateTeamStats rounds in
  let payouts := calculate12PlayerPayouts rounds entryFee in
  let n := length ranked in
  let players := ranked ≫= λ team, members (TeamStats.players team) in
  Js.get payouts "__proto__" = None ∧
  (NoDup players → "__proto__" ∉ players →
   (∀ i team p, ranked !! i = Some team →
                p ∈ members (TeamStats.players team) →
                Js.get payouts p = Some (- entryFee + team_prize_at i)%Z) ∧
   Js.keys (Js.entries payouts) ≡ₚ players ∧
   (Forall (λ p, Js.array_index p = None) players →
    Js.keys (Js.entries payouts) = players) ∧
   sumZ (Js.values payouts)
     = (2 * sumZ (take n teamPrizes) - 2 * Z.of_nat n * entryFee)%Z ∧
   (3 ≤ n → sumZ (Js.values payouts)
            = (2 * (6 + 4 + 2) - 2 * Z.of_nat n * entryFee)%Z) ∧
   (n = 6 → entryFee = 2%Z → sumZ (Js.values payouts) = 0%Z)).
Proof.
  intros ranked payouts n players. subst ranked payouts n players.
  split; [apply calculate12PlayerPayouts_no_proto|]. intros Hnd Hproto.
  pose proof (calculate12PlayerPayouts_ranked rounds entryFee Hnd Hproto)
    as Hpay.
  assert (Js.keys (calculate12PlayerPayouts rounds entryFee)
          = calculateTeamStats rounds
              ≫= λ team, members (TeamStats.players team)) as Hkeys.
  { rewrite Hpay, <- ranked_members_players. unfold Js.keys.
    rewrite <- list_fmap_compose. done. }
  assert (sumZ (Js.values (calculate12PlayerPayouts rounds entryFee))
          = (2 * sumZ (take (length (calculateTeamStats rounds)) teamPrizes)
             - 2 * Z.of_nat (length (calculateTeamStats rounds)) * entryFee)%Z)
    as Hsum.
  { rewrite Hpay, sum_of_ranked_members. lia. }
  split_and!.
  - intros i team p Hteam Hp. apply elem_get_Some; [by rewrite Hkeys|].
    rewrite Hpay.
    apply (list_elem_of_fmap_2
             (λ e : string * nat, (e.1, (- entryFee + team_prize_at e.2)%Z))
             _ (p, i)).
    by eapply elem_of_ranked_members.
  - unfold Js.keys at 1. by rewrite entries_perm, <- Hkeys.
  - intros Hplain. rewrite entries_plain by (by rewrite Hkeys). done.
  - done.
  - intros Hn. rewrite Hsum, take_ge by (unfold teamPrizes; simpl; lia). done.
  - intros Hn ->. rewrite Hsum, Hn. done.
Qed.

Lemma twelve_player_payouts_by_rank_witness :
  Js.entries (calculate12PlayerPayouts sample_team_rounds 2)
  = [("Ann", 4); ("Lou", 4); ("Eli", 2); ("Hal", 2); ("Cat", 0); ("Jon", 0);
     ("Fay", -2); ("Gus", -2); ("Dan", -2); ("Ida", -2);
     ("Ben", -2); ("Kim", -2)]%Z ∧
  Js.get (calculate12PlayerPayouts sample_team_rounds 2) "Lou" = Some 4%Z ∧
  sumZ (Js.values (calculate12PlayerPayouts sample_team_rounds 2)) = 0%Z.
Proof.
  destruct (twelve_player_payouts_by_rank sample_team_rounds 2)
    as (_ & Hrank).
  destruct Hrank as (Hget & _ & _ & _ & _ & Hzero).
  - apply (bool_decide_unpack _). vm_compute. exact I.
  - apply (bool_decide_unpack _). vm_compute. exact I.
  - split_and!.
    + vm_compute. reflexivity.
    + eapply (Hget 0); [vm_compute; reflexivity|].
      apply list_elem_of_further, list_elem_of_here.
    + apply Hzero; reflexivity.
Defined.

(** ** Recording scores *)

Lemma all_games_setGameScore gameId s1 s2 rounds :
  all_games (setGameScore gameId s1 s2 rounds)
  = score_game gameId s1 s2 <$> all_games rounds.
Proof.
  unfold all_games, setGameScore.
  induction rounds as [|r rounds IH]; [done|].
  rewrite fmap_cons, !bind_cons, fmap_app, IH. done.
Qed.

Lemma fixture_setGameScore gameId s1 s2 rounds :
  fixture (setGameScore gameId s1 s2 rounds) = fixture rounds.
Proof.
  unfold fixture, setGameScore. rewrite <- list_fmap_compose.
  apply list_fmap_ext. intros _ r _. simpl. f_equal.
  rewrite <- list_fmap_compose. apply list_fmap_ext. intros _ g _. simpl.
  by case_decide.
Qed.

Lemma setGameScore_absent gameId s1 s2 rounds :
  gameId ∉ id <$> all_games rounds → setGameScore gameId s1 s2 rounds = rounds.
Proof.
  unfold all_games, setGameScore. intros Hnot.
  induction rounds as [|r rounds IH]; [done|].
  rewrite bind_cons, fmap_app, not_elem_of_app in Hnot.
  destruct Hnot as [Hr Hrounds].
  rewrite fmap_cons, IH by done. f_equal.
  destruct r as [n gs]. simpl in *. f_equal.
  induction gs as [|g gs IHgs]; [done|].
  rewrite fmap_cons, not_elem_of_cons in Hr. destruct Hr as [Hg Hgs].
  rewrite (fmap_cons (λ game, if decide (id game = gameId) then _ else _)).
  rewrite IHgs by done. case_decide; [congruence|done].
Qed.

(** X7: recording a score writes both scores into the games with the given
    id and changes nothing else: round numbers, ids and sides stay, the other
    games keep their scores, and an id that no game has leaves the schedule
    as it is. *)
Theorem set_game_score_touches_one_id gameId s1 s2 rounds :
  let rounds' := setGameScore gameId s1 s2 rounds in
  fixture rounds' = fixture rounds ∧
  length (all_games rounds') = length (all_games rounds) ∧
  (∀ i g, all_games rounds !! i = Some g →
     ∃ g', all_games rounds' !! i = Some g' ∧
           if decide (id g = gameId)
           then team1Score g' = Some s1 ∧ team2Score g' = Some s2
           else g' = g) ∧
  (gameId ∉ id <$> all_games rounds → rounds' = rounds).
Proof.
  intros rounds'. subst rounds'. split_and!.
  - apply fixture_setGameScore.
  - by rewrite all_games_setGameScore, length_fmap.
  - intros i g Hg. rewrite all_games_setGameScore, list_lookup_fmap, Hg.
    eexists. split; [done|]. unfold score_game. by case_decide.
  - apply setGameScore_absent.
Qed.

Lemma set_game_score_touches_one_id_witness :
  setGameScore 9 21 19 sample_rounds = sample_rounds ∧
  calculatePlayerStats (setGameScore 6 21 19 sample_rounds)
    ≠ calculatePlayerStats sample_rounds.
Proof.
  split.
  - apply (set_game_score_touches_one_id 9 21 19 sample_rounds).
    apply (bool_decide_unpack _). vm_compute. exact I.
  - vm_compute. discriminate.
Defined.

Lemma score_game_twice i a b c d g :
  score_game i a b (score_game i c d g) = score_game i a b g.
Proof.
  unfold score_game. destruct (decide (id g = i)) as [Hi|Hi]; simpl.
  - by rewrite decide_True.
  - by rewrite decide_False.
Qed.

Lemma score_game_comm i j a b c d g :
  i ≠ j →
  score_game i a b (score_game j c d g) = score_game j c d (score_game i a b g).
Proof.
  intros Hne. unfold score_game.
  destruct (decide (id g = i)) as [Hi|Hi], (decide (id g = j)) as [Hj|Hj];
    simpl; repeat case_decide; congruence.
Qed.

Lemma setGameScore_games gameId s1 s2 rounds :
  setGameScore gameId s1 s2 rounds
  = (λ r, {| roundNumber := roundNumber r;
             games := score_game gameId s1 s2 <$> games r |}) <$> rounds.
Proof. reflexivity. Qed.

(** X8: for one game the last score recorded is the one that counts, and
    scores recorded for different ids do not depend on the order in which
    they are recorded. *)
Theorem set_game_score_composes i j a b c d rounds :
  setGameScore i a b (setGameScore i c d rounds) = setGameScore i a b rounds ∧
  (i ≠ j →
   setGameScore i a b (setGameScore j c d rounds)
   = setGameScore j c d (setGameScore i a b rounds)).
Proof.
  rewrite !setGameScore_games, <- !list_fmap_compose. split.
  - apply list_fmap_ext. intros _ r _. simpl. f_equal.
    rewrite <- list_fmap_compose. apply list_fmap_ext. intros _ g _.
    apply score_game_twice.
  - intros Hne. apply list_fmap_ext. intros _ r _. simpl. f_equal.
    rewrite <- !list_fmap_compose. apply list_fmap_ext. intros _ g _.
    by apply score_game_comm.
Qed.

Lemma set_game_score_composes_witness :
  setGameScore 6 21 19 (setGameScore 1 21 15 sample_rounds)
  = setGameScore 1 21 15 (setGameScore 6 21 19 sample_rounds).
Proof.
  apply (set_game_score_composes 6 1 21 19 21 15 sample_rounds). discriminate.
Defined.

Lemma allGamesCompleted_scored rounds :
  allGamesCompleted rounds = true ↔ Forall scored (all_games rounds).
Proof.
  unfold allGamesCompleted, all_games.
  induction rounds as [|r rounds IH]; [done|].
  cbn [forallb]. rewrite andb_true_iff, IH, bind_cons, Forall_app.
  assert (forallb (λ game, bool_decide (team1Score game ≠ None)
                           && bool_decide (team2Score game ≠ None)) (games r)
          = true ↔ Forall scored (games r)) as ->; [|done].
  induction (games r) as [|g gs IHg]; [done|].
  cbn [forallb]. rewrite !andb_true_iff, !bool_decide_eq_true, IHg, Forall_cons.
  unfold scored. rewrite !is_Some_alt.
  destruct (team1Score g), (team2Score g); intuition congruence.
Qed.

Lemma score_games_after (entries : list (nat * Z * Z)) (g : Game) :
  let g' := foldl (λ g e, score_game e.1.1 e.1.2 e.2 g) g entries in
  id g' = id g ∧ sides g' = sides g ∧
  (scored g' ↔ scored g ∨ id g ∈ (λ e, e.1.1) <$> entries).
Proof.
  revert g. induction entries as [|[[i a] b] entries IH]; intros g.
  - simpl. rewrite elem_of_nil. tauto.
  - cbn [foldl fst snd]. destruct (IH (score_game i a b g)) as (H1 & H2 & H3).
    cbn zeta in *. rewrite H1, H2, H3, fmap_cons, elem_of_cons. cbn [fst].
    unfold score_game, scored. destruct (decide (id g = i)) as [Hi|Hi]; simpl.
    + split_and!; [done..|]. split; [auto|]. intros _. left. split; by eexists.
    + split_and!; [done..|]. intuition congruence.
Qed.

Lemma all_games_record_scores entries rounds :
  all_games (record_scores entries rounds)
  = (λ g, foldl (λ g e, score_game e.1.1 e.1.2 e.2 g) g entries)
      <$> all_games rounds.
Proof.
  unfold record_scores. revert rounds.
  induction entries as [|e entries IH]; intros rounds.
  - simpl. by rewrite list_fmap_id.
  - cbn [foldl]. rewrite IH, all_games_setGameScore, <- list_fmap_compose. done.
Qed.

Lemma fixture_record_scores entries rounds :
  fixture (record_scores entries rounds) = fixture rounds.
Proof.
  unfold record_scores. revert rounds.
  induction entries as [|e entries IH]; intros rounds; [done|].
  cbn [foldl]. by rewrite IH, fixture_setGameScore.
Qed.

(** X9: however scores are recorded, the fixture stays the same and a game
    that has its scores keeps having scores; the tournament is complete
    exactly when every game was scored before or has had a score recorded. *)
Theorem recording_scores_completes entries rounds :
  let rounds' := record_scores entries rounds in
  fixture rounds' = fixture rounds ∧
  (allGamesCompleted rounds' = true ↔
   Forall (λ g, scored g ∨ id g ∈ (λ e, e.1.1) <$> entries) (all_games rounds)).
Proof.
  intros rounds'. subst rounds'. split; [apply fixture_record_scores|].
  rewrite allGamesCompleted_scored, all_games_record_scores, Forall_fmap.
  apply Forall_iff. intros g. simpl.
  apply (score_games_after entries g).
Qed.

(** ** A whole 8-player tournament *)

Lemma scores_of_booked_stats rounds p :
  scores_of (booked_stats rounds) p = all_games rounds ≫= scores_in p.
Proof.
  rewrite booked_stats_fold.
  assert (∀ stats, scores_of (foldl book_game stats (all_games rounds)) p
                   = scores_of stats p ++ (all_games rounds ≫= scores_in p))
    as Hgen.
  { induction (all_games rounds) as [|g gs IH]; intros stats.
    - by rewrite app_nil_r.
    - cbn [foldl]. rewrite IH, scores_of_book_game, bind_cons.
      by rewrite <- app_assoc. }
  by rewrite Hgen.
Qed.

Lemma length_scores_in p g :
  scored g → length (scores_in p g) = places_in p (sides g).
Proof.
  intros [[s1 H1] [s2 H2]]. unfold scores_in, places_in, sides, members.
  rewrite H1, H2, length_app, !length_fmap. cbn [fst snd].
  change [(team1 g).1; (team1 g).2; (team2 g).1; (team2 g).2]
    with ([(team1 g).1; (team1 g).2] ++ [(team2 g).1; (team2 g).2]).
  by rewrite filter_app, length_app.
Qed.

Lemma length_bind_scores_in p gs :
  Forall scored gs →
  length (gs ≫= scores_in p) = sum_list (places_in p <$> (sides <$> gs)).
Proof.
  induction 1 as [|g gs Hg _ IH]; [done|].
  rewrite bind_cons, length_app, IH, length_scores_in by done. done.
Qed.

Lemma sides_of_fixture rounds :
  sides <$> all_games rounds = concat ((λ x, x.2.*2) <$> fixture rounds).
Proof.
  unfold all_games, fixture. induction rounds as [|r rounds IH]; [done|].
  rewrite bind_cons, fmap_app, IH, !fmap_cons, concat_cons. cbn [snd].
  f_equal. rewrite <- list_fmap_compose. by apply list_fmap_ext.
Qed.

(** Every position fills exactly 7 places of the template. *)
Lemma schedule_places i :
  i < 8 → sum_list (places_in i <$> concat schedule_sides) = 7.
Proof.
  intros Hi. do 8 (destruct i as [|i]; [reflexivity|]). lia.
Qed.

Section EightPlayerTournament.
Variable shuffledPlayers : list string.
Hypothesis shuffled_length : length shuffledPlayers = 8.
Hypothesis shuffled_NoDup : NoDup shuffledPlayers.

Lemma places_in_rename i sd :
  i < 8 → within 8 sd →
  places_in (shuffledPlayers !!! i) (rename (shuffledPlayers !!!.) sd)
  = places_in i sd.
Proof.
  destruct sd as [[a b] [c d]]. intros Hi (Ha & Hb & Hc & Hd).
  unfold places_in, rename. cbn [fst snd] in *.
  apply (length_filter_fmap_iff (shuffledPlayers !!!.) _ (λ q, q = i) [a; b; c; d]).
  repeat (apply Forall_cons; split;
    [split; [by apply shuffled_inj | by intros ->]|]).
  apply Forall_nil_2.
Qed.

Lemma places_in_stranger p sd :
  p ∉ shuffledPlayers → within 8 sd →
  places_in p (rename (shuffledPlayers !!!.) sd) = 0.
Proof.
  destruct sd as [[a b] [c d]]. intros Hp (Ha & Hb & Hc & Hd).
  unfold places_in, rename. cbn [fst snd] in *.
  assert (∀ x, x < 8 → shuffledPlayers !!! x ≠ p) as Hne.
  { intros x Hx <-. apply Hp. eapply list_elem_of_lookup_2.
    apply list_lookup_lookup_total_lt. by rewrite shuffled_length. }
  rewrite !filter_cons, !filter_nil.
  by rewrite !decide_False by (by apply Hne).
Qed.

Lemma places_of_generated p :
  sum_list (places_in p
              <$> (rename (shuffledPlayers !!!.) <$> concat schedule_sides))
  = if decide (p ∈ shuffledPlayers) then 7 else 0.
Proof.
  pose proof (proj2 (Forall_concat _ _) schedule_within) as Hin.
  destruct (decide (p ∈ shuffledPlayers)) as [Hp|Hp].
  - apply elem_of_lookup_total in Hp as (i & Hi & ->).
    rewrite shuffled_length in Hi.
    rewrite <- (schedule_places i Hi).
    induction Hin as [|sd l Hsd _ IH]; [done|].
    rewrite !fmap_cons. cbn [sum_list sum_list_with].
    by rewrite IH, places_in_rename.
  - induction Hin as [|sd l Hsd _ IH]; [done|].
    rewrite !fmap_cons. cbn [sum_list sum_list_with].
    by rewrite IH, places_in_stranger.
Qed.
End EightPlayerTournament.

Lemma booked_stats_consistent rounds :
  all_consistent (booked_stats rounds).
Proof.
  rewrite booked_stats_fold.
  assert (all_consistent []) as Hnil by (by intros ? ? [=]).
  revert Hnil. generalize (@nil (string * PlayerStats)).
  induction (all_games rounds) as [|g gs IH]; intros stats Hinv; [done|].
  cbn [foldl]. by apply IH, consistent_book_game.
Qed.

Lemma booked_stats_played rounds :
  played_somewhere (booked_stats rounds).
Proof.
  rewrite booked_stats_fold.
  apply played_foldl_book_game. by intros ? ? [=].
Qed.

Lemma elem_of_foldl_seen_then x seen l :
  x ∈ foldl seen_then seen l ↔ x ∈ seen ∨ x ∈ l.
Proof.
  revert seen. induction l as [|y l IH]; intros seen; simpl.
  - rewrite elem_of_nil. tauto.
  - rewrite IH, elem_of_cons. unfold seen_then.
    case_decide as Hy; [|rewrite elem_of_app, list_elem_of_singleton];
      intuition congruence.
Qed.

Lemma elem_of_first_seen x l : x ∈ first_seen l ↔ x ∈ l.
Proof.
  unfold first_seen. rewrite elem_of_foldl_seen_then, elem_of_nil. tauto.
Qed.

Lemma ordinary_names_keys rounds :
  ordinary_names rounds ↔ Forall ordinary (Js.keys (booked_stats rounds)).
Proof.
  unfold ordinary_names. rewrite keys_booked_stats. split.
  - intros H. apply Forall_forall.
    intros x [g [Hx Hg]]%elem_of_first_seen%list_elem_of_bind.
    rewrite Forall_forall in H. specialize (H g Hg).
    rewrite Forall_forall in H. auto.
  - intros H. apply Forall_forall. intros g Hg. apply Forall_forall.
    intros x Hx. rewrite Forall_forall in H. apply H.
    apply elem_of_first_seen, list_elem_of_bind. eauto.
Qed.

Lemma keys_imap_fst {V W} (h : nat → W) (l : list (string * V)) :
  Js.keys (imap (λ i e, (e.1, h i)) l) = l.*1.
Proof.
  unfold Js.keys. rewrite fmap_imap.
  rewrite (imap_ext _ (const fst)) by done. by rewrite imap_const.
Qed.

(** X10: once every game of a generated 8-player schedule has its scores,
    whatever they are, and the 8 players have ordinary names, the statistics
    and the payouts are returned: the statistics have exactly the 8 players,
    each with 7 games; the payouts have exactly these 8 players and add up
    to 16 minus 8 entry fees, which is zero at the fee of 2.  With a player
    whose name is not ordinary both functions throw a TypeError. *)
Theorem eight_player_tournament_settles
    (random : nat → Q) (players : list string)
    (rounds rounds' : list Round) (entryFee : Z) :
  (∀ k, (0 <= random k ∧ random k < 1)%Q) →
  NoDup players →
  generateRoundRobinSchedule random players = inr rounds →
  fixture rounds' = fixture rounds →
  allGamesCompleted rounds' = true →
  (Forall ordinary players →
   ∃ stats payouts,
     calculatePlayerStats rounds' = inr stats ∧
     calculatePayouts rounds' entryFee = inr payouts ∧
     Js.keys stats ≡ₚ players ∧
     (∀ p s, Js.get stats p = Some s → gamesPlayed s = 7%Z) ∧
     Js.keys payouts ≡ₚ players ∧
     sumZ (Js.values payouts) = (8 + 6 + 2 - 8 * entryFee)%Z ∧
     (entryFee = 2%Z → sumZ (Js.values payouts) = 0%Z)) ∧
  (¬ Forall ordinary players →
   calculatePlayerStats rounds' = inl TypeError ∧
   calculatePayouts rounds' entryFee = inl TypeError).
Proof.
  intros _ Hnd Hgen Hfix Hdone.
  unfold generateRoundRobinSchedule in Hgen.
  destruct (decide (length players ≠ 8)) as [|Hlen]; [done|].
  apply dec_stable in Hlen.
  assert (rounds = rounds_of_schedule (shuffleArray random players) 0 1 schedule)
    as -> by congruence.
  clear Hgen.
  pose proof (shuffleArray_perm random players) as Hperm.
  set (shuffledPlayers := shuffleArray random players) in *.
  assert (length shuffledPlayers = 8) as Hlen' by (by rewrite Hperm).
  assert (NoDup shuffledPlayers) as Hnd' by (by rewrite Hperm).
  apply allGamesCompleted_scored in Hdone.
  set (stats := booked_stats rounds').
  assert (∀ p, length (scores_of stats p)
               = if decide (p ∈ shuffledPlayers) then 7 else 0) as Hcount.
  { intros p. unfold stats.
    rewrite scores_of_booked_stats, length_bind_scores_in by done.
    rewrite sides_of_fixture, Hfix, <- sides_of_fixture, sides_all_games.
    rewrite round_robin_sides, fmap_concat.
    by apply places_of_generated. }
  pose proof (booked_stats_consistent rounds') as Hcons.
  pose proof (booked_stats_played rounds') as Hplayed.
  fold stats in Hcons, Hplayed.
  assert (∀ p s, Js.get stats p = Some s → p ∈ shuffledPlayers ∧ gamesPlayed s = 7%Z)
    as Hentry.
  { intros p s Hs. specialize (Hcount p). unfold scores_of in Hcount.
    rewrite Hs in Hcount. simpl in Hcount.
    destruct (Hcons p s Hs) as (_ & Hg & _). specialize (Hplayed p s Hs).
    case_decide; [split; [done|lia] | lia]. }
  assert (Js.keys stats ≡ₚ players) as Hkeys.
  { rewrite <- Hperm. apply NoDup_Permutation; [|done|].
    - unfold stats. rewrite keys_booked_stats. apply first_seen_NoDup.
    - intros p. split.
      + intros Hin. destruct (Js.get stats p) as [s|] eqn:Hs.
        * by apply (Hentry p s).
        * apply get_None_keys in Hs. done.
      + intros Hin. specialize (Hcount p). rewrite decide_True in Hcount by done.
        destruct (decide (p ∈ Js.keys stats)) as [|Hnot]; [done|].
        apply get_None_keys in Hnot. unfold scores_of in Hcount.
        rewrite Hnot in Hcount. done. }
  assert ((booked_ranking rounds').*1 ≡ₚ players) as Hranked.
  { rewrite booked_ranking_perm. exact Hkeys. }
  assert (length (booked_ranking rounds') = 8) as Height.
  { rewrite <- (length_fmap fst), Hranked, <- Hperm. done. }
  assert (sumZ (Js.values (booked_payouts rounds' entryFee))
          = (8 + 6 + 2 - 8 * entryFee)%Z) as Hsum.
  { rewrite booked_payouts_ranked, sum_of_ranked, Height.
    change (sumZ (take 8 prizes)) with 16%Z. lia. }
  assert (ordinary_names rounds' ↔ Forall ordinary players) as Hnames.
  { rewrite ordinary_names_keys. fold stats. by rewrite Hkeys. }
  split.
  - intros Hord. exists stats, (booked_payouts rounds' entryFee).
    split; [apply calculatePlayerStats_booked; by apply Hnames|].
    split; [apply calculatePayouts_booked; by apply Hnames|].
    split_and!.
    + done.
    + intros p s Hs. by apply (Hentry p s).
    + by rewrite booked_payouts_ranked, keys_imap_fst.
    + done.
    + intros ->. by rewrite Hsum.
  - intros Hord.
    split; [apply calculatePlayerStats_throws | apply calculatePayouts_throws];
      by rewrite Hnames.
Qed.

Lemma eight_player_tournament_settles_witness :
  ∃ payouts,
    calculatePayouts (record_scores fourteen_scores eight_rounds) 2
    = inr payouts ∧
    sumZ (Js.values payouts) = 0%Z.
Proof.
  destruct (eight_player_tournament_settles halves eight_names eight_rounds
              (record_scores fourteen_scores eight_rounds) 2)
    as [Hsettles _].
  - intros k. unfold halves. split; [by vm_compute | reflexivity].
  - apply (bool_decide_unpack _). vm_compute. exact I.
  - vm_compute. reflexivity.
  - vm_compute. reflexivity.
  - vm_compute. reflexivity.
  - destruct Hsettles as (stats & payouts & _ & Hpayouts & _ & _ & _ & _ & Hzero).
    { apply (bool_decide_unpack _). vm_compute. exact I. }
    exists payouts. split; [done|]. by apply Hzero.
Defined.

(** ** Team keys *)

Lemma sort_pair a b :
  Js.sort Js.compare_strings [a; b]
  = if (Js.compare_strings a b <=? 0)%Z then [a; b] else [b; a].
Proof. reflexivity. Qed.

Lemma sort_pair_swap a b :
  Js.sort Js.compare_strings [a; b] = Js.sort Js.compare_strings [b; a].
Proof.
  rewrite !sort_pair. unfold Js.compare_strings.
  rewrite (String.compare_antisym b a).
  destruct (String.compare a b) eqn:Hab; simpl; try done.
  by apply String.compare_eq_iff in Hab as ->.
Qed.

Lemma team_key_join t :
  ∃ a b, team_key t = (a +:+ " & " +:+ b)%string ∧
         ((a, b) = t ∨ (a, b) = (t.2, t.1)).
Proof.
  destruct t as [x y]. unfold team_key, members. rewrite sort_pair. cbn [fst snd].
  destruct (Js.compare_strings x y <=? 0)%Z; eexists _, _; split;
    try reflexivity; auto.
Qed.

Lemma join_inj a b c d :
  no_ampersand a → no_ampersand c →
  (a +:+ " & " +:+ b)%string = (c +:+ " & " +:+ d)%string → a = c ∧ b = d.
Proof.
  assert (∀ c s t, (String c s +:+ t)%string = String c (s +:+ t)%string)
    as Hcons by reflexivity.
  assert (∀ t, ("" +:+ t)%string = t) as Hnil by reflexivity.
  revert c. induction a as [|x a IH]; intros [|y c] Ha Hc Heq;
    rewrite ?Hcons, ?Hnil in Heq; simpl in Ha, Hc.
  - split; [done | congruence].
  - exfalso. destruct Hc as [_ Hc].
    destruct c as [|z c]; rewrite ?Hcons, ?Hnil in Heq; simpl in Hc.
    + discriminate.
    + destruct Hc as [Hz _]. congruence.
  - exfalso. destruct Ha as [_ Ha].
    destruct a as [|z a]; rewrite ?Hcons, ?Hnil in Heq; simpl in Ha.
    + discriminate.
    + destruct Ha as [Hz _]. congruence.
  - destruct Ha as [_ Ha], Hc as [_ Hc].
    assert (x = y) as -> by congruence.
    destruct (IH c Ha Hc) as [-> ->]; [congruence | done].
Qed.

Lemma team_key_same t u : same_team t u → team_key t = team_key u.
Proof.
  intros [->| ->]; [done|]. destruct u as [x y]. unfold team_key, members.
  cbn [fst snd]. by rewrite sort_pair_swap.
Qed.

Lemma team_key_inj t u :
  plain_team t → plain_team u → team_key t = team_key u → same_team t u.
Proof.
  intros [Ht1 Ht2] [Hu1 Hu2] Hkey.
  destruct (team_key_join t) as (a & b & Ha & Hab).
  destruct (team_key_join u) as (c & d & Hc & Hcd).
  rewrite Ha, Hc in Hkey.
  assert (no_ampersand a) by (destruct Hab as [<-|[= -> ->]]; done).
  assert (no_ampersand c) by (destruct Hcd as [<-|[= -> ->]]; done).
  destruct (join_inj a b c d) as [-> ->]; [done..|].
  destruct t as [t1 t2], u as [u1 u2]. unfold same_team, same_pair.
  cbn [fst snd] in *.
  destruct Hab as [[= -> ->]|[= -> ->]], Hcd as [[= -> ->]|[= -> ->]]; auto.
Qed.

(** X11: the key under which the team statistics file a side does not depend
    on the order of its two players, and sides of players whose names have
    no ampersand get the same key only if they are the same team; with
    ampersands in names two different teams can share a key. *)
Theorem team_key_identifies_teams t u :
  (same_team t u → team_key t = team_key u) ∧
  (plain_team t → plain_team u → team_key t = team_key u → same_team t u) ∧
  (team_key ("a", "b & c") = team_key ("a & b", "c") ∧
   ¬ same_team ("a", "b & c") ("a & b", "c")).
Proof.
  split_and!.
  - apply team_key_same.
  - apply team_key_inj.
  - reflexivity.
  - by intros [[=]|[=]].
Qed.

Lemma team_key_identifies_teams_witness :
  team_key ("Lou", "Ann") = team_key ("Ann", "Lou") ∧
  same_team ("Ann", "Lou") ("Lou", "Ann").
Proof.
  split.
  - apply (team_key_identifies_teams ("Lou", "Ann") ("Ann", "Lou")).
    by right.
  - apply (team_key_identifies_teams ("Ann", "Lou") ("Lou", "Ann"));
      [split; apply (bool_decide_unpack _); vm_compute; exact I..|].
    vm_compute. reflexivity.
Defined.

(** ** A whole 12-player tournament *)

Lemma teamMap_of_fold rounds :
  teamMap_of rounds = foldl record_team_game [] (all_games rounds).
Proof.
  unfold teamMap_of, all_games.
  generalize (@nil (string * TeamStats.t)).
  induction rounds as [|r rounds IH]; intros m; simpl; [done|].
  by rewrite foldl_app, IH.
Qed.

Lemma holds_teams_update T m key f :
  (∀ t, TeamStats.players (f t) = TeamStats.players t) →
  holds_teams T m → holds_teams T (Js.update m key f).
Proof.
  intros Hf Hinv k t. rewrite get_update. case_decide; [|apply Hinv].
  destruct (Js.get m k) as [t'|] eqn:Hget; simpl; [|done].
  intros [= <-]. rewrite Hf. by apply Hinv.
Qed.

Lemma holds_teams_init T m team :
  team ∈ T → holds_teams T m → holds_teams T (init_team m (team_key team) team).
Proof.
  intros Hin Hinv k t. unfold init_team.
  destruct (Js.get m (team_key team)) eqn:Hget; [apply Hinv|].
  destruct (decide (team_key team = k)) as [<-|Hne].
  - rewrite get_set_eq. by intros [= <-].
  - rewrite get_set_ne by done. apply Hinv.
Qed.

Lemma holds_teams_record_team_game T m g :
  team1 g ∈ T → team2 g ∈ T →
  holds_teams T m → holds_teams T (record_team_game m g).
Proof.
  intros H1 H2 Hinv. unfold record_team_game.
  destruct (team1Score g) as [s1|], (team2Score g) as [s2|]; try done.
  destruct (s1 >? s2)%Z, (s2 >? s1)%Z;
    repeat (apply holds_teams_update; [done|]);
    by repeat apply holds_teams_init.
Qed.

Lemma holds_teams_teamMap_of T rounds :
  Forall (λ g, team1 g ∈ T ∧ team2 g ∈ T) (all_games rounds) →
  holds_teams T (teamMap_of rounds).
Proof.
  rewrite teamMap_of_fold.
  assert (holds_teams T []) as Hnil by (by intros ? ? [=]).
  revert Hnil. generalize (@nil (string * TeamStats.t)).
  induction (all_games rounds) as [|g gs IH]; intros m Hinv Hall; [done|].
  apply Forall_cons in Hall as [[H1 H2] Hall].
  cbn [foldl]. apply IH; [|done]. by apply holds_teams_record_team_game.
Qed.

(** Every team position takes part in the rotation. *)
Lemma rotation_reaches i :
  i < 6 → Exists (λ m, m.1 = i ∨ m.2 = i) (concat rotation).
Proof.
  intros Hi.
  do 6 (destruct i as [|i];
    [apply (bool_decide_unpack _); vm_compute; exact I|]).
  lia.
Qed.

Lemma sides_team_keys gs :
  Forall scored gs →
  gs ≫= team_keys_of = (sides <$> gs) ≫= λ sd, [team_key sd.1; team_key sd.2].
Proof.
  induction 1 as [|g gs Hg _ IH]; [done|].
  rewrite fmap_cons, !bind_cons, IH. unfold team_keys_of.
  by rewrite decide_True.
Qed.

Section TwelvePlayerTournament.
Variable teams : list (string * string).
Hypothesis teams_length : length teams = 6.
Hypothesis teams_NoDup : NoDup (teams ≫= members).
Hypothesis teams_plain : Forall plain_team teams.
Variable rounds' : list Round.
Hypothesis same_fixture :
  fixture rounds' = fixture (rounds_of_rotation teams 5 0 1 [1; 2; 3; 4; 5]).
Hypothesis all_scored : Forall scored (all_games rounds').

Lemma tournament_sides :
  sides <$> all_games rounds'
  = (λ m, (teams !!! m.1, teams !!! m.2)) <$> concat rotation.
Proof.
  rewrite sides_of_fixture, same_fixture, <- sides_of_fixture, sides_all_games.
  by rewrite rotation_sides, fmap_concat.
Qed.

Lemma team_in_teams i : i < 6 → teams !!! i ∈ teams.
Proof.
  intros Hi. eapply list_elem_of_lookup_2.
  apply list_lookup_lookup_total_lt. by rewrite teams_length.
Qed.

Lemma tournament_sides_in_teams :
  Forall (λ g, team1 g ∈ teams ∧ team2 g ∈ teams) (all_games rounds').
Proof.
  apply (Forall_fmap sides (λ sd, sd.1 ∈ teams ∧ sd.2 ∈ teams)).
  rewrite tournament_sides. apply Forall_fmap.
  pose proof (proj2 (Forall_concat _ _) rotation_within) as Hin.
  eapply Forall_impl; [exact Hin|]. intros m [H1 H2]. simpl.
  split; by apply team_in_teams.
Qed.

Lemma teams_list_NoDup : NoDup teams.
Proof.
  apply NoDup_alt. intros i j t Hi Hj.
  apply (teams_apart teams i j t t); [done..|]. by left.
Qed.

Lemma tournament_team_has_record team :
  team ∈ teams → team_key team ∈ Js.keys (teamMap_of rounds').
Proof.
  intros [i Hi]%list_elem_of_lookup_1.
  pose proof (lookup_lt_Some _ _ _ Hi) as Hi'. rewrite teams_length in Hi'.
  apply list_lookup_total_correct in Hi. subst team.
  rewrite keys_teamMap_of, elem_of_first_seen, sides_team_keys by done.
  rewrite tournament_sides.
  destruct (proj1 (Exists_exists _ _) (rotation_reaches i Hi'))
    as (m & Hm & Hmi).
  apply list_elem_of_bind. exists (teams !!! m.1, teams !!! m.2).
  split.
  - cbn [fst snd]. destruct Hmi as [-> | ->];
      [apply list_elem_of_here | apply list_elem_of_further, list_elem_of_here].
  - apply list_elem_of_fmap. by exists m.
Qed.

Lemma tournament_records :
  TeamStats.players <$> Js.values (teamMap_of rounds') ≡ₚ teams.
Proof.
  pose proof (holds_teams_teamMap_of teams rounds' tournament_sides_in_teams)
    as Hholds.
  pose proof (keys_teamMap_of rounds') as Hkeys.
  assert (NoDup (Js.keys (teamMap_of rounds'))) as Hnd
    by (rewrite Hkeys; apply first_seen_NoDup).
  assert (team_key <$> (TeamStats.players <$> Js.values (teamMap_of rounds'))
          = Js.keys (teamMap_of rounds')) as Hk.
  { unfold Js.values, Js.keys. rewrite <- !list_fmap_compose.
    apply list_fmap_ext. intros i [k t] Hi. simpl.
    apply (Hholds k t). apply elem_get_Some; [done|].
    by eapply list_elem_of_lookup_2. }
  apply NoDup_Permutation.
  - apply (NoDup_fmap_1 team_key). by rewrite Hk.
  - apply teams_list_NoDup.
  - intros team. split.
    + intros Hin. apply list_elem_of_fmap in Hin as (t & -> & Hin).
      apply list_elem_of_fmap in Hin as ([k t'] & -> & Hin).
      apply (Hholds k t'). by apply elem_get_Some.
    + intros Hin. pose proof (tournament_team_has_record team Hin) as Hrec.
      rewrite <- Hk in Hrec.
      apply list_elem_of_fmap in Hrec as (team' & Hkey & Hin').
      assert (team' ∈ teams) as Hteam'.
      { apply list_elem_of_fmap in Hin' as (t & -> & Hin').
        apply list_elem_of_fmap in Hin' as ([k t'] & -> & Hin').
        apply (Hholds k t'). by apply elem_get_Some. }
      assert (same_team team team') as Hsame.
      { rewrite Forall_forall in teams_plain.
        apply team_key_inj; auto. }
      apply list_elem_of_lookup_1 in Hin as [i Hi].
      apply list_elem_of_lookup_1 in Hteam' as [j Hj].
      assert (i = j) as -> by (by eapply (teams_apart teams)).
      assert (team = team') as -> by congruence. done.
Qed.
End TwelvePlayerTournament.

Lemma generate12PlayerSchedule_teams random players customTeams rounds :
  (∀ custom, customTeams = Some custom → length custom = 6 →
             custom ≫= members ≡ₚ players) →
  generate12PlayerSchedule random players customTeams = inr rounds →
  ∃ teams, rounds = rounds_of_rotation teams 5 0 1 [1; 2; 3; 4; 5] ∧
           length teams = 6 ∧ teams ≫= members ≡ₚ players.
Proof.
  intros Hcustom Hgen. unfold generate12PlayerSchedule in Hgen.
  destruct (decide (length players ≠ 12)) as [|Hlen]; [done|].
  apply dec_stable in Hlen.
  pose proof (shuffleArray_perm random players) as Hperm.
  assert (length (shuffleArray random players) = 12) as Hlen'
    by (by rewrite Hperm).
  destruct (pair_up_members _ Hlen') as [Hsix Hmembers].
  destruct customTeams as [custom|];
    [destruct (decide (length custom = 6)) as [Hc|Hc]|].
  - exists custom. split_and!; [congruence | done | auto].
  - exists (pair_up (shuffleArray random players)).
    split_and!; [congruence | done | by rewrite Hmembers].
  - exists (pair_up (shuffleArray random players)).
    split_and!; [congruence | done | by rewrite Hmembers].
Qed.

Lemma bind_members_fmap (ranked : list TeamStats.t) :
  ranked ≫= (λ team, members (TeamStats.players team))
  = (TeamStats.players <$> ranked) ≫= members.
Proof.
  induction ranked as [|t l IH]; [done|].
  by rewrite fmap_cons, !bind_cons, IH.
Qed.

(** X12: once every game of a generated 12-player schedule has its scores,
    whatever they are, and no player name contains an ampersand or is
    [__proto__], the team statistics have exactly six records, whose players are the 12 players;
    the payouts have exactly these 12 players and add up to 24 minus 12
    entry fees, which is zero at the fee of 2. *)
Theorem twelve_player_tournament_settles
    (random : nat → Q) (players : list string)
    (customTeams : option (list (string * string)))
    (rounds rounds' : list Round) (entryFee : Z) :
  (∀ k, (0 <= random k ∧ random k < 1)%Q) →
  NoDup players → Forall no_ampersand players → "__proto__" ∉ players →
  (∀ custom, customTeams = Some custom → length custom = 6 →
             custom ≫= members ≡ₚ players) →
  generate12PlayerSchedule random players customTeams = inr rounds →
  fixture rounds' = fixture rounds →
  allGamesCompleted rounds' = true →
  let ranked := calculateTeamStats rounds' in
  let payouts := calculate12PlayerPayouts rounds' entryFee in
  length ranked = 6 ∧
  ranked ≫= (λ team, members (TeamStats.players team)) ≡ₚ players ∧
  Js.keys payouts ≡ₚ players ∧
  sumZ (Js.values payouts) = (2 * (6 + 4 + 2) - 12 * entryFee)%Z ∧
  (entryFee = 2%Z → sumZ (Js.values payouts) = 0%Z).
Proof.
  intros _ Hnd Hplain Hproto Hcustom Hgen Hfix Hdone ranked payouts.
  subst ranked payouts.
  destruct (generate12PlayerSchedule_teams _ _ _ _ Hcustom Hgen)
    as (teams & -> & Hsix & Hpart).
  apply allGamesCompleted_scored in Hdone.
  assert (NoDup (teams ≫= members)) as Hnd' by (by rewrite Hpart).
  assert (Forall plain_team teams) as Hplain'.
  { rewrite <- Hpart in Hplain. rewrite Forall_forall in Hplain.
    apply Forall_forall. intros t Ht.
    split; apply Hplain, list_elem_of_bind; exists t; split; try done.
    - apply list_elem_of_here.
    - apply list_elem_of_further, list_elem_of_here. }
  pose proof (tournament_records teams Hsix Hnd' Hplain' rounds' Hfix Hdone)
    as Hrecords.
  assert (TeamStats.players <$> calculateTeamStats rounds' ≡ₚ teams) as Hranked.
  { unfold calculateTeamStats. by rewrite sort_perm. }
  assert (length (calculateTeamStats rounds') = 6) as Hlen.
  { by rewrite <- (length_fmap TeamStats.players), Hranked. }
  assert (calculateTeamStats rounds'
            ≫= (λ team, members (TeamStats.players team)) ≡ₚ players) as Hall.
  { by rewrite bind_members_fmap, Hranked. }
  assert (NoDup (calculateTeamStats rounds'
                   ≫= λ team, members (TeamStats.players team))) as Hnd''
    by (by rewrite Hall).
  assert ("__proto__" ∉ calculateTeamStats rounds'
                          ≫= λ team, members (TeamStats.players team))
    as Hproto' by (by rewrite Hall).
  pose proof (calculate12PlayerPayouts_ranked rounds' entryFee Hnd'' Hproto')
    as Hpay.
  assert (sumZ (Js.values (calculate12PlayerPayouts rounds' entryFee))
          = (2 * (6 + 4 + 2) - 12 * entryFee)%Z) as Hsum.
  { rewrite Hpay, sum_of_ranked_members, Hlen.
    change (sumZ (take 6 teamPrizes)) with 12%Z. lia. }
  split_and!; try done.
  - rewrite Hpay. unfold Js.keys. rewrite <- list_fmap_compose.
    change (fst ∘ _) with (@fst string nat).
    by rewrite ranked_members_players.
  - intros ->. by rewrite Hsum.
Qed.

Lemma twelve_player_tournament_settles_witness :
  sumZ (Js.values
          (calculate12PlayerPayouts (record_scores fifteen_scores twelve_rounds) 2))
  = 0%Z.
Proof.
  refine (proj2 (proj2 (proj2 (proj2
    (twelve_player_tournament_settles halves twelve_names (Some six_teams)
       twelve_rounds (record_scores fifteen_scores twelve_rounds) 2
       _ _ _ _ _ _ _ _)))) eq_refl).
  - intros k. unfold halves. split; [by vm_compute | reflexivity].
  - apply (bool_decide_unpack _). vm_compute. exact I.
  - apply (bool_decide_unpack _). vm_compute. exact I.
  - apply (bool_decide_unpack _). vm_compute. exact I.
  - intros custom [= <-] _. apply (bool_decide_unpack _). vm_compute. exact I.
  - vm_compute. reflexivity.
  - vm_compute. reflexivity.
  - vm_compute. reflexivity.
Defined.

(** ** Moving between rounds *)

(** X13: however the two buttons are pressed, the index of the round shown
    stays an index of the schedule; on the last round "next" does nothing,
    on the first round "previous" does nothing, and without rounds the index
    stays 0. *)
Theorem round_index_stays_in_range rounds currentRound moves :
  let final := foldl (go rounds) currentRound moves in
  ((0 <= currentRound < Z.of_nat (length rounds))%Z →
   (0 <= final < Z.of_nat (length rounds))%Z) ∧
  (rounds = [] → currentRound = 0%Z → final = 0%Z) ∧
  goToNextRound rounds (Z.of_nat (length rounds) - 1) = (Z.of_nat (length rounds) - 1)%Z ∧
  goToPreviousRound 0 = 0%Z.
Proof.
  intros final. subst final. split_and!.
  - revert currentRound. induction moves as [|m moves IH]; intros c Hc; [done|].
    cbn [foldl]. apply IH. destruct m; simpl.
    + unfold goToNextRound.
      destruct (Z.ltb_spec c (Z.of_nat (length rounds) - 1)); lia.
    + unfold goToPreviousRound. destruct (Z.gtb_spec c 0); lia.
  - intros -> ->. induction moves as [|m moves IH]; [done|].
    cbn [foldl]. by destruct m.
  - unfold goToNextRound. by rewrite Z.ltb_irrefl.
  - reflexivity.
Qed.

Lemma round_index_stays_in_range_witness :
  (0 <= foldl (go sample_rounds) 1 [Next; Next; Next; Previous]
     < Z.of_nat (length sample_rounds))%Z.
Proof.
  apply (round_index_stays_in_range sample_rounds 1 [Next; Next; Next; Previous]).
  simpl. lia.
Defined.

(** ** The list of side bets *)

Lemma deleteSideBet_absent sideBets id :
  id ∉ SideBet.id <$> sideBets → deleteSideBet sideBets id = sideBets.
Proof.
  unfold deleteSideBet. induction sideBets as [|b bets IH]; [done|].
  rewrite fmap_cons, not_elem_of_cons. intros [Hb Hbets].
  rewrite filter_cons, decide_True by done. by rewrite IH.
Qed.

Lemma bookings_of_updateSideBet sideBets id winner p :
  Forall (λ b, SideBet.id b = id →
               (p ∉ members (SideBet.team1 b)) ∧ (p ∉ members (SideBet.team2 b)))
         sideBets →
  updateSideBet sideBets id winner ≫= bookings_of p
  = sideBets ≫= bookings_of p.
Proof.
  unfold updateSideBet. induction 1 as [|b bets Hb _ IH]; [done|].
  rewrite fmap_cons, !bind_cons, IH. f_equal.
  case_decide as Hid; [|done]. destruct (Hb Hid) as [H1 H2].
  by rewrite !bookings_of_outside.
Qed.

Lemma bookings_of_deleteSideBet sideBets id p :
  Forall (λ b, SideBet.id b = id → bookings_of p b = []) sideBets →
  deleteSideBet sideBets id ≫= bookings_of p = sideBets ≫= bookings_of p.
Proof.
  unfold deleteSideBet. induction 1 as [|b bets Hb _ IH]; [done|].
  rewrite filter_cons. destruct (decide (SideBet.id b ≠ id)) as [Hid|Hid].
  - by rewrite !bind_cons, IH.
  - apply dec_stable in Hid. by rewrite bind_cons, (Hb Hid), IH.
Qed.

(** X14: a new bet goes to the end of the list and, being unsettled, changes
    no total; deleting a bet by its id restores the list when no other bet
    has that id and leaves no bet with that id; deleting bets that are not
    settled changes no total, and deleting any bets leaves the entry of a
    player as it is when the player is on no side of them. *)
Theorem side_bet_add_and_delete sideBets sideBet id p :
  (SideBet.winner sideBet = None →
   calculateSideBetTotals (addSideBet sideBets sideBet)
   = calculateSideBetTotals sideBets) ∧
  (SideBet.id sideBet ∉ (SideBet.id <$> sideBets) →
   deleteSideBet (addSideBet sideBets sideBet) (SideBet.id sideBet) = sideBets) ∧
  (id ∉ SideBet.id <$> deleteSideBet sideBets id) ∧
  (Forall (λ b, SideBet.id b = id → SideBet.winner b = None) sideBets →
   calculateSideBetTotals (deleteSideBet sideBets id)
   = calculateSideBetTotals sideBets) ∧
  (Forall (λ b, SideBet.id b = id →
                (p ∉ members (SideBet.team1 b)) ∧ (p ∉ members (SideBet.team2 b)))
          sideBets →
   Js.get (calculateSideBetTotals (deleteSideBet sideBets id)) p
   = Js.get (calculateSideBetTotals sideBets) p).
Proof.
  split_and!.
  - intros Hnone. unfold calculateSideBetTotals, addSideBet.
    rewrite foldl_app. cbn [foldl]. by apply settle_unsettled.
  - intros Hfresh. unfold addSideBet, deleteSideBet.
    rewrite filter_app, filter_cons, decide_False, filter_nil, app_nil_r
      by (by intros []).
    by apply deleteSideBet_absent.
  - unfold deleteSideBet. intros Hin.
    apply list_elem_of_fmap in Hin as (b & Hid & Hb).
    apply list_elem_of_filter in Hb as [Hne _]. done.
  - intros Hopen. unfold calculateSideBetTotals, deleteSideBet.
    generalize (@nil (string * Js.value)).
    induction Hopen as [|b bets Hb _ IH]; intros totals; [done|].
    rewrite filter_cons. destruct (decide (SideBet.id b ≠ id)) as [Hid|Hid].
    + cbn [foldl]. apply IH.
    + apply dec_stable in Hid. cbn [foldl].
      by rewrite (settle_unsettled totals b (Hb Hid)).
  - intros Hout. unfold calculateSideBetTotals.
    rewrite !get_foldl_settle, bookings_of_deleteSideBet; [done|].
    eapply Forall_impl; [exact Hout|]. intros b Hb Hid.
    destruct (Hb Hid). by apply bookings_of_outside.
Qed.

Lemma side_bet_add_and_delete_witness :
  deleteSideBet (addSideBet (take 2 sample_bets) open_bet) 3
  = take 2 sample_bets.
Proof.
  apply (side_bet_add_and_delete (take 2 sample_bets) open_bet 0 "").
  apply (bool_decide_unpack _). vm_compute. exact I.
Defined.

(** X15: settling a bet keeps the list as it is but for the winner of the
    bets with the given id: ids, sides and stakes stay, the other bets keep
    their outcome, and only players of the settled bets can see their total
    change. *)
Theorem settling_a_bet_is_local sideBets id winner p :
  let sideBets' := updateSideBet sideBets id winner in
  (λ b, (SideBet.id b, SideBet.team1 b, SideBet.team2 b, SideBet.amount b))
    <$> sideBets'
  = (λ b, (SideBet.id b, SideBet.team1 b, SideBet.team2 b, SideBet.amount b))
    <$> sideBets ∧
  (∀ i b, sideBets !! i = Some b →
     ∃ b', sideBets' !! i = Some b' ∧
           if decide (SideBet.id b = id)
           then SideBet.winner b' = Some winner else b' = b) ∧
  (Forall (λ b, SideBet.id b = id →
                (p ∉ members (SideBet.team1 b)) ∧ (p ∉ members (SideBet.team2 b)))
          sideBets →
   Js.get (calculateSideBetTotals sideBets') p
   = Js.get (calculateSideBetTotals sideBets) p).
Proof.
  intros sideBets'. subst sideBets'. split_and!.
  - unfold updateSideBet.
    rewrite <- list_fmap_compose. apply list_fmap_ext. intros _ b _. simpl.
    by case_decide.
  - unfold updateSideBet.
    intros i b Hb. rewrite list_lookup_fmap, Hb. eexists. split; [done|].
    by case_decide.
  - intros Hout. unfold calculateSideBetTotals.
    by rewrite !get_foldl_settle, bookings_of_updateSideBet.
Qed.

Lemma settling_a_bet_is_local_witness :
  Js.get (calculateSideBetTotals (updateSideBet sample_bets 3 SideBet.One)) "C"
  = Js.get (calculateSideBetTotals sample_bets) "C".
Proof.
  apply (settling_a_bet_is_local sample_bets 3 SideBet.One "C").
  apply (bool_decide_unpack _). vm_compute. exact I.
Defined.

(** ** Side bets on names of [Object.prototype] *)

Lemma gains_on_text p member appended gains :
  p ≠ "__proto__" →
  foldl (entry_after p) (Some (Js.Text member appended)) (Gain <$> gains)
  = Some (Js.Text member (appended ++ gains)).
Proof.
  intros Hp. revert appended.
  induction gains as [|a gains IH]; intros appended.
  - by rewrite app_nil_r.
  - rewrite fmap_cons. cbn [foldl]. unfold entry_after at 2.
    rewrite decide_False by done. cbn [Js.or_zero_plus].
    rewrite IH. by rewrite <- app_assoc.
Qed.

(** X19: the total of every name is decided by the steps the bets make for
    that name alone.  A name [__proto__] never gets an entry.  For any other
    name of a property of [Object.prototype] the first stake gained is
    appended to the text of that property, as are the stakes gained after
    it, so that the total is a string and not a number; and a stake lost
    first leaves NaN minus the stake. *)
Theorem side_bets_on_inherited_names sideBets p :
  let totals := calculateSideBetTotals sideBets in
  Js.get totals p = foldl (entry_after p) None (sideBets ≫= bookings_of p) ∧
  Js.get totals "__proto__" = None ∧
  (p ∈ Js.Object_prototype → p ≠ "__proto__" →
   (∀ gains, sideBets ≫= bookings_of p = Gain <$> gains → gains ≠ [] →
             Js.get totals p = Some (Js.Text p gains)) ∧
   (∀ stake, sideBets ≫= bookings_of p = [Loss stake] →
             Js.get totals p = Some (Js.Number (nan - stake)))).
Proof.
  intros totals. subst totals. unfold calculateSideBetTotals.
  split_and!.
  - apply get_foldl_settle.
  - rewrite get_foldl_settle. cbn [Js.get].
    induction (sideBets ≫= bookings_of "__proto__") as [|e l IH]; [done|].
    cbn [foldl]. unfold entry_after at 2. by rewrite decide_True.
  - intros Hin Hp. split.
    + intros gains Hgains Hne. rewrite get_foldl_settle, Hgains. cbn [Js.get].
      destruct gains as [|a gains]; [done|].
      rewrite fmap_cons. cbn [foldl]. unfold entry_after at 2.
      rewrite decide_False, decide_True by done. cbn [Js.or_zero_plus].
      by rewrite gains_on_text.
    + intros stake Hloss. rewrite get_foldl_settle, Hloss. cbn [Js.get foldl].
      unfold entry_after. by rewrite decide_False, decide_True by done.
Qed.

Lemma side_bets_on_inherited_names_witness :
  calculateSideBetTotals inherited_bets
  = [("constructor", Js.Text "constructor" [5%float]);
     ("B", Js.Number 5); ("C", Js.Number (-5)); ("D", Js.Number (-5))] ∧
  Js.get (calculateSideBetTotals inherited_bets) "constructor"
  = Some (Js.Text "constructor" [5%float]).
Proof.
  split; [vm_compute; reflexivity|].
  destruct (side_bets_on_inherited_names inherited_bets "constructor")
    as (_ & _ & Hinherited).
  destruct Hinherited as [Hgains _].
  - apply (bool_decide_unpack _). vm_compute. exact I.
  - done.
  - apply Hgains; [vm_compute; reflexivity | done].
Defined.

(** ** The custom pairing form *)

Lemma joined_imap {A B} (f : nat → A → list B) (g : A → list B) l :
  (∀ i x, l !! i = Some x → f i x = g x) → mjoin (imap f l) = l ≫= g.
Proof.
  revert f. induction l as [|x l IH]; intros f Hf; [done|].
  rewrite imap_cons. cbn [mjoin list_join mbind list_bind].
  rewrite (Hf 0 x) by done. f_equal. apply IH.
  intros i y Hy. apply (Hf (S i)). done.
Qed.

Lemma delete_beyond {A} (l : list A) i : length l ≤ i → delete i l = l.
Proof.
  revert i. induction l as [|x l IH]; intros [|i] Hi; simpl in *;
    [done|done|lia|].
  f_equal. apply IH. lia.
Qed.

Lemma filter_index_below {A} (l : list A) k j :
  j < k →
  imap (λ i x, (k + i, x)) l ≫= (λ it, if decide (it.1 ≠ j) then [it.2] else [])
  = l.
Proof.
  revert k. induction l as [|x l IH]; intros k Hj; [done|].
  rewrite imap_cons. cbn [mbind list_bind fst snd].
  rewrite decide_True by lia. simpl. f_equal.
  rewrite <- (IH (S k)) at 2 by lia. f_equal.
  apply imap_ext. intros i y _. simpl. f_equal. lia.
Qed.

Lemma filter_index_delete {A} (l : list A) k teamIndex :
  imap (λ i x, (k + i, x)) l
    ≫= (λ it, if decide (it.1 ≠ k + teamIndex) then [it.2] else [])
  = delete teamIndex l.
Proof.
  revert k teamIndex. induction l as [|x l IH]; intros k teamIndex; [done|].
  rewrite imap_cons. cbn [mbind list_bind fst snd].
  assert (imap ((λ i y, (k + i, y)) ∘ S) l
          = imap (λ i y, (S k + i, y)) l) as ->.
  { apply imap_ext. intros i y _. simpl. f_equal. lia. }
  destruct teamIndex as [|teamIndex].
  - rewrite decide_False by lia.
    exact (filter_index_below l (S k) (k + 0) ltac:(lia)).
  - rewrite decide_True by lia.
    replace (k + S teamIndex) with (S k + teamIndex) by lia.
    change (delete (S teamIndex) (x :: l)) with (x :: delete teamIndex l).
    cbn [app snd]. f_equal. apply IH.
Qed.

Lemma removeTeam_delete customTeams teamIndex :
  removeTeam customTeams teamIndex = delete teamIndex customTeams.
Proof. apply (filter_index_delete customTeams 0). Qed.

Lemma seated_app l1 l2 : seated (l1 ++ l2) = seated l1 ++ seated l2.
Proof. apply bind_app. Qed.

Lemma assignedPlayers_split l1 team l2 playerIndex :
  assignedPlayers (l1 ++ team :: l2) (length l1) playerIndex
  = seated l1
    ++ match playerIndex with
       | Seat0 => filter truthy [team.2]
       | Seat1 => filter truthy [team.1]
       end
    ++ seated l2.
Proof.
  unfold assignedPlayers. rewrite imap_app, imap_cons, join_app.
  cbn [mjoin list_join]. rewrite Nat.add_0_r, decide_False by lia.
  f_equal; [|f_equal].
  - apply joined_imap. intros i x Hx. apply lookup_lt_Some in Hx.
    by rewrite decide_True by lia.
  - apply joined_imap. intros i x _. simpl.
    by rewrite decide_True by lia.
Qed.

Lemma set_seat_of team playerIndex :
  set_seat team playerIndex (seat_of team playerIndex) = team.
Proof. by destruct team, playerIndex. Qed.

(** After a seat got a value, the seated names are that value, where it is
    not empty, and the names that [getAvailablePlayers] leaves out. *)
Lemma seated_set_seat l1 team l2 playerIndex value :
  seated (l1 ++ set_seat team playerIndex value :: l2)
  ≡ₚ filter truthy [value]
     ++ assignedPlayers (l1 ++ team :: l2) (length l1) playerIndex.
Proof.
  rewrite assignedPlayers_split, seated_app.
  change (seated (?t :: l2)) with (filter truthy [t.1; t.2] ++ seated l2).
  destruct team as [a b], playerIndex; cbn [set_seat fst snd].
  - change [value; b] with ([value] ++ [b]). rewrite filter_app.
    rewrite <- (assoc_L (++)). apply Permutation_app_swap_app.
  - change [a; value] with ([a] ++ [value]). rewrite filter_app.
    rewrite <- (assoc_L (++) (filter truthy [a])).
    rewrite (assoc_L (++) (seated l1)).
    rewrite Permutation_app_swap_app.
    by rewrite <- (assoc_L (++) (seated l1)).
Qed.

Lemma handleTeamChange_shown customTeams teamIndex playerIndex value :
  teamIndex < length customTeams →
  ∃ team,
    customTeams = take teamIndex customTeams
                  ++ team :: drop (S teamIndex) customTeams ∧
    handleTeamChange customTeams teamIndex playerIndex value
    = Some (take teamIndex customTeams
            ++ set_seat team playerIndex value
            :: drop (S teamIndex) customTeams).
Proof.
  intros Hlt. destruct (lookup_lt_is_Some_2 _ _ Hlt) as [team Hteam].
  exists team. split; [by rewrite take_drop_middle|].
  unfold handleTeamChange. rewrite Hteam. f_equal.
  by rewrite insert_take_drop.
Qed.

Lemma handleTeamChange_seated playerNames customTeams teamIndex playerIndex
    value newTeams :
  NoDup (seated customTeams) →
  teamIndex < length customTeams →
  value ∈ options playerNames customTeams teamIndex playerIndex →
  handleTeamChange customTeams teamIndex playerIndex value = Some newTeams →
  length newTeams = length customTeams ∧
  NoDup (seated newTeams) ∧
  (∀ s, s ∈ seated newTeams → s ∈ seated customTeams ∨ s ∈ playerNames).
Proof.
  intros Hnodup Hlt Hvalue Hchange.
  destruct (handleTeamChange_shown customTeams teamIndex playerIndex value Hlt)
    as (team & Hsplit & Hnew).
  rewrite Hchange in Hnew. injection Hnew as ->.
  assert (length (take teamIndex customTeams) = teamIndex) as Hl1
    by (rewrite length_take; lia).
  set (l1 := take teamIndex customTeams) in *.
  set (l2 := drop (S teamIndex) customTeams) in *.
  assert (customTeams !! teamIndex = Some team) as Hteam.
  { rewrite Hsplit, <- Hl1. apply list_lookup_middle. done. }
  pose proof (seated_set_seat l1 team l2 playerIndex value) as Hperm.
  pose proof (seated_set_seat l1 team l2 playerIndex
                (seat_of team playerIndex)) as Hold.
  rewrite set_seat_of, <- Hsplit, Hl1 in Hold.
  rewrite <- Hsplit, Hl1 in Hperm.
  set (elsewhere := assignedPlayers customTeams teamIndex playerIndex) in *.
  assert (NoDup elsewhere) as Helse.
  { rewrite Hold in Hnodup. by apply NoDup_app in Hnodup as (_ & _ & ?). }
  assert (truthy value →
          ((value ∉ elsewhere) ∧ value ∈ playerNames)
          ∨ value = seat_of team playerIndex) as Hcases.
  { intros Htruthy. unfold options in Hvalue. rewrite Hteam in Hvalue.
    apply elem_of_cons in Hvalue as [->|Hvalue]; [done|].
    apply elem_of_app in Hvalue as [Hvalue|Hvalue].
    - apply list_elem_of_filter in Hvalue as [? ?]. by left.
    - case_decide; [|by apply elem_of_nil in Hvalue].
      apply list_elem_of_singleton in Hvalue. by right. }
  split_and!.
  - transitivity (length (l1 ++ team :: l2)); [by rewrite !length_app|].
    by rewrite <- Hsplit.
  - rewrite Hperm. destruct (decide (truthy value)) as [Htruthy|Hempty].
    + destruct (Hcases Htruthy) as [[Hout _]| ->].
      * rewrite filter_cons_True by done. rewrite filter_nil.
        apply NoDup_cons. done.
      * by rewrite <- Hold.
    + rewrite filter_cons_False by done. by rewrite filter_nil.
  - intros s Hs. rewrite Hperm in Hs. apply elem_of_app in Hs as [Hs|Hs].
    + apply list_elem_of_filter in Hs as [Htruthy Hs].
      apply list_elem_of_singleton in Hs as ->.
      destruct (Hcases Htruthy) as [[_ Hin]| ->]; [by right|left].
      rewrite Hold. apply elem_of_app. left.
      apply list_elem_of_filter. split; [done|apply list_elem_of_here].
    + left. rewrite Hold. apply elem_of_app. by right.
Qed.

Lemma addTeam_seated customTeams :
  length customTeams ≤ 6 →
  length (addTeam customTeams) ≤ 6 ∧
  seated (addTeam customTeams) = seated customTeams.
Proof.
  intros Hlen. unfold addTeam. case_decide; [|done].
  rewrite length_app, seated_app. cbn [length].
  split; [lia|]. apply app_nil_r.
Qed.

Lemma removeTeam_seated customTeams teamIndex :
  length (removeTeam customTeams teamIndex) ≤ length customTeams ∧
  seated (removeTeam customTeams teamIndex) `sublist_of` seated customTeams.
Proof.
  rewrite removeTeam_delete. split.
  - destruct (decide (teamIndex < length customTeams)).
    + rewrite length_delete by (by apply lookup_lt_is_Some_2). lia.
    + rewrite delete_beyond by lia. done.
  - destruct (customTeams !! teamIndex) as [team|] eqn:Hteam.
    + rewrite delete_take_drop.
      rewrite <- (take_drop_middle customTeams teamIndex team Hteam) at 3.
      rewrite !seated_app. apply sublist_app; [done|].
      change (seated (team :: ?l))
        with (filter truthy [team.1; team.2] ++ seated l).
      by apply sublist_inserts_l.
    + apply lookup_ge_None in Hteam. by rewrite delete_beyond by lia.
Qed.

(** X18: through the custom pairing form no player gets onto two seats.
    Starting with no team, after any sequence of taking an option of a
    select, adding a team and removing a team, there are at most six teams,
    no nonempty name sits on two seats, and every seated name is one of the
    player names. *)
Theorem pairing_form_keeps_teams_apart (playerNames : list string)
    (customTeams : list (string * string)) :
  form_reaches playerNames customTeams →
  length customTeams ≤ 6 ∧
  NoDup (seated customTeams) ∧
  (∀ s, s ∈ seated customTeams → s ∈ playerNames ∧ s ≠ "").
Proof.
  induction 1 as [|customTeams teamIndex playerIndex value newTeams _ IH
                    Hlt Hvalue Hchange
                  |customTeams _ IH
                  |customTeams teamIndex _ IH Hlt].
  - split_and!; [simpl; lia|constructor|].
    intros s Hs. by apply elem_of_nil in Hs.
  - destruct IH as (Hlen & Hnodup & Hin).
    destruct (handleTeamChange_seated playerNames customTeams teamIndex
                playerIndex value newTeams Hnodup Hlt Hvalue Hchange)
      as (Hlen' & Hnodup' & Hin').
    split_and!; [lia|done|]. intros s Hs. split.
    + destruct (Hin' s Hs) as [Hold|?]; [|done]. by apply Hin.
    + unfold seated in Hs. apply list_elem_of_bind in Hs as (team & Hs & _).
      by apply list_elem_of_filter in Hs as [? _].
  - destruct IH as (Hlen & Hnodup & Hin).
    destruct (addTeam_seated customTeams Hlen) as [Hlen' Hseated].
    rewrite Hseated. done.
  - destruct IH as (Hlen & Hnodup & Hin).
    destruct (removeTeam_seated customTeams teamIndex) as [Hlen' Hsub].
    split_and!; [lia|by eapply sublist_NoDup|].
    intros s Hs. apply Hin. by eapply elem_of_sublist.
Qed.

Lemma pairing_form_keeps_teams_apart_witness :
  form_reaches twelve_names [("Ann", "Ben"); ("", "")] ∧
  NoDup (seated [("Ann", "Ben"); ("", "")]).
Proof.
  assert (form_reaches twelve_names [("Ann", "Ben"); ("", "")]) as Hreach.
  { apply (form_add twelve_names [("Ann", "Ben")]).
    apply (form_select twelve_names [("Ann", "")] 0 Seat1 "Ben");
      [|simpl; lia|apply (bool_decide_unpack _); vm_compute; exact I
       |reflexivity].
    apply (form_select twelve_names [("", "")] 0 Seat0 "Ann");
      [|simpl; lia|apply (bool_decide_unpack _); vm_compute; exact I
       |reflexivity].
    apply (form_add twelve_names []). apply form_start. }
  split; [exact Hreach|].
  apply (pairing_form_keeps_teams_apart twelve_names _ Hreach).
Defined.
